(** * Tetris-2048: the grid-state engine

    A shallow embedding of [tile.py], [point.py], [tetromino.py] and
    [game_grid.py], and of the steps of the driver [Tetris_2048_.py] that
    are rules of the game rather than drawing or input: the hard drop, the
    landing step and the high-score list.
    Python's unbounded integers are [Z]; loop indices produced by [range]
    and the grid dimensions are [nat].  A NumPy object matrix is a list of
    rows, each row a list of optional tiles ([None] is the empty cell), and
    row 0 of the grid is the bottom row of the board.

    Tiles are mutable Python objects, but no tile is ever referenced from
    two cells: the footprint handed to [update_grid] is deep-copied cell by
    cell, and every grid operation moves or drops references.  A tile is
    therefore modelled by its value. *)

From Stdlib Require Import ZArith List Bool Lia.
From stdpp Require Import base option list gmap.

(** ** tile.py *)

(** The colours of a tile are recomputed from [number] by [set_colors]
    whenever the number changes, so [number] is the whole state. *)
Record Tile := mkTile { number : Z }.

(** [Tile.merge_with]: doubles the number when both numbers agree and is
    a no-op otherwise. *)
Definition merge_with (self other : Tile) : Tile :=
  if (number self =? number other)%Z then mkTile (number self * 2) else self.

(** [Tile.__init__]: [random.choice([2, 4])]; the outcome of the draw is
    the boolean argument. *)
Definition Tile_init (choice : bool) : Tile :=
  mkTile (if choice then 4 else 2)%Z.

(** ** Matrices of optional tiles *)

Abbreviation Matrix := (list (list (option Tile))).

(** [m[row][col]]; the engine only reads inside the matrix, an index
    outside it reads as the empty cell here. *)
Definition tile_at (m : Matrix) (row col : nat) : option Tile :=
  match m !! row with
  | Some r => match r !! col with Some t => t | None => None end
  | None => None
  end.

(** [m[row][col] = v] *)
Definition set_tile (m : Matrix) (row col : nat) (v : option Tile) : Matrix :=
  alter (fun r => <[col := v]> r) row m.

Definition is_some {A} (o : option A) : bool :=
  match o with Some _ => true | None => false end.

Definition count_cell (o : option Tile) : nat := Nat.b2n (is_some o).

Definition count_row (r : list (option Tile)) : nat :=
  sum_list_with count_cell r.

(** Number of occupied cells of a matrix. *)
Definition count_occupied (m : Matrix) : nat :=
  sum_list_with count_row m.

Definition cell_of_row (col : nat) (r : list (option Tile)) : option Tile :=
  match r !! col with Some t => t | None => None end.

(** The column [col] of a matrix, bottom row first. *)
Definition column (m : Matrix) (col : nat) : list (option Tile) :=
  cell_of_row col <$> m.

(** ** game_grid.py *)

(** [current_tetromino] and the drawing attributes take no part in the
    rules and are left out. *)
Record GameGrid := mkGrid {
  grid_height : nat;
  grid_width : nat;
  tile_matrix : Matrix;
  game_over : bool;
  score : Z
}.

(** [GameGrid.__init__] *)
Definition GameGrid_init (grid_h grid_w : nat) : GameGrid :=
  mkGrid grid_h grid_w (replicate grid_h (replicate grid_w None)) false 0.

Definition with_matrix (g : GameGrid) (m : Matrix) : GameGrid :=
  mkGrid (grid_height g) (grid_width g) m (game_over g) (score g).

Definition with_score (g : GameGrid) (s : Z) : GameGrid :=
  mkGrid (grid_height g) (grid_width g) (tile_matrix g) (game_over g) s.

Definition with_game_over (g : GameGrid) (b : bool) : GameGrid :=
  mkGrid (grid_height g) (grid_width g) (tile_matrix g) b (score g).

(** The matrix of a grid has [grid_height] rows of [grid_width] cells. *)
Definition matrix_dims {A} (h w : nat) (m : list (list A)) : Prop :=
  length m = h /\ Forall (fun r => length r = w) m.

Definition grid_wf (g : GameGrid) : Prop :=
  matrix_dims (grid_height g) (grid_width g) (tile_matrix g).

(** [GameGrid.is_inside] *)
Definition is_inside (g : GameGrid) (row col : Z) : bool :=
  ((0 <=? row) && (row <? Z.of_nat (grid_height g)) &&
   (0 <=? col) && (col <? Z.of_nat (grid_width g)))%Z.

(** [GameGrid.is_occupied] *)
Definition is_occupied (g : GameGrid) (row col : Z) : bool :=
  is_inside g row col &&
  is_some (tile_at (tile_matrix g) (Z.to_nat row) (Z.to_nat col)).

(** One column of [chain_bottom_up_merge]: the loop
    [while row < self.grid_height - 1].  Every iteration advances [row],
    so [grid_height] units of fuel are never used up. *)
Fixpoint merge_column_from (fuel row col : nat) (g : GameGrid) (merged : bool)
  : GameGrid * bool :=
  match fuel with
  | O => (g, merged)
  | S fuel' =>
    if row <? grid_height g - 1 then
      match tile_at (tile_matrix g) row col,
            tile_at (tile_matrix g) (row + 1) col with
      | Some current, Some above =>
        if (number current =? number above)%Z then
          let current' := merge_with current above in
          let m1 := set_tile (tile_matrix g) row col (Some current') in
          let m2 := set_tile m1 (row + 1) col None in
          let g' := with_score (with_matrix g m2)
                               (score g + number current') in
          merge_column_from fuel' (row + 1 + 1) col g' true
        else merge_column_from fuel' (row + 1) col g merged
      | _, _ => merge_column_from fuel' (row + 1) col g merged
      end
    else (g, merged)
  end.

(** The body of [for col in columns]: [row = 0] and the [while] loop. *)
Definition merge_column (col : nat) (st : GameGrid * bool) : GameGrid * bool :=
  merge_column_from (grid_height (fst st)) 0 col (fst st) (snd st).

(** [GameGrid.chain_bottom_up_merge]; [columns] lists the elements of the
    Python set in the order the [for] loop meets them.  A column outside
    the grid raises [IndexError] in Python; the properties below are
    stated for columns inside the grid. *)
Definition chain_bottom_up_merge (columns : list nat) (g : GameGrid)
  : GameGrid * bool :=
  fold_left (fun st col => merge_column col st) columns (g, false).

(** [m[r]]: a row of the matrix. *)
Definition row_at (m : Matrix) (r : nat) : list (option Tile) :=
  match m !! r with Some row => row | None => [] end.

(** [GameGrid.shift_down_above_row]: NumPy's [m[r] = m[r+1]] copies the
    cells of row [r+1] into row [r]. *)
Definition shift_down_above_row (row_index : nat) (g : GameGrid) : GameGrid :=
  let h := grid_height g in
  let m1 := fold_left (fun m r => <[r := row_at m (r + 1)]> m)
                      (seq row_index (h - 1 - row_index)) (tile_matrix g) in
  with_matrix g (<[h - 1 := replicate (grid_width g) None]> m1).

(** [None not in self.tile_matrix[row]] *)
Definition row_full (r : list (option Tile)) : bool := forallb is_some r.

(** [for tile in row: if tile: cleared_score += tile.number] *)
Definition row_score (r : list (option Tile)) : Z :=
  fold_left (fun acc o => match o with Some t => acc + number t | None => acc end)%Z
            r 0%Z.

(** [for col in range(self.grid_width): cleared_cols.add(col)] *)
Definition add_all_columns (w : nat) (cleared_cols : gset nat) : gset nat :=
  fold_left (fun s col => s ∪ {[col]}) (seq 0 w) cleared_cols.

(** The [while row < self.grid_height] loop of
    [clear_full_rows_return_columns].  A full row is removed and the same
    index is tested again, so the loop is not bounded by the height alone:
    it is run on fuel and [None] says the fuel ran out. *)
Fixpoint clear_rows_loop (fuel row : nat) (g : GameGrid)
    (cleared_cols : gset nat) (cleared_score : Z)
  : option (GameGrid * gset nat * Z) :=
  if row <? grid_height g then
    match fuel with
    | O => None
    | S fuel' =>
      let r := row_at (tile_matrix g) row in
      if row_full r then
        let cleared_cols' := add_all_columns (grid_width g) cleared_cols in
        let cleared_score' := fold_left
          (fun acc o => match o with Some t => acc + number t | None => acc end)%Z
          r cleared_score in
        clear_rows_loop fuel' row (shift_down_above_row row g)
                        cleared_cols' cleared_score'
      else clear_rows_loop fuel' (row + 1) g cleared_cols cleared_score
    end
  else Some (g, cleared_cols, cleared_score).

(** [GameGrid.clear_full_rows_return_columns] *)
Definition clear_full_rows_return_columns (fuel : nat) (g : GameGrid)
  : option (GameGrid * gset nat) :=
  match clear_rows_loop fuel 0 g ∅ 0%Z with
  | Some (g', cleared_cols, cleared_score) =>
    Some (with_score g' (score g' + cleared_score), cleared_cols)
  | None => None
  end.

(** The [visited] matrix of the flood fill. *)
Abbreviation Visited := (list (list bool)).

Definition visited_at (v : Visited) (row col : nat) : bool :=
  match v !! row with
  | Some r => match r !! col with Some b => b | None => false end
  | None => false
  end.

Definition mark_visited (v : Visited) (row col : nat) : Visited :=
  alter (fun r => <[col := true]> r) row v.

(** [for col in range(W): if tile_matrix[0][col] is not None: ...] *)
Definition seed_bottom_row (g : GameGrid) (st : Visited * list (nat * nat))
    (col : nat) : Visited * list (nat * nat) :=
  if is_some (tile_at (tile_matrix g) 0 col)
  then (mark_visited (fst st) 0 col, snd st ++ [(0, col)])
  else st.

Definition directions : list (Z * Z) :=
  [(-1, 0); (1, 0); (0, -1); (0, 1)]%Z.

(** The body of [for dr, dc in ...] inside the flood fill. *)
Definition visit_neighbour (g : GameGrid) (r c : nat)
    (st : Visited * list (nat * nat)) (d : Z * Z) : Visited * list (nat * nat) :=
  let nr := (Z.of_nat r + fst d)%Z in
  let nc := (Z.of_nat c + snd d)%Z in
  if is_inside g nr nc && negb (visited_at (fst st) (Z.to_nat nr) (Z.to_nat nc)) then
    if is_some (tile_at (tile_matrix g) (Z.to_nat nr) (Z.to_nat nc))
    then (mark_visited (fst st) (Z.to_nat nr) (Z.to_nat nc),
          snd st ++ [(Z.to_nat nr, Z.to_nat nc)])
    else st
  else st.

(** [while queue: r, c = queue.popleft(); ...]; [None] when the fuel runs
    out before the queue is empty. *)
Fixpoint flood_fill (fuel : nat) (g : GameGrid) (visited : Visited)
    (queue : list (nat * nat)) : option Visited :=
  match queue with
  | [] => Some visited
  | (r, c) :: queue' =>
    match fuel with
    | O => None
    | S fuel' =>
      let st := fold_left (visit_neighbour g r c) directions (visited, queue') in
      flood_fill fuel' g (fst st) (snd st)
    end
  end.

(** [while dest > 0 and self.tile_matrix[dest-1][col] is None: dest -= 1] *)
Fixpoint find_dest (m : Matrix) (col dest : nat) : nat :=
  match dest with
  | O => O
  | S d => if is_some (tile_at m d col) then S d else find_dest m col d
  end.

(** The body of the two [for] loops that let unsupported tiles fall. *)
Definition drop_tile (visited : Visited) (col : nat) (m : Matrix) (row : nat)
  : Matrix :=
  if is_some (tile_at m row col) && negb (visited_at visited row col) then
    let dest := find_dest m col row in
    if dest =? row then m
    else set_tile (set_tile m dest col (tile_at m row col)) row col None
  else m.

(** [for row in range(self.grid_height - 2, -1, -1)] *)
Definition drop_column (visited : Visited) (h : nat) (m : Matrix) (col : nat)
  : Matrix :=
  fold_left (drop_tile visited col) (rev (seq 0 (h - 1))) m.

Definition drop_unsupported (visited : Visited) (h w : nat) (m : Matrix) : Matrix :=
  fold_left (drop_column visited h) (seq 0 w) m.

(** [GameGrid.fall_disconnected_tiles].  There is no result ([None])
    when the flood fill runs out of fuel, and on a grid without rows but
    with columns, where [tile_matrix[0]] raises [IndexError]. *)
Definition fall_disconnected_tiles (fuel : nat) (g : GameGrid) : option GameGrid :=
  let h := grid_height g in
  let w := grid_width g in
  if (h =? 0) && (0 <? w) then None
  else
    let st := fold_left (seed_bottom_row g) (seq 0 w)
                        (replicate h (replicate w false), []) in
    match flood_fill fuel g (fst st) (snd st) with
    | Some visited =>
      Some (with_matrix g (drop_unsupported visited h w (tile_matrix g)))
    | None => None
    end.

(** ** point.py *)
Record Point := mkPoint { x : Z; y : Z }.

(** [Point.translate] *)
Definition translate (p : Point) (dx dy : Z) : Point :=
  mkPoint (x p + dx) (y p + dy).

(** The body of the placement loops of [update_grid];
    [affected_cols.add] keeps one copy of each column.  The set is kept as
    the list of its elements in the order they were added; the merge pass
    does not depend on the order (see [chain_bottom_up_merge_order]). *)
Definition lock_cell (n_rows : nat) (tiles_to_lock : Matrix) (blc : Point)
    (col : nat) (st : GameGrid * list nat) (row : nat) : GameGrid * list nat :=
  match tile_at tiles_to_lock row col with
  | Some tile =>
    let pos_x := (x blc + Z.of_nat col)%Z in
    let pos_y := (y blc + (Z.of_nat n_rows - 1 - Z.of_nat row))%Z in
    if is_inside (fst st) pos_y pos_x then
      (with_matrix (fst st)
         (set_tile (tile_matrix (fst st)) (Z.to_nat pos_y) (Z.to_nat pos_x) (Some tile)),
       if bool_decide (Z.to_nat pos_x ∈ snd st) then snd st
       else snd st ++ [Z.to_nat pos_x])
    else (with_game_over (fst st) true, snd st)
  | None => st
  end.

Definition lock_tiles (tiles_to_lock : Matrix) (blc : Point) (g : GameGrid)
  : GameGrid * list nat :=
  let n_rows := length tiles_to_lock in
  let n_cols := length (row_at tiles_to_lock 0) in
  fold_left (fun st col =>
               fold_left (lock_cell n_rows tiles_to_lock blc col) (seq 0 n_rows) st)
            (seq 0 n_cols) (g, []).

(** The [while True] loop of [update_grid]; [inner] is the fuel handed
    to each gravity pass. *)
Fixpoint merge_settle_loop (inner fuel : nat) (affected_cols : list nat)
    (g : GameGrid) : option GameGrid :=
  match fuel with
  | O => None
  | S fuel' =>
    let '(g1, merged) := chain_bottom_up_merge affected_cols g in
    if merged then
      match fall_disconnected_tiles inner g1 with
      | Some g2 => merge_settle_loop inner fuel' affected_cols g2
      | None => None
      end
    else Some g1
  end.

(** [GameGrid.update_grid]; the result is the grid after the call and the
    value returned.  There is no result ([None]) when one of the loops runs
    out of fuel, when the gravity pass has none, and for a footprint
    without rows, where [tiles_to_lock[0]] raises [IndexError]. *)
Definition update_grid (fuel : nat) (tiles_to_lock : Matrix) (blc : Point)
    (g : GameGrid) : option (GameGrid * bool) :=
  match tiles_to_lock with
  | [] => None
  | _ =>
    let '(g1, affected_cols) := lock_tiles tiles_to_lock blc g in
    if game_over g1 then Some (g1, true)
    else
      match merge_settle_loop fuel fuel affected_cols g1 with
      | Some g2 =>
        match clear_full_rows_return_columns fuel g2 with
        | Some (g3, _) =>
          match fall_disconnected_tiles fuel g3 with
          | Some g4 => Some (g4, false)
          | None => None
          end
        | None => None
        end
      | None => None
      end
  end.

(** ** tetromino.py *)

Inductive Shape := shape_I | shape_O | shape_Z | shape_S | shape_T | shape_J | shape_L.

(** The direction strings ["left"], ["right"] and ["down"]; the engine
    treats every other string as ["down"]. *)
Inductive Direction := dir_left | dir_right | dir_down.

(** [random.randint(a, b)] of the Python library: [ValueError] on an empty
    range, otherwise [a + randbelow(b - a + 1)]; [raw] is the draw. *)
Definition randint (a b : Z) (raw : nat) : option Z :=
  if (b <? a)%Z then None else Some (a + Z.of_nat raw mod (b - a + 1))%Z.

(** [numpy.rot90(m, -1)] is [flip(transpose(m), axis=1)]. *)
Fixpoint transpose (ncols : nat) (m : Matrix) : Matrix :=
  match m with
  | [] => replicate ncols []
  | r :: rest => zip_with cons r (transpose ncols rest)
  end.

Definition flip_columns (m : Matrix) : Matrix := reverse <$> m.

Definition rot90_clockwise (m : Matrix) : Matrix :=
  flip_columns (transpose (length m) m).

Module Tetromino.

Record t := mk {
  type : Shape;
  tile_matrix : Matrix;
  bottom_left_cell : Point
}.

(** The size [n] of the local matrix of each shape. *)
Definition size (shape : Shape) : nat :=
  match shape with
  | shape_I => 4
  | shape_O => 2
  | _ => 3
  end.

(** [occupied_cells], the pairs as the constructor lists them. *)
Definition occupied_cells (shape : Shape) : list (nat * nat) :=
  match shape with
  | shape_I => [(1,0); (1,1); (1,2); (1,3)]
  | shape_O => [(0,0); (1,0); (0,1); (1,1)]
  | shape_Z => [(0,1); (1,1); (1,2); (2,2)]
  | shape_S => [(1,1); (2,1); (0,2); (1,2)]
  | shape_T => [(0,1); (1,1); (2,1); (1,0)]
  | shape_J => [(0,1); (1,1); (2,1); (2,2)]
  | shape_L => [(0,2); (0,1); (1,1); (2,1)]
  end.

(** [for col_index, row_index in occupied_cells:
       self.tile_matrix[row_index][col_index] = Tile()];
    [choice k] is the outcome of the [k]-th draw of a tile number. *)
Fixpoint fill_cells (choice : nat -> bool) (k : nat) (cells : list (nat * nat))
    (m : Matrix) : Matrix :=
  match cells with
  | [] => m
  | (col_index, row_index) :: rest =>
    fill_cells choice (S k) rest
               (set_tile m row_index col_index (Some (Tile_init (choice k))))
  end.

(** [Tetromino.__init__]; [grid_height] and [grid_width] are the class
    attributes set by the driver, [choice] and [raw] the random draws.
    [None] is the [ValueError] of [random.randint]. *)
Definition init (grid_height grid_width : nat) (shape : Shape)
    (choice : nat -> bool) (raw : nat) : option t :=
  let n := size shape in
  let m := fill_cells choice 0 (occupied_cells shape)
                      (replicate n (replicate n None)) in
  match randint 0 (Z.of_nat grid_width - Z.of_nat n) raw with
  | Some rx => Some (mk shape m (mkPoint rx (Z.of_nat grid_height - 1)))
  | None => None
  end.

(** [Tetromino.get_cell_position] *)
Definition get_cell_position (p : t) (row col : nat) : Point :=
  let n := length (tile_matrix p) in
  mkPoint (x (bottom_left_cell p) + Z.of_nat col)
          (y (bottom_left_cell p) + (Z.of_nat n - 1) - Z.of_nat row).

(** The first index of [indices] whose cell of row [r] holds a tile. *)
Definition first_tile_in_row (m : Matrix) (r : nat) (indices : list nat)
  : option nat :=
  find (fun c => is_some (tile_at m r c)) indices.

Definition first_tile_in_col (m : Matrix) (c : nat) (indices : list nat)
  : option nat :=
  find (fun r => is_some (tile_at m r c)) indices.

(** [Tetromino.can_be_moved]: per row (per column, when moving down) only
    the first tile met in the direction of travel is tested. *)
Definition can_be_moved (grid_width : nat) (p : t) (direction : Direction)
    (game_grid : GameGrid) : bool :=
  let n := length (tile_matrix p) in
  match direction with
  | dir_left =>
    forallb (fun r =>
      match first_tile_in_row (tile_matrix p) r (seq 0 n) with
      | Some c =>
        let pos := get_cell_position p r c in
        negb ((x pos =? 0)%Z || is_occupied game_grid (y pos) (x pos - 1))
      | None => true
      end) (seq 0 n)
  | dir_right =>
    forallb (fun r =>
      match first_tile_in_row (tile_matrix p) r (rev (seq 0 n)) with
      | Some c =>
        let pos := get_cell_position p r c in
        negb ((x pos =? Z.of_nat grid_width - 1)%Z
              || is_occupied game_grid (y pos) (x pos + 1))
      | None => true
      end) (seq 0 n)
  | dir_down =>
    forallb (fun c =>
      match first_tile_in_col (tile_matrix p) c (rev (seq 0 n)) with
      | Some r =>
        let pos := get_cell_position p r c in
        negb ((y pos =? 0)%Z || is_occupied game_grid (y pos - 1) (x pos))
      | None => true
      end) (seq 0 n)
  end.

(** [Tetromino.move] *)
Definition move (grid_width : nat) (p : t) (direction : Direction)
    (game_grid : GameGrid) : t * bool :=
  if negb (can_be_moved grid_width p direction game_grid) then (p, false)
  else
    let b := bottom_left_cell p in
    let b' := match direction with
              | dir_left => mkPoint (x b - 1) (y b)
              | dir_right => mkPoint (x b + 1) (y b)
              | dir_down => mkPoint (x b) (y b - 1)
              end in
    (mk (type p) (tile_matrix p) b', true).

(** The test made on one cell of the rotated matrix; [false] is the
    [return False] of the loop. *)
Definition rotated_cell_ok (grid_height grid_width : nat) (p : t)
    (game_grid : GameGrid) (rotated : Matrix) (n r c : nat) : bool :=
  match tile_at rotated r c with
  | Some _ =>
    let new_x := (x (bottom_left_cell p) + Z.of_nat c)%Z in
    let new_y := (y (bottom_left_cell p) + (Z.of_nat n - 1) - Z.of_nat r)%Z in
    if ((new_x <? 0) || (new_x >=? Z.of_nat grid_width)
        || (new_y <? 0) || (new_y >=? Z.of_nat grid_height))%Z then false
    else if is_occupied game_grid new_y new_x then false
    else true
  | None => true
  end.

(** [Tetromino.rotate] *)
Definition rotate (grid_height grid_width : nat) (p : t) (game_grid : GameGrid)
  : t * bool :=
  let rotated := rot90_clockwise (tile_matrix p) in
  let n := length rotated in
  if forallb (fun r =>
       forallb (rotated_cell_ok grid_height grid_width p game_grid rotated n r)
               (seq 0 n)) (seq 0 n)
  then (mk (type p) rotated (bottom_left_cell p), true)
  else (p, false).

(** The body of the loops of [get_min_bounded_tile_matrix] that look for
    the occupied rows and columns; the state is
    [(min_row, max_row, min_col, max_col)]. *)
Definition bound_cell (m : Matrix) (r : nat) (b : nat * nat * nat * nat) (c : nat)
  : nat * nat * nat * nat :=
  let '(min_row, max_row, min_col, max_col) := b in
  if is_some (tile_at m r c)
  then (Nat.min min_row r, Nat.max max_row r, Nat.min min_col c, Nat.max max_col c)
  else b.

Definition bounds (m : Matrix) : nat * nat * nat * nat :=
  let n := length m in
  fold_left (fun b r => fold_left (bound_cell m r) (seq 0 n) b) (seq 0 n)
            (n - 1, 0, n - 1, 0).

(** The body of the loops that fill the cropped matrix; the deep copy of
    a tile is the tile, tiles being values here. *)
Definition crop_cell (m : Matrix) (min_row min_col r : nat) (cropped : Matrix)
    (c : nat) : Matrix :=
  match tile_at m r c with
  | Some tile => set_tile cropped (r - min_row) (c - min_col) (Some tile)
  | None => cropped
  end.

(** [Tetromino.get_min_bounded_tile_matrix(True)]: the cropped matrix and
    the position of its bottom-left cell.  There is no result ([None]) for
    a matrix without rows, where [tile_matrix[-1]] raises [IndexError], and
    when [np.full] is handed a negative size and raises [ValueError]. *)
Definition get_min_bounded_tile_matrix (p : t) : option (Matrix * Point) :=
  let m := tile_matrix p in
  let n := length m in
  if n =? 0 then None
  else
    let '(min_row, max_row, min_col, max_col) := bounds m in
    let height := (Z.of_nat max_row - Z.of_nat min_row + 1)%Z in
    let width := (Z.of_nat max_col - Z.of_nat min_col + 1)%Z in
    if ((height <? 0) || (width <? 0))%Z then None
    else
      let cropped :=
        fold_left (fun cr r =>
                     fold_left (crop_cell m min_row min_col r)
                               (seq min_col (max_col + 1 - min_col)) cr)
                  (seq min_row (max_row + 1 - min_row))
                  (replicate (Z.to_nat height) (replicate (Z.to_nat width) None)) in
      Some (cropped,
            translate (bottom_left_cell p) (Z.of_nat min_col)
                      (Z.of_nat n - 1 - Z.of_nat max_row)).

End Tetromino.

(** ** The merge pass in the words of the specification *)

(** A column after one bottom-up scan: two stacked tiles of equal value
    become the doubled tile below an empty cell and the scan goes on two
    rows higher; otherwise it goes on one row higher. *)
Fixpoint merged_column (l : list (option Tile)) : list (option Tile) :=
  match l with
  | [] => []
  | Some a :: ((Some b :: rest) as tl) =>
    if (number a =? number b)%Z
    then Some (mkTile (number a * 2)) :: None :: merged_column rest
    else Some a :: merged_column tl
  | o :: tl => o :: merged_column tl
  end.

(** The doubled values the scan of a column produces, one per merge, in
    the order of the merges. *)
Fixpoint column_merges (l : list (option Tile)) : list Z :=
  match l with
  | [] => []
  | Some a :: ((Some b :: rest) as tl) =>
    if (number a =? number b)%Z
    then (number a * 2)%Z :: column_merges rest
    else column_merges tl
  | _ :: tl => column_merges tl
  end.

Definition sum_Z (l : list Z) : Z := foldr Z.add 0%Z l.

Definition nonempty {A} (l : list A) : bool :=
  match l with [] => false | _ => true end.

(** The merges of a whole pass, column after column. *)
Fixpoint pass_merges (m : Matrix) (columns : list nat) : list Z :=
  match columns with
  | [] => []
  | c :: cs => column_merges (column m c) ++ pass_merges m cs
  end.

(** Two stacked tiles of equal value at rows [r] and [r+1] of column [c]. *)
Definition adjacent_equal_at (m : Matrix) (c r : nat) : Prop :=
  exists a b, tile_at m r c = Some a /\ tile_at m (r + 1) c = Some b
              /\ number a = number b.

(** Some merge is possible within the given columns. *)
Definition merge_possible (m : Matrix) (columns : list nat) : Prop :=
  exists c r, c ∈ columns /\ adjacent_equal_at m c r.

(** Cells the flood fill has not marked. *)
Definition count_unvisited (v : Visited) : nat :=
  sum_list_with (sum_list_with (fun b : bool => if b then 0 else 1)) v.

(** Fuel that is enough for one gravity pass. *)
Definition settle_fuel (g : GameGrid) : nat :=
  grid_height g * grid_width g + grid_width g.

(** ** Row clearing in the words of the specification *)

(** The rows that are not full, in order. *)
Fixpoint kept_rows (m : Matrix) : Matrix :=
  match m with
  | [] => []
  | r :: rest => if row_full r then kept_rows rest else r :: kept_rows rest
  end.

(** The full rows, in order. *)
Fixpoint full_rows (m : Matrix) : Matrix :=
  match m with
  | [] => []
  | r :: rest => if row_full r then r :: full_rows rest else full_rows rest
  end.

(** The matrix once every full row is removed, the rows above moved down
    and as many empty rows added on top. *)
Definition cleared_matrix (w : nat) (m : Matrix) : Matrix :=
  kept_rows m ++ replicate (length (full_rows m)) (replicate w None).

(** The sum of the tile values of all full rows. *)
Definition cleared_value (m : Matrix) : Z :=
  sum_Z (row_score <$> full_rows m).

(** ** Locking a footprint *)

(** The cell [(row, col)] of the footprint holds a tile whose board
    coordinate lies outside the grid. *)
Definition cell_overflows (g : GameGrid) (tiles_to_lock : Matrix) (blc : Point)
    (col row : nat) : bool :=
  match tile_at tiles_to_lock row col with
  | Some _ =>
    negb (is_inside g (y blc + (Z.of_nat (length tiles_to_lock) - 1 - Z.of_nat row))
                      (x blc + Z.of_nat col))
  | None => false
  end.

(** Some occupied cell of the footprint maps outside the grid. *)
Definition footprint_overflows (g : GameGrid) (tiles_to_lock : Matrix)
    (blc : Point) : Prop :=
  exists row col,
    row < length tiles_to_lock /\ col < length (row_at tiles_to_lock 0)
    /\ cell_overflows g tiles_to_lock blc col row = true.

(** What the placement loops of [update_grid] keep true. *)
Definition lock_inv (g : GameGrid) (st : GameGrid * list nat) : Prop :=
  grid_wf (fst st) /\ grid_height (fst st) = grid_height g
  /\ grid_width (fst st) = grid_width g /\ score (fst st) = score g
  /\ NoDup (snd st) /\ (forall c, c ∈ snd st -> c < grid_width g).

(** ** Engine calls *)

(** Every tile of the matrix has a positive number: tiles are created
    with 2 or 4 and only ever doubled. *)
Definition cell_positive (o : option Tile) : Prop :=
  match o with Some t => (0 < number t)%Z | None => True end.

Definition tiles_positive (m : Matrix) : Prop := Forall (Forall cell_positive) m.

(** A call of the driver into the engine. *)
Inductive Call :=
| call_move (direction : Direction)
| call_rotate
| call_update_grid (tiles_to_lock : Matrix) (blc : Point).

(** The footprint of a call of [update_grid] has at least one row and
    positive tiles. *)
Definition call_positive (c : Call) : Prop :=
  match c with
  | call_update_grid tiles _ => tiles <> [] /\ tiles_positive tiles
  | _ => True
  end.

(** One call on the active piece and the grid; [gh] and [gw] are the class
    attributes [Tetromino.grid_height] and [Tetromino.grid_width]. *)
Definition run_call (gh gw fuel : nat) (st : Tetromino.t * GameGrid) (c : Call)
  : option (Tetromino.t * GameGrid) :=
  match c with
  | call_move d => Some (fst (Tetromino.move gw (fst st) d (snd st)), snd st)
  | call_rotate => Some (fst (Tetromino.rotate gh gw (fst st) (snd st)), snd st)
  | call_update_grid tiles blc =>
    match update_grid fuel tiles blc (snd st) with
    | Some (g', _) => Some (fst st, g')
    | None => None
    end
  end.

Fixpoint run_calls (gh gw fuel : nat) (st : Tetromino.t * GameGrid)
    (calls : list Call) : option (Tetromino.t * GameGrid) :=
  match calls with
  | [] => Some st
  | c :: rest =>
    match run_call gh gw fuel st c with
    | Some st' => run_calls gh gw fuel st' rest
    | None => None
    end
  end.

(** ** Shapes in the words of the specification *)

(** The cell sets the specification lists for the seven shapes. *)
Definition listed_cells (shape : Shape) : list (nat * nat) :=
  match shape with
  | shape_I => [(1,0); (1,1); (1,2); (1,3)]
  | shape_O => [(0,0); (1,0); (0,1); (1,1)]
  | shape_Z => [(0,1); (1,1); (1,2); (2,2)]
  | shape_S => [(1,1); (2,1); (0,2); (1,2)]
  | shape_T => [(0,1); (1,1); (2,1); (1,0)]
  | shape_J => [(0,1); (1,1); (2,1); (2,2)]
  | shape_L => [(0,2); (0,1); (1,1); (2,1)]
  end.

Definition pair_in (p : nat * nat) (cells : list (nat * nat)) : bool :=
  existsb (fun q => (fst p =? fst q) && (snd p =? snd q)) cells.

(** Which cells of a matrix hold a tile. *)
Definition occupancy (m : Matrix) : list (list bool) :=
  (fun r : list (option Tile) => is_some <$> r) <$> m.

(** The occupancy an [n]x[n] matrix has when the listed pairs are read as
    (row, col) with row 0 the bottom row of the matrix. *)
Definition pattern_row_col_bottom (n : nat) (cells : list (nat * nat))
  : list (list bool) :=
  (fun r : nat => (fun c : nat => pair_in (n - 1 - r, c) cells) <$> seq 0 n)
    <$> seq 0 n.

(** The occupancy an [n]x[n] matrix has when the listed pairs are read as
    (col, row) with row 0 the top row of the matrix. *)
Definition pattern_col_row_top (n : nat) (cells : list (nat * nat))
  : list (list bool) :=
  (fun r : nat => (fun c : nat => pair_in (c, r) cells) <$> seq 0 n) <$> seq 0 n.

(** The first row of the local matrix that holds a tile: the top of the
    piece. *)
Definition first_occupied_row (m : Matrix) : option nat :=
  find (fun r => existsb is_some (row_at m r)) (seq 0 (length m)).

(** The board row of the topmost occupied cell of a piece. *)
Definition topmost_y (p : Tetromino.t) : option Z :=
  match first_occupied_row (Tetromino.tile_matrix p) with
  | Some r => Some (y (Tetromino.get_cell_position p r 0))
  | None => None
  end.

(** How far the top of a fresh piece lies above the row of its
    bottom-left cell. *)
Definition top_offset (shape : Shape) : Z :=
  match shape with
  | shape_I => 3
  | shape_T => 2
  | _ => 1
  end.

(** ** Rotation in the words of the specification *)

(** Every occupied cell of [rotated], mapped at the bottom-left cell of
    the piece, lies inside a board of [gh] rows and [gw] columns and on a
    free cell of the grid. *)
Definition rotation_fits (gh gw : nat) (p : Tetromino.t) (g : GameGrid)
    (rotated : Matrix) : Prop :=
  let n := length (Tetromino.tile_matrix p) in
  forall r c,
    r < n -> c < n -> is_some (tile_at rotated r c) = true ->
    let new_x := (x (Tetromino.bottom_left_cell p) + Z.of_nat c)%Z in
    let new_y := (y (Tetromino.bottom_left_cell p) + (Z.of_nat n - 1) - Z.of_nat r)%Z in
    (0 <= new_x < Z.of_nat gw)%Z /\ (0 <= new_y < Z.of_nat gh)%Z
    /\ is_occupied g new_y new_x = false.

(** ** Quantities the engine keeps *)

Definition cell_value (o : option Tile) : Z :=
  match o with Some t => number t | None => 0%Z end.

(** The sum of the numbers of all tiles on the board. *)
Definition board_value (m : Matrix) : Z := sum_Z (row_score <$> m).

(** ** The gravity pass in the words of its docstring *)

(** The flood fill of [fall_disconnected_tiles]: the [visited] matrix at
    the time the queue is empty. *)
Definition supported_tiles (fuel : nat) (g : GameGrid) : option Visited :=
  let st := fold_left (seed_bottom_row g) (seq 0 (grid_width g))
                      (replicate (grid_height g) (replicate (grid_width g) false), [])
  in flood_fill fuel g (fst st) (snd st).

(** Two cells that share an edge. *)
Definition neighbours (r c r' c' : nat) : Prop :=
  (r' = r /\ (c' = c + 1 \/ c = c' + 1)) \/ (c' = c /\ (r' = r + 1 \/ r = r' + 1)).

(** A tile is grounded when a chain of tiles, each sharing an edge with
    the next, links it to a tile of the bottom row. *)
Inductive grounded (m : Matrix) : nat -> nat -> Prop :=
| grounded_bottom c :
    is_some (tile_at m 0 c) = true -> grounded m 0 c
| grounded_step r c r' c' :
    grounded m r c -> neighbours r c r' c' ->
    is_some (tile_at m r' c') = true -> grounded m r' c'.

(** Every tile next to the cell [(r, c)] is marked. *)
Definition closed_at (m : Matrix) (v : Visited) (r c : nat) : Prop :=
  forall r' c', neighbours r c r' c' -> is_some (tile_at m r' c') = true ->
                visited_at v r' c' = true.

(** What the flood fill keeps true; [pending] is the cell taken off the
    queue whose neighbours are being looked at. *)
Definition fill_inv (g : GameGrid) (v : Visited) (q : list (nat * nat))
    (pending : option (nat * nat)) : Prop :=
  matrix_dims (grid_height g) (grid_width g) v
  /\ (forall r c, visited_at v r c = true -> grounded (tile_matrix g) r c)
  /\ (forall c, is_some (tile_at (tile_matrix g) 0 c) = true -> visited_at v 0 c = true)
  /\ (forall r c, (r, c) ∈ q -> visited_at v r c = true)
  /\ (forall r c, visited_at v r c = true ->
        (r, c) ∈ q \/ pending = Some (r, c) \/ closed_at (tile_matrix g) v r c).

(** The neighbour of [(r, c)] in direction [d] is marked when it holds a
    tile. *)
Definition handled (g : GameGrid) (v : Visited) (r c : nat) (d : Z * Z) : Prop :=
  let nr := (Z.of_nat r + fst d)%Z in
  let nc := (Z.of_nat c + snd d)%Z in
  is_inside g nr nc = true ->
  is_some (tile_at (tile_matrix g) (Z.to_nat nr) (Z.to_nat nc)) = true ->
  visited_at v (Z.to_nat nr) (Z.to_nat nc) = true.

(** The tiles of a column, bottom first, the empty cells left out. *)
Definition column_tiles (m : Matrix) (col : nat) : list Tile :=
  omap id (column m col).

(** ** Tetris_2048_.py *)

(** The hard drop of the main loop, [while cur.move("down", grid): pass];
    [None] when the fuel runs out. *)
Fixpoint hard_drop (fuel gw : nat) (p : Tetromino.t) (g : GameGrid)
  : option Tetromino.t :=
  match fuel with
  | O => None
  | S fuel' =>
    let '(p', moved) := Tetromino.move gw p dir_down g in
    if moved then hard_drop fuel' gw p' g else Some p'
  end.

(** The landing step of the main loop:
    [tiles, pos = cur.get_min_bounded_tile_matrix(True)] and
    [over = grid.update_grid(tiles, pos)]. *)
Definition land (fuel : nat) (p : Tetromino.t) (g : GameGrid)
  : option (GameGrid * bool) :=
  match Tetromino.get_min_bounded_tile_matrix p with
  | Some (tiles, pos) => update_grid fuel tiles pos g
  | None => None
  end.

(** ** The active piece on the board *)

(** The piece one cell further in a direction. *)
Definition shifted (p : Tetromino.t) (d : Direction) : Tetromino.t :=
  let b := Tetromino.bottom_left_cell p in
  Tetromino.mk (Tetromino.type p) (Tetromino.tile_matrix p)
    match d with
    | dir_left => mkPoint (x b - 1) (y b)
    | dir_right => mkPoint (x b + 1) (y b)
    | dir_down => mkPoint (x b) (y b - 1)
    end.

(** Every tile of the piece lies between the walls of a board of [gw]
    columns, not below the floor, and not on a tile of the grid.  A piece
    may stick out above the board, as it does when it is created. *)
Definition piece_fits (gw : nat) (p : Tetromino.t) (g : GameGrid) : Prop :=
  forall r c,
    is_some (tile_at (Tetromino.tile_matrix p) r c) = true ->
    let pos := Tetromino.get_cell_position p r c in
    (0 <= x pos < Z.of_nat gw)%Z /\ (0 <= y pos)%Z
    /\ is_occupied g (y pos) (x pos) = false.

(** Between two tiles of a row there is no empty cell. *)
Definition rows_contiguous (m : Matrix) : Prop :=
  forall r c1 c c2,
    c1 <= c <= c2 ->
    is_some (tile_at m r c1) = true -> is_some (tile_at m r c2) = true ->
    is_some (tile_at m r c) = true.

(** Between two tiles of a column there is no empty cell. *)
Definition cols_contiguous (m : Matrix) : Prop :=
  forall c r1 r r2,
    r1 <= r <= r2 ->
    is_some (tile_at m r1 c) = true -> is_some (tile_at m r2 c) = true ->
    is_some (tile_at m r c) = true.

(** A square matrix without gaps inside a row or a column. *)
Definition well_shaped (m : Matrix) : Prop :=
  matrix_dims (length m) (length m) m /\ rows_contiguous m /\ cols_contiguous m.

Fixpoint all_empty (l : list (option Tile)) : bool :=
  match l with
  | [] => true
  | o :: l' => negb (is_some o) && all_empty l'
  end.

Fixpoint run_then_empty (l : list (option Tile)) : bool :=
  match l with
  | [] => true
  | Some _ :: l' => run_then_empty l'
  | None :: l' => all_empty l'
  end.

(** The tiles of the list form one run. *)
Fixpoint contiguous (l : list (option Tile)) : bool :=
  match l with
  | [] => true
  | None :: l' => contiguous l'
  | Some _ :: l' => run_then_empty l'
  end.

(** A call that acts on the active piece. *)
Definition piece_call (c : Call) : Prop :=
  match c with
  | call_update_grid _ _ => False
  | _ => True
  end.

(** A square matrix without gaps, as a test. *)
Definition well_shapedb (m : Matrix) : bool :=
  forallb (fun r : list (option Tile) => length r =? length m) m
  && forallb contiguous m
  && forallb (fun c => contiguous (column m c)) (seq 0 (length m)).

(** ** Tile values *)

(** The number of the cell's tile, when there is one, satisfies [P]. *)
Definition cell_sat (P : Z -> Prop) (o : option Tile) : Prop :=
  match o with Some t => P (number t) | None => True end.

Definition tiles_sat (P : Z -> Prop) (m : Matrix) : Prop :=
  Forall (Forall (cell_sat P)) m.

(** A power of two from 2 on. *)
Definition power_of_two (v : Z) : Prop := exists k : nat, v = (2 ^ (Z.of_nat k + 1))%Z.

(** ** tile.py: the colours *)

Record Color := mkColor { red : Z; green : Z; blue : Z }.

(** The dict [color_map] of [Tile.set_colors]. *)
Definition color_map : gmap Z Color :=
  list_to_map
    [(2, mkColor 240 235 225); (4, mkColor 235 225 210); (8, mkColor 230 200 170);
     (16, mkColor 225 180 140); (32, mkColor 220 160 110); (64, mkColor 215 140 90);
     (128, mkColor 210 120 70); (256, mkColor 205 100 50); (512, mkColor 200 80 30);
     (1024, mkColor 190 60 20); (2048, mkColor 175 45 5)]%Z.

(** [Tile.set_colors]: the background, text and outline colours the method
    stores for a tile of the given number. *)
Definition set_colors (number : Z) : Color * Color * Color :=
  (default (mkColor 100 100 100) (color_map !! number),
   if (number <=? 4)%Z then mkColor 60 60 60 else mkColor 255 255 255,
   mkColor 0 0 0).

(** ** Tetris_2048_.py: the high-score list *)

(** [list.sort(key=..., reverse=True)] of the Python library is a stable
    sort into descending keys; a stable sort has one result, which
    insertion from the right computes. *)
Fixpoint insert_desc {A} (key : A -> Z) (e : A) (l : list A) : list A :=
  match l with
  | [] => [e]
  | y :: l' =>
    if (key y <=? key e)%Z then e :: y :: l' else y :: insert_desc key e l'
  end.

Definition sort_desc {A} (key : A -> Z) (l : list A) : list A :=
  foldr (insert_desc key) [] l.

(** [qualifies_top]; an entry of [high_scores] is its name and its score. *)
Definition qualifies_top {Name} (high_scores : list (Name * Z)) (score : Z) : bool :=
  (length high_scores <? 5)
  || match last high_scores with
     | Some e => (snd e <? score)%Z
     | None => false
     end.

(** [try_add_score]: the list after the call and the value returned.
    [input] is what [get_name_input] returns when it is called, [clean] the
    step [name.strip() or "Anonim"]; writing the file is left out. *)
Definition try_add_score {Name} (clean : Name -> Name) (score : Z)
    (input : option Name) (high_scores : list (Name * Z))
  : list (Name * Z) * bool :=
  if negb (qualifies_top high_scores score) then (high_scores, false)
  else
    match input with
    | None => (high_scores, false)
    | Some name =>
      let sorted := sort_desc snd (high_scores ++ [(clean name, score)]) in
      (if 5 <? length sorted then removelast sorted else sorted, true)
    end.

(** Keys in descending order. *)
Fixpoint sorted_desc {A} (key : A -> Z) (l : list A) : Prop :=
  match l with
  | [] => True
  | a :: l' => Forall (fun b => key b <= key a)%Z l' /\ sorted_desc key l'
  end.

(** * Properties *)

(** ** Cells, rows and columns *)

(** A matrix written out in full has the dimensions it shows. *)
Ltac concrete_dims := split; [reflexivity|repeat constructor].

Lemma tile_at_column m r c :
  tile_at m r c = match column m c !! r with Some t => t | None => None end.
Proof.
  unfold tile_at, column. rewrite list_lookup_fmap.
  destruct (m !! r); simpl; reflexivity.
Qed.

Lemma length_column m c : length (column m c) = length m.
Proof. apply length_fmap. Qed.

Lemma matrix_dims_row {A} h w (m : list (list A)) r row :
  matrix_dims h w m -> m !! r = Some row -> length row = w.
Proof.
  intros [_ Hall] Hr. rewrite Forall_lookup in Hall. eapply Hall; eauto.
Qed.

Lemma set_tile_dims h w m r c v :
  matrix_dims h w m -> matrix_dims h w (set_tile m r c v).
Proof.
  intros [Hlen Hall]. split.
  - unfold set_tile. rewrite length_alter. exact Hlen.
  - unfold set_tile. apply Forall_alter; [exact Hall|].
    intros row _ Hrow. rewrite length_insert. exact Hrow.
Qed.

Lemma column_set_tile_eq h w m r c v :
  matrix_dims h w m -> c < w ->
  column (set_tile m r c v) c = <[r := v]> (column m c).
Proof.
  intros Hd Hc. apply list_eq. intros i.
  unfold column, set_tile. rewrite list_lookup_fmap.
  destruct (decide (r = i)) as [->|Hne].
  - rewrite list_lookup_alter_eq.
    destruct (m !! i) as [row|] eqn:Hrow; simpl.
    + rewrite list_lookup_insert_eq.
      * unfold cell_of_row. rewrite list_lookup_insert_eq; [reflexivity|].
        erewrite matrix_dims_row; eauto.
      * rewrite length_fmap. apply lookup_lt_is_Some. eauto.
    + rewrite list_insert_ge.
      * rewrite list_lookup_fmap, Hrow. reflexivity.
      * rewrite length_fmap. apply lookup_ge_None. exact Hrow.
  - rewrite list_lookup_alter_ne by exact Hne.
    rewrite list_lookup_insert_ne by exact Hne.
    rewrite list_lookup_fmap. reflexivity.
Qed.

Lemma column_set_tile_ne m r c c' v :
  c <> c' -> column (set_tile m r c v) c' = column m c'.
Proof.
  intros Hne. apply list_eq. intros i.
  unfold column, set_tile. rewrite !list_lookup_fmap.
  destruct (decide (r = i)) as [->|Hri].
  - rewrite list_lookup_alter_eq. destruct (m !! i) as [row|]; simpl; [|reflexivity].
    unfold cell_of_row. rewrite list_lookup_insert_ne by exact Hne. reflexivity.
  - rewrite list_lookup_alter_ne by exact Hri. reflexivity.
Qed.

(** A matrix of known dimensions is determined by its columns. *)
Lemma matrix_eq_columns h w m m' :
  matrix_dims h w m -> matrix_dims h w m' ->
  (forall c, c < w -> column m c = column m' c) -> m = m'.
Proof.
  intros Hd Hd' Hcol. apply list_eq. intros r.
  destruct (m !! r) as [row|] eqn:Hr.
  - destruct (m' !! r) as [row'|] eqn:Hr'.
    + f_equal. apply list_eq. intros c.
      pose proof (matrix_dims_row _ _ _ _ _ Hd Hr) as Hl.
      pose proof (matrix_dims_row _ _ _ _ _ Hd' Hr') as Hl'.
      destruct (decide (c < w)) as [Hc|Hc].
      * specialize (Hcol c Hc).
        assert (column m c !! r = column m' c !! r) as E by (rewrite Hcol; reflexivity).
        unfold column in E. rewrite !list_lookup_fmap, Hr, Hr' in E. simpl in E.
        unfold cell_of_row in E.
        destruct (lookup_lt_is_Some_2 row c ltac:(lia)) as [a Ha].
        destruct (lookup_lt_is_Some_2 row' c ltac:(lia)) as [b Hb].
        rewrite Ha, Hb in E. rewrite Ha, Hb. congruence.
      * rewrite !lookup_ge_None_2 by lia. reflexivity.
    + apply lookup_ge_None in Hr'. apply lookup_lt_Some in Hr.
      destruct Hd, Hd'. lia.
  - destruct (m' !! r) as [row'|] eqn:Hr'; [|reflexivity].
    apply lookup_ge_None in Hr. apply lookup_lt_Some in Hr'.
    destruct Hd, Hd'. lia.
Qed.

Lemma sum_list_with_insert {A} (f : A -> nat) l i old new :
  l !! i = Some old ->
  sum_list_with f (<[i := new]> l) + f old = sum_list_with f l + f new.
Proof.
  intros Hi.
  rewrite insert_take_drop by (eapply lookup_lt_Some; eauto).
  rewrite <- (take_drop_middle l i old Hi) at 3.
  rewrite !sum_list_with_app. simpl. lia.
Qed.

Lemma count_occupied_set_tile h w m r c v :
  matrix_dims h w m -> r < h -> c < w ->
  count_occupied (set_tile m r c v) + count_cell (tile_at m r c)
  = count_occupied m + count_cell v.
Proof.
  intros Hd Hr Hc. pose proof Hd as [Hlen Hall].
  destruct (lookup_lt_is_Some_2 m r ltac:(lia)) as [row Hrow].
  pose proof (matrix_dims_row _ _ _ _ _ Hd Hrow) as Hl.
  destruct (lookup_lt_is_Some_2 row c ltac:(lia)) as [old Hold].
  unfold tile_at. rewrite Hrow, Hold.
  unfold count_occupied, set_tile.
  assert (alter (fun r0 => <[c:=v]> r0) r m = <[r := <[c:=v]> row]> m) as ->.
  { apply list_eq. intros i. destruct (decide (r = i)) as [->|Hne].
    - rewrite list_lookup_alter_eq, Hrow. simpl.
      rewrite list_lookup_insert_eq by lia. reflexivity.
    - rewrite list_lookup_alter_ne, list_lookup_insert_ne by exact Hne. reflexivity. }
  pose proof (sum_list_with_insert count_row m r row (<[c:=v]> row) Hrow) as E1.
  pose proof (sum_list_with_insert count_cell row c old v Hold) as E2.
  unfold count_row in *. lia.
Qed.

(** ** The bottom-up merge pass *)

Lemma lookup_split_head {A} (pre suf : list A) :
  (pre ++ suf) !! length pre = suf !! 0.
Proof.
  rewrite lookup_app_r by lia. replace (length pre - length pre) with 0 by lia.
  reflexivity.
Qed.

Lemma lookup_split_next {A} (pre suf : list A) :
  (pre ++ suf) !! (length pre + 1) = suf !! 1.
Proof.
  rewrite lookup_app_r by lia.
  replace (length pre + 1 - length pre) with 1 by lia. reflexivity.
Qed.

Lemma insert_split_head {A} (pre : list A) a suf v :
  <[length pre := v]> (pre ++ a :: suf) = pre ++ v :: suf.
Proof.
  rewrite insert_app_r_alt by lia.
  replace (length pre - length pre) with 0 by lia. reflexivity.
Qed.

(** The loop over one column, started at row [length pre] on a column
    [pre ++ suf], rewrites [suf] as the specification says. *)
Lemma merge_column_from_spec col fuel :
  forall g merged pre suf,
    grid_wf g -> col < grid_width g ->
    column (tile_matrix g) col = pre ++ suf ->
    length suf <= fuel + 1 ->
    exists m',
      merge_column_from fuel (length pre) col g merged
      = (mkGrid (grid_height g) (grid_width g) m' (game_over g)
                (score g + sum_Z (column_merges suf)),
         merged || nonempty (column_merges suf))
      /\ matrix_dims (grid_height g) (grid_width g) m'
      /\ column m' col = pre ++ merged_column suf
      /\ (forall c', c' <> col -> column m' c' = column (tile_matrix g) c')
      /\ count_occupied m' + length (column_merges suf)
         = count_occupied (tile_matrix g).
Proof.
  induction fuel as [|fuel IH]; intros g merged pre suf Hwf Hcol Hsplit Hfuel.
  - exists (tile_matrix g). simpl.
    assert (column_merges suf = [] /\ merged_column suf = suf) as [-> ->].
    { destruct suf as [|a [|b rest]]; simpl in *; [auto|destruct a; auto|lia]. }
    simpl. rewrite Z.add_0_r, orb_false_r. destruct g; simpl.
    repeat split; auto; apply Hwf.
  - pose proof Hwf as [Hlen _].
    assert (Hh : grid_height g = length pre + length suf).
    { rewrite <- Hlen, <- (length_column _ col), Hsplit, length_app. reflexivity. }
    simpl merge_column_from.
    destruct suf as [|a [|b rest]].
    + exists (tile_matrix g).
      replace (length pre <? grid_height g - 1) with false
        by (symmetry; apply Nat.ltb_ge; simpl in Hh; lia).
      simpl. rewrite Z.add_0_r, orb_false_r. destruct g; simpl.
      repeat split; auto; apply Hwf.
    + exists (tile_matrix g).
      replace (length pre <? grid_height g - 1) with false
        by (symmetry; apply Nat.ltb_ge; simpl in Hh; lia).
      assert (column_merges [a] = [] /\ merged_column [a] = [a]) as [-> ->]
        by (destruct a; auto).
      simpl. rewrite Z.add_0_r, orb_false_r. destruct g; simpl.
      repeat split; auto; apply Hwf.
    + replace (length pre <? grid_height g - 1) with true
        by (symmetry; apply Nat.ltb_lt; simpl in Hh; lia).
      rewrite !tile_at_column, Hsplit, lookup_split_head, lookup_split_next.
      simpl lookup.
      assert (Hstep : forall merged0,
        exists m',
          merge_column_from fuel (length pre + 1) col g merged0
          = (mkGrid (grid_height g) (grid_width g) m' (game_over g)
                    (score g + sum_Z (column_merges (b :: rest))),
             merged0 || nonempty (column_merges (b :: rest)))
          /\ matrix_dims (grid_height g) (grid_width g) m'
          /\ column m' col = (pre ++ [a]) ++ merged_column (b :: rest)
          /\ (forall c', c' <> col -> column m' c' = column (tile_matrix g) c')
          /\ count_occupied m' + length (column_merges (b :: rest))
             = count_occupied (tile_matrix g)).
      { intros merged0.
        replace (length pre + 1) with (length (pre ++ [a]))
          by (rewrite length_app; reflexivity).
        apply IH; auto.
        - rewrite Hsplit, <- app_assoc. reflexivity.
        - simpl in *. lia. }
      destruct a as [a|]; [destruct b as [b|]|].
      * destruct (number a =? number b)%Z eqn:Heq.
        -- set (a' := merge_with a b).
           set (m1 := set_tile (tile_matrix g) (length pre) col (Some a')).
           set (m2 := set_tile m1 (length pre + 1) col None).
           set (g' := with_score (with_matrix g m2) (score g + number a')).
           assert (Ha' : a' = mkTile (number a * 2))
             by (unfold a', merge_with; rewrite Heq; reflexivity).
           assert (Hd1 : matrix_dims (grid_height g) (grid_width g) m1)
             by (apply set_tile_dims, Hwf).
           assert (Hd2 : matrix_dims (grid_height g) (grid_width g) m2)
             by (apply set_tile_dims, Hd1).
           assert (Hc1 : column m1 col = pre ++ Some a' :: Some b :: rest).
           { unfold m1. erewrite column_set_tile_eq by (try apply Hwf; auto).
             rewrite Hsplit. apply insert_split_head. }
           assert (Hc2 : column m2 col = (pre ++ [Some a'; None]) ++ rest).
           { unfold m2. erewrite column_set_tile_eq by (try apply Hd1; auto).
             rewrite Hc1.
             replace (pre ++ Some a' :: Some b :: rest)
               with ((pre ++ [Some a']) ++ Some b :: rest)
               by (rewrite <- app_assoc; reflexivity).
             replace (length pre + 1) with (length (pre ++ [Some a']))
               by (rewrite length_app; reflexivity).
             rewrite insert_split_head, <- !app_assoc. reflexivity. }
           destruct (IH g' true (pre ++ [Some a'; None]) rest) as (m' & E & Hd & Hc & Ho & Hn).
           { exact Hd2. }
           { exact Hcol. }
           { exact Hc2. }
           { simpl in *. lia. }
           exists m'.
           replace (length pre + 1 + 1) with (length (pre ++ [Some a'; None]))
             by (rewrite length_app; simpl; lia).
           rewrite E. simpl. rewrite Heq. simpl.
           split; [|split; [|split; [|split]]].
           ++ f_equal; [|rewrite orb_true_r; reflexivity].
              f_equal. rewrite Ha'. simpl. lia.
           ++ exact Hd.
           ++ rewrite Hc, <- app_assoc, Ha'. reflexivity.
           ++ intros c' Hc'. rewrite (Ho c' Hc'). simpl. unfold m2, m1.
              rewrite !column_set_tile_ne by auto. reflexivity.
           ++ simpl in Hn.
              assert (Hr0 : length pre < grid_height g) by (simpl in Hh; lia).
              assert (Hr1 : length pre + 1 < grid_height g) by (simpl in Hh; lia).
              pose proof (count_occupied_set_tile _ _ (tile_matrix g) (length pre) col
                            (Some a') Hwf Hr0 Hcol) as E1.
              pose proof (count_occupied_set_tile _ _ m1 (length pre + 1) col
                            None Hd1 Hr1 Hcol) as E2.
              fold m1 in E1. fold m2 in E2.
              rewrite tile_at_column, Hsplit, lookup_split_head in E1.
              rewrite tile_at_column, Hc1, lookup_split_next in E2.
              cbn in E1, E2. lia.
        -- destruct (Hstep merged) as (m' & E & Hd & Hc & Ho & Hn).
           exists m'. rewrite E. simpl. rewrite Heq.
           rewrite <- app_assoc in Hc. auto.
      * destruct (Hstep merged) as (m' & E & Hd & Hc & Ho & Hn).
        exists m'. rewrite E. rewrite <- app_assoc in Hc. auto.
      * destruct (Hstep merged) as (m' & E & Hd & Hc & Ho & Hn).
        exists m'. rewrite <- app_assoc in Hc.
        destruct b; rewrite E; auto.
Qed.

Lemma sum_Z_app l1 l2 : sum_Z (l1 ++ l2) = (sum_Z l1 + sum_Z l2)%Z.
Proof. induction l1 as [|a l1 IH]; simpl; [reflexivity|]. rewrite IH. lia. Qed.

Lemma nonempty_app {A} (l1 l2 : list A) :
  nonempty (l1 ++ l2) = nonempty l1 || nonempty l2.
Proof. destruct l1; reflexivity. Qed.

Lemma pass_merges_ext m m' columns :
  (forall c, c ∈ columns -> column m' c = column m c) ->
  pass_merges m' columns = pass_merges m columns.
Proof.
  induction columns as [|c cs IH]; intros Hext; simpl; [reflexivity|].
  rewrite Hext by (apply elem_of_cons; auto).
  rewrite IH; [reflexivity|]. intros c' Hc'. apply Hext, elem_of_cons. auto.
Qed.

Lemma merge_column_spec col g merged :
  grid_wf g -> col < grid_width g ->
  exists m',
    merge_column col (g, merged)
    = (mkGrid (grid_height g) (grid_width g) m' (game_over g)
              (score g + sum_Z (column_merges (column (tile_matrix g) col))),
       merged || nonempty (column_merges (column (tile_matrix g) col)))
    /\ matrix_dims (grid_height g) (grid_width g) m'
    /\ column m' col = merged_column (column (tile_matrix g) col)
    /\ (forall c', c' <> col -> column m' c' = column (tile_matrix g) c')
    /\ count_occupied m' + length (column_merges (column (tile_matrix g) col))
       = count_occupied (tile_matrix g).
Proof.
  intros Hwf Hcol. unfold merge_column. simpl fst. simpl snd.
  apply (merge_column_from_spec col (grid_height g) g merged []); auto.
  rewrite length_column. destruct Hwf as [-> _]. lia.
Qed.

Lemma chain_fold_spec columns :
  forall g merged,
    grid_wf g -> NoDup columns ->
    (forall c, c ∈ columns -> c < grid_width g) ->
    exists m',
      fold_left (fun st col => merge_column col st) columns (g, merged)
      = (mkGrid (grid_height g) (grid_width g) m' (game_over g)
                (score g + sum_Z (pass_merges (tile_matrix g) columns)),
         merged || nonempty (pass_merges (tile_matrix g) columns))
      /\ matrix_dims (grid_height g) (grid_width g) m'
      /\ (forall c, c ∈ columns ->
            column m' c = merged_column (column (tile_matrix g) c))
      /\ (forall c, c ∉ columns -> column m' c = column (tile_matrix g) c)
      /\ count_occupied m' + length (pass_merges (tile_matrix g) columns)
         = count_occupied (tile_matrix g).
Proof.
  induction columns as [|c cs IH]; intros g merged Hwf Hnd Hin.
  - exists (tile_matrix g). simpl. rewrite Z.add_0_r, orb_false_r.
    destruct g; simpl. split; [reflexivity|]. split; [apply Hwf|].
    split; [intros c Hc; inversion Hc|]. split; [reflexivity|lia].
  - apply NoDup_cons in Hnd as [Hc Hnd].
    destruct (merge_column_spec c g merged Hwf) as (m1 & E1 & Hd1 & Hc1 & Ho1 & Hn1).
    { apply Hin, elem_of_cons. auto. }
    simpl fold_left. rewrite E1.
    set (g1 := mkGrid _ _ m1 _ _).
    destruct (IH g1 (merged || nonempty (column_merges (column (tile_matrix g) c))))
      as (m' & E & Hd & Hcs & Ho & Hn).
    { exact Hd1. }
    { exact Hnd. }
    { intros c' Hc'. apply Hin, elem_of_cons. auto. }
    assert (Hext : pass_merges m1 cs = pass_merges (tile_matrix g) cs).
    { apply pass_merges_ext. intros c' Hc'. apply Ho1. intros ->. auto. }
    exists m'. rewrite E. simpl in *. rewrite Hext in *.
    split; [|split; [|split; [|split]]].
    + rewrite sum_Z_app, nonempty_app, orb_assoc. f_equal. f_equal. lia.
    + exact Hd.
    + intros c' Hc'. apply elem_of_cons in Hc' as [->|Hc'].
      * rewrite (Ho c Hc). exact Hc1.
      * rewrite (Hcs c' Hc'). f_equal. apply Ho1. intros ->. auto.
    + intros c' Hc'. apply not_elem_of_cons in Hc' as [Hne Hc'].
      rewrite (Ho c' Hc'). apply Ho1. exact Hne.
    + rewrite length_app. lia.
Qed.

Lemma merged_column_empty k :
  merged_column (replicate k None) = replicate k None.
Proof. induction k as [|k IH]; simpl; [reflexivity|]. rewrite IH. reflexivity. Qed.

Lemma column_merges_empty k : column_merges (replicate k None) = [].
Proof. induction k as [|k IH]; simpl; auto. Qed.

Lemma merged_column_single t k :
  merged_column (Some t :: replicate k None) = Some t :: replicate k None.
Proof.
  destruct k as [|k]; simpl; [reflexivity|].
  f_equal. f_equal. apply merged_column_empty.
Qed.

Lemma column_merges_single t k : column_merges (Some t :: replicate k None) = [].
Proof. destruct k as [|k]; simpl; [reflexivity|]. apply column_merges_empty. Qed.

Lemma scan_merge a b rest :
  number a = number b ->
  merged_column (Some a :: Some b :: rest)
  = Some (mkTile (number a * 2)) :: None :: merged_column rest
  /\ column_merges (Some a :: Some b :: rest)
     = (number a * 2)%Z :: column_merges rest.
Proof. intros Hab. apply Z.eqb_eq in Hab. simpl. rewrite Hab. auto. Qed.

Lemma scan_advance a b rest :
  number a <> number b ->
  merged_column (Some a :: Some b :: rest) = Some a :: merged_column (Some b :: rest)
  /\ column_merges (Some a :: Some b :: rest) = column_merges (Some b :: rest).
Proof. intros Hab. apply Z.eqb_neq in Hab. simpl. rewrite Hab. auto. Qed.

(** One turn of the loop over a column, at a pair of equal tiles and at
    any other pair. *)
Lemma merge_column_from_merge g fuel row col merged a b :
  row + 1 < grid_height g ->
  tile_at (tile_matrix g) row col = Some a ->
  tile_at (tile_matrix g) (row + 1) col = Some b ->
  number a = number b ->
  merge_column_from (S fuel) row col g merged
  = merge_column_from fuel (row + 2) col
      (mkGrid (grid_height g) (grid_width g)
              (set_tile (set_tile (tile_matrix g) row col
                                  (Some (mkTile (number a * 2))))
                        (row + 1) col None)
              (game_over g) (score g + number a * 2)) true.
Proof.
  intros Hrow Ha Hb Hab. simpl.
  replace (row <? grid_height g - 1) with true by (symmetry; apply Nat.ltb_lt; lia).
  rewrite Ha, Hb. unfold merge_with. apply Z.eqb_eq in Hab. rewrite Hab.
  replace (row + 1 + 1) with (row + 2) by lia. reflexivity.
Qed.

Lemma merge_column_from_advance g fuel row col merged :
  row + 1 < grid_height g ->
  ~ adjacent_equal_at (tile_matrix g) col row ->
  merge_column_from (S fuel) row col g merged
  = merge_column_from fuel (row + 1) col g merged.
Proof.
  intros Hrow Hno. simpl.
  replace (row <? grid_height g - 1) with true by (symmetry; apply Nat.ltb_lt; lia).
  destruct (tile_at (tile_matrix g) row col) as [a|] eqn:Ha; [|reflexivity].
  destruct (tile_at (tile_matrix g) (row + 1) col) as [b|] eqn:Hb; [|reflexivity].
  destruct (Z.eqb_spec (number a) (number b)) as [Hab|Hab]; [|reflexivity].
  exfalso. apply Hno. exists a, b. auto.
Qed.

(** C1.  On a grid of the declared dimensions and a duplicate-free set of
    columns inside it, [chain_bottom_up_merge] rewrites every affected
    column as one bottom-to-top scan does: two stacked tiles of equal
    value at rows [r] and [r+1] become the doubled tile at row [r] under an
    empty cell, the doubled value is added to the score and the scan goes
    on at row [r+2]; any other pair lets the scan go on at row [r+1].
    Columns outside the set are untouched.  A column of three equal tiles
    under empty cells undergoes exactly one merge, of its bottom pair, and
    the value returned is true exactly when some merge happened. *)
Theorem chain_bottom_up_merge_scan g columns :
  grid_wf g -> NoDup columns ->
  (forall c, c ∈ columns -> c < grid_width g) ->
  exists m',
    chain_bottom_up_merge columns g
    = (mkGrid (grid_height g) (grid_width g) m' (game_over g)
              (score g + sum_Z (pass_merges (tile_matrix g) columns)),
       nonempty (pass_merges (tile_matrix g) columns))
    /\ matrix_dims (grid_height g) (grid_width g) m'
    /\ (forall c, c ∈ columns ->
          column m' c = merged_column (column (tile_matrix g) c))
    /\ (forall c, c ∉ columns -> column m' c = column (tile_matrix g) c)
    /\ (forall fuel row col merged a b,
          row + 1 < grid_height g ->
          tile_at (tile_matrix g) row col = Some a ->
          tile_at (tile_matrix g) (row + 1) col = Some b ->
          number a = number b ->
          merge_column_from (S fuel) row col g merged
          = merge_column_from fuel (row + 2) col
              (mkGrid (grid_height g) (grid_width g)
                      (set_tile (set_tile (tile_matrix g) row col
                                          (Some (mkTile (number a * 2))))
                                (row + 1) col None)
                      (game_over g) (score g + number a * 2)) true)
    /\ (forall fuel row col merged,
          row + 1 < grid_height g ->
          ~ adjacent_equal_at (tile_matrix g) col row ->
          merge_column_from (S fuel) row col g merged
          = merge_column_from fuel (row + 1) col g merged)
    /\ (forall a b rest, number a = number b ->
          merged_column (Some a :: Some b :: rest)
          = Some (mkTile (number a * 2)) :: None :: merged_column rest
          /\ column_merges (Some a :: Some b :: rest)
             = (number a * 2)%Z :: column_merges rest)
    /\ (forall a b rest, number a <> number b ->
          merged_column (Some a :: Some b :: rest)
          = Some a :: merged_column (Some b :: rest)
          /\ column_merges (Some a :: Some b :: rest)
             = column_merges (Some b :: rest))
    /\ (forall o rest,
          merged_column (None :: rest) = None :: merged_column rest
          /\ column_merges (None :: rest) = column_merges rest
          /\ merged_column (o :: None :: rest) = o :: None :: merged_column rest
          /\ column_merges (o :: None :: rest) = column_merges rest)
    /\ (forall c t k, c ∈ columns ->
          column (tile_matrix g) c = [Some t; Some t; Some t] ++ replicate k None ->
          column m' c
          = [Some (mkTile (number t * 2)); None; Some t] ++ replicate k None
          /\ column_merges (column (tile_matrix g) c) = [(number t * 2)%Z]).
Proof.
  intros Hwf Hnd Hin.
  destruct (chain_fold_spec columns g false Hwf Hnd Hin) as (m' & E & Hd & Hcs & Ho & Hn).
  exists m'. unfold chain_bottom_up_merge. rewrite E. simpl.
  repeat match goal with |- _ /\ _ => split end; auto.
  - intros fuel row col merged a b Hrow Ha Hb Hab.
    exact (merge_column_from_merge g fuel row col merged a b Hrow Ha Hb Hab).
  - intros fuel row col merged Hrow Hno.
    exact (merge_column_from_advance g fuel row col merged Hrow Hno).
  - intros a b rest Hab. apply scan_merge, Hab.
  - intros a b rest Hab. apply scan_advance, Hab.
  - intros o rest. destruct o; simpl; auto.
  - intros c t k Hc Hcol. rewrite (Hcs c Hc), Hcol.
    change ([Some t; Some t; Some t] ++ replicate k None)
      with (Some t :: Some t :: Some t :: replicate k None).
    destruct (scan_merge t t (Some t :: replicate k None) eq_refl) as [-> ->].
    rewrite merged_column_single, column_merges_single. auto.
Qed.

Lemma chain_bottom_up_merge_scan_witness :
  let g := mkGrid 3 1 [[Some (mkTile 2)]; [Some (mkTile 2)]; [Some (mkTile 2)]]
                  false 0 in
  grid_wf g /\ NoDup [0] /\ (forall c, c ∈ [0] -> c < grid_width g)
  /\ exists m',
       chain_bottom_up_merge [0] g = (mkGrid 3 1 m' false 4, true)
       /\ column m' 0 = [Some (mkTile 4); None; Some (mkTile 2)].
Proof.
  intros g.
  assert (Hwf : grid_wf g) by concrete_dims.
  assert (Hnd : NoDup [0]) by apply NoDup_singleton.
  assert (Hin : forall c, c ∈ [0] -> c < grid_width g).
  { intros c Hc. apply list_elem_of_singleton in Hc. subst c. simpl. lia. }
  split; [exact Hwf|]. split; [exact Hnd|]. split; [exact Hin|].
  destruct (chain_bottom_up_merge_scan g [0] Hwf Hnd Hin) as (m' & E & _ & Hcs & _).
  exists m'. split.
  - rewrite E. reflexivity.
  - rewrite (Hcs 0) by (apply list_elem_of_singleton; reflexivity). reflexivity.
Defined.

(** The order in which the [for] loop meets the columns of the set does
    not matter. *)
Lemma pass_merges_Permutation m cs cs' :
  cs ≡ₚ cs' -> pass_merges m cs ≡ₚ pass_merges m cs'.
Proof.
  induction 1 as [|c cs cs' _ IH|c1 c2 cs|cs1 cs2 cs3 _ IH1 _ IH2]; simpl.
  - reflexivity.
  - rewrite IH. reflexivity.
  - rewrite !app_assoc.
    rewrite (Permutation_app_comm (column_merges (column m c2))). reflexivity.
  - etransitivity; eauto.
Qed.

Lemma sum_Z_Permutation l l' : l ≡ₚ l' -> sum_Z l = sum_Z l'.
Proof.
  induction 1 as [|a l l' _ IH|a b l|l1 l2 l3 _ IH1 _ IH2]; simpl; try lia.
Qed.

Lemma nonempty_Permutation {A} (l l' : list A) :
  l ≡ₚ l' -> nonempty l = nonempty l'.
Proof.
  intros H. apply Permutation_length in H.
  destruct l, l'; simpl in *; congruence.
Qed.

Lemma chain_bottom_up_merge_order g cs cs' :
  grid_wf g -> NoDup cs -> (forall c, c ∈ cs -> c < grid_width g) ->
  cs ≡ₚ cs' ->
  chain_bottom_up_merge cs' g = chain_bottom_up_merge cs g.
Proof.
  intros Hwf Hnd Hin Hp.
  assert (Hnd' : NoDup cs') by (rewrite <- Hp; exact Hnd).
  assert (Hin' : forall c, c ∈ cs' -> c < grid_width g).
  { intros c Hc. apply Hin. rewrite Hp. exact Hc. }
  destruct (chain_fold_spec cs g false Hwf Hnd Hin) as (m1 & E1 & Hd1 & Hc1 & Ho1 & _).
  destruct (chain_fold_spec cs' g false Hwf Hnd' Hin') as (m2 & E2 & Hd2 & Hc2 & Ho2 & _).
  unfold chain_bottom_up_merge. rewrite E1, E2.
  pose proof (pass_merges_Permutation (tile_matrix g) cs cs' Hp) as Hpm.
  rewrite (sum_Z_Permutation _ _ Hpm), (nonempty_Permutation _ _ Hpm).
  f_equal. f_equal.
  apply (matrix_eq_columns _ _ _ _ Hd2 Hd1). intros c _.
  destruct (decide (c ∈ cs)) as [Hc|Hc].
  - rewrite Hc1 by exact Hc. apply Hc2. rewrite <- Hp. exact Hc.
  - rewrite Ho1 by exact Hc. apply Ho2. rewrite <- Hp. exact Hc.
Qed.

(** ** What a pass leaves behind *)

Lemma tile_at_Some m r c a :
  tile_at m r c = Some a <-> column m c !! r = Some (Some a).
Proof.
  rewrite tile_at_column. destruct (column m c !! r) as [o|]; split; congruence.
Qed.

(** Induction along the scan. *)
Lemma scan_ind (P : list (option Tile) -> Prop) :
  P [] ->
  (forall rest, P rest -> P (None :: rest)) ->
  (forall a, P [Some a]) ->
  (forall a rest, P (None :: rest) -> P (Some a :: None :: rest)) ->
  (forall a b rest, number a = number b -> P rest -> P (Some a :: Some b :: rest)) ->
  (forall a b rest, number a <> number b -> P (Some b :: rest) ->
                    P (Some a :: Some b :: rest)) ->
  forall l, P l.
Proof.
  intros Hnil Hnone Hone Hsn Heq Hne l.
  assert (H : forall n l, length l <= n -> P l).
  { clear l. induction n as [|n IH]; intros l Hl.
    - destruct l; simpl in Hl; [exact Hnil|lia].
    - destruct l as [|[a|] l]; [exact Hnil| |apply Hnone, IH; simpl in Hl; lia].
      destruct l as [|[b|] l]; [apply Hone| |].
      + destruct (decide (number a = number b)) as [E|E].
        * apply Heq; [exact E|]. apply IH. simpl in Hl. lia.
        * apply Hne; [exact E|]. apply IH. simpl in Hl. simpl. lia.
      + apply Hsn. apply IH. simpl in Hl. simpl. lia. }
  apply (H (length l)). lia.
Qed.

(** Two equal tiles left on top of each other by a scan: the lower one was
    not touched, and the upper one is the product of a merge of this scan,
    of two tiles whose value differs from that of the lower one. *)
Lemma merged_column_pair l :
  forall r a b,
    merged_column l !! r = Some (Some a) ->
    merged_column l !! S r = Some (Some b) ->
    number a = number b ->
    l !! r = Some (Some a)
    /\ exists x y, l !! S r = Some (Some x) /\ l !! S (S r) = Some (Some y)
                   /\ number x = number y /\ number x <> number a
                   /\ b = mkTile (number x * 2).
Proof.
  induction l as [|rest IH|a0|a0 rest IH|a0 b0 rest E IH|a0 b0 rest E IH] using scan_ind;
    intros r a b Hr Hr1 Hab.
  - discriminate.
  - simpl in Hr, Hr1. destruct r as [|r]; [discriminate|].
    simpl. apply IH; assumption.
  - destruct r; discriminate.
  - change (merged_column (Some a0 :: None :: rest))
      with (Some a0 :: merged_column (None :: rest)) in Hr, Hr1.
    destruct r as [|r]; [discriminate|].
    simpl. apply IH; assumption.
  - destruct (scan_merge a0 b0 rest E) as [Em _]. rewrite Em in Hr, Hr1.
    destruct r as [|[|r]]; [discriminate|discriminate|].
    simpl. apply IH; assumption.
  - destruct (scan_advance a0 b0 rest E) as [Em _]. rewrite Em in Hr, Hr1.
    destruct r as [|r].
    + simpl in Hr. injection Hr as ->. split; [reflexivity|].
      change ((Some a :: merged_column (Some b0 :: rest)) !! 1)
        with (merged_column (Some b0 :: rest) !! 0) in Hr1.
      destruct rest as [|[y|] rest'].
      * simpl in Hr1. congruence.
      * destruct (decide (number b0 = number y)) as [E'|E'].
        -- destruct (scan_merge b0 y rest' E') as [Em' _]. rewrite Em' in Hr1.
           simpl in Hr1. exists b0, y. repeat split; congruence.
        -- destruct (scan_advance b0 y rest' E') as [Em' _]. rewrite Em' in Hr1.
           simpl in Hr1. congruence.
      * simpl in Hr1. congruence.
    + simpl. apply IH; assumption.
Qed.

(** A scan without a merge changes nothing, and there was nothing to merge. *)
Lemma column_merges_nil l :
  column_merges l = [] ->
  merged_column l = l
  /\ forall r a b, l !! r = Some (Some a) -> l !! S r = Some (Some b) ->
                   number a <> number b.
Proof.
  induction l as [|rest IH|a0|a0 rest IH|a0 b0 rest E IH|a0 b0 rest E IH] using scan_ind;
    intros Hm.
  - split; [reflexivity|]. intros r a b Hr. discriminate.
  - simpl in Hm. destruct (IH Hm) as [Hc Hp]. split.
    + simpl. rewrite Hc. reflexivity.
    + intros [|r] a b Hr Hr1; [discriminate|]. apply (Hp r); assumption.
  - split; [reflexivity|]. intros [|r] a b Hr Hr1; discriminate.
  - change (column_merges (Some a0 :: None :: rest))
      with (column_merges (None :: rest)) in Hm.
    destruct (IH Hm) as [Hc Hp]. split.
    + change (merged_column (Some a0 :: None :: rest))
        with (Some a0 :: merged_column (None :: rest)). rewrite Hc. reflexivity.
    + intros [|r] a b Hr Hr1; [discriminate|]. apply (Hp r); assumption.
  - destruct (scan_merge a0 b0 rest E) as [_ Ec]. rewrite Ec in Hm. discriminate.
  - destruct (scan_advance a0 b0 rest E) as [Em Ec]. rewrite Ec in Hm.
    destruct (IH Hm) as [Hc Hp]. split.
    + rewrite Em, Hc. reflexivity.
    + intros [|r] a b Hr Hr1.
      * simpl in Hr, Hr1. congruence.
      * apply (Hp r); assumption.
Qed.

Lemma pass_merges_nil m columns :
  pass_merges m columns = [] ->
  forall c, c ∈ columns -> column_merges (column m c) = [].
Proof.
  induction columns as [|c0 cs IH]; intros Hm c Hc; [inversion Hc|].
  simpl in Hm. apply app_eq_nil in Hm as [H0 Hs].
  apply elem_of_cons in Hc as [->|Hc]; auto.
Qed.

(** C4, as the code has it.  After one pass over a duplicate-free set of
    columns inside the grid, two stacked tiles of equal value can remain in
    an affected column only where the upper one has just been produced by a
    merge of this pass (of two tiles whose value differs from that of the
    lower tile) and the lower one was not touched; a pass that reports no
    merge leaves no such pair in the affected columns. *)
Theorem single_pass_remaining_pairs g columns :
  grid_wf g -> NoDup columns ->
  (forall c, c ∈ columns -> c < grid_width g) ->
  let m := tile_matrix g in
  let m' := tile_matrix (fst (chain_bottom_up_merge columns g)) in
  (forall c r a b,
      c ∈ columns ->
      tile_at m' r c = Some a -> tile_at m' (r + 1) c = Some b ->
      number a = number b ->
      tile_at m r c = Some a
      /\ exists x y, tile_at m (r + 1) c = Some x /\ tile_at m (r + 2) c = Some y
                     /\ number x = number y /\ number x <> number a
                     /\ b = mkTile (number x * 2))
  /\ (snd (chain_bottom_up_merge columns g) = false ->
      ~ merge_possible m' columns).
Proof.
  intros Hwf Hnd Hin m m'.
  destruct (chain_fold_spec columns g false Hwf Hnd Hin) as (m1 & E & Hd & Hcs & Ho & Hn).
  unfold m'. unfold chain_bottom_up_merge. rewrite E. simpl. clear m'.
  split.
  - intros c r a b Hc Hr Hr1 Hab.
    rewrite tile_at_Some, (Hcs c Hc) in Hr, Hr1.
    replace (r + 1) with (S r) in * by lia.
    destruct (merged_column_pair _ r a b Hr Hr1 Hab)
      as (H0 & x & y & Hx & Hy & Hxy & Hxa & Hb).
    split; [apply tile_at_Some; exact H0|].
    exists x, y. replace (r + 2) with (S (S r)) by lia.
    rewrite !tile_at_Some. auto.
  - intros Hfalse (c & r & Hc & a & b & Hr & Hr1 & Hab).
    destruct (pass_merges (tile_matrix g) columns) eqn:Hpm; [|discriminate].
    pose proof (pass_merges_nil _ _ Hpm c Hc) as Hnil.
    destruct (column_merges_nil _ Hnil) as [Hsame Hno].
    rewrite tile_at_Some, (Hcs c Hc), Hsame in Hr, Hr1.
    replace (r + 1) with (S r) in * by lia.
    exact (Hno r a b Hr Hr1 Hab).
Qed.

Lemma single_pass_remaining_pairs_witness :
  let g := mkGrid 3 1 [[Some (mkTile 4)]; [Some (mkTile 2)]; [Some (mkTile 2)]]
                  false 0 in
  grid_wf g /\ NoDup [0] /\ (forall c, c ∈ [0] -> c < grid_width g)
  /\ tile_at (tile_matrix g) 0 0 = Some (mkTile 4)
  /\ exists x y, tile_at (tile_matrix g) 1 0 = Some x
                 /\ tile_at (tile_matrix g) 2 0 = Some y
                 /\ number x = number y /\ number x <> 4%Z.
Proof.
  intros g.
  assert (Hwf : grid_wf g) by concrete_dims.
  assert (Hnd : NoDup [0]) by apply NoDup_singleton.
  assert (Hin : forall c, c ∈ [0] -> c < grid_width g).
  { intros c Hc. apply list_elem_of_singleton in Hc. subst c. simpl. lia. }
  split; [exact Hwf|]. split; [exact Hnd|]. split; [exact Hin|].
  destruct (single_pass_remaining_pairs g [0] Hwf Hnd Hin) as [Hpair _].
  destruct (Hpair 0 0 (mkTile 4) (mkTile 4)) as (H0 & x & y & Hx & Hy & Hxy & Hxa & _).
  - apply list_elem_of_singleton. reflexivity.
  - reflexivity.
  - reflexivity.
  - reflexivity.
  - split; [exact H0|]. exists x, y. auto.
Defined.

(** The claim as the specification words it fails on a column holding
    4, 2, 2 from the bottom: a merge is possible, and the pass leaves 4
    on 4. *)
Lemma single_pass_leaves_pair_counterexample :
  ~ (forall g columns,
        grid_wf g -> NoDup columns ->
        (forall c, c ∈ columns -> c < grid_width g) ->
        merge_possible (tile_matrix g) columns ->
        ~ merge_possible (tile_matrix (fst (chain_bottom_up_merge columns g)))
                         columns).
Proof.
  intros H.
  set (g := mkGrid 3 1 [[Some (mkTile 4)]; [Some (mkTile 2)]; [Some (mkTile 2)]]
                   false 0).
  apply (H g [0]).
  - concrete_dims.
  - apply NoDup_singleton.
  - intros c Hc. apply list_elem_of_singleton in Hc. subst c. simpl. lia.
  - exists 0, 1. split; [apply list_elem_of_singleton; reflexivity|].
    exists (mkTile 2), (mkTile 2). repeat split; reflexivity.
  - exists 0, 0. split; [apply list_elem_of_singleton; reflexivity|].
    exists (mkTile 4), (mkTile 4). repeat split; reflexivity.
Qed.

(** ** The gravity pass *)

Lemma sum_matrix_update {A} (f : A -> nat) (m : list (list A)) r c row old v :
  m !! r = Some row -> row !! c = Some old ->
  sum_list_with (sum_list_with f) (alter (fun r0 => <[c := v]> r0) r m) + f old
  = sum_list_with (sum_list_with f) m + f v.
Proof.
  intros Hrow Hold.
  assert (alter (fun r0 => <[c:=v]> r0) r m = <[r := <[c:=v]> row]> m) as ->.
  { apply list_eq. intros i. destruct (decide (r = i)) as [->|Hne].
    - rewrite list_lookup_alter_eq, Hrow. simpl.
      rewrite list_lookup_insert_eq by (eapply lookup_lt_Some; eauto). reflexivity.
    - rewrite list_lookup_alter_ne, list_lookup_insert_ne by exact Hne. reflexivity. }
  pose proof (sum_list_with_insert (sum_list_with f) m r row (<[c:=v]> row) Hrow) as E1.
  pose proof (sum_list_with_insert f row c old v Hold) as E2.
  lia.
Qed.

Lemma alter_insert_dims {A} h w (m : list (list A)) r c v :
  matrix_dims h w m -> matrix_dims h w (alter (fun r0 => <[c := v]> r0) r m).
Proof.
  intros [Hlen Hall]. split.
  - rewrite length_alter. exact Hlen.
  - apply Forall_alter; [exact Hall|].
    intros row _ Hrow. rewrite length_insert. exact Hrow.
Qed.

Lemma matrix_cell {A} h w (m : list (list A)) r c :
  matrix_dims h w m -> r < h -> c < w ->
  exists row x, m !! r = Some row /\ row !! c = Some x.
Proof.
  intros Hd Hr Hc. pose proof Hd as [Hlen Hall].
  destruct (lookup_lt_is_Some_2 m r ltac:(lia)) as [row Hrow].
  pose proof (matrix_dims_row _ _ _ _ _ Hd Hrow) as Hl.
  destruct (lookup_lt_is_Some_2 row c ltac:(lia)) as [x Hx].
  eauto.
Qed.

Lemma is_inside_bounds g row col :
  is_inside g row col = true ->
  Z.to_nat row < grid_height g /\ Z.to_nat col < grid_width g
  /\ (0 <= row)%Z /\ (0 <= col)%Z.
Proof. unfold is_inside. rewrite !andb_true_iff. lia. Qed.

Lemma mark_visited_measure h w v r c :
  matrix_dims h w v -> r < h -> c < w -> visited_at v r c = false ->
  matrix_dims h w (mark_visited v r c)
  /\ count_unvisited (mark_visited v r c) + 1 = count_unvisited v.
Proof.
  intros Hd Hr Hc Hv. split; [apply alter_insert_dims, Hd|].
  destruct (matrix_cell _ _ _ _ _ Hd Hr Hc) as (row & b & Hrow & Hb).
  unfold visited_at in Hv. rewrite Hrow, Hb in Hv. subst b.
  pose proof (sum_matrix_update (fun b : bool => if b then 0 else 1)
                                v r c row false true Hrow Hb) as E.
  cbv beta iota in E. unfold count_unvisited, mark_visited. lia.
Qed.

Lemma visit_neighbour_measure g r c v q d :
  matrix_dims (grid_height g) (grid_width g) v ->
  matrix_dims (grid_height g) (grid_width g) (fst (visit_neighbour g r c (v, q) d))
  /\ count_unvisited (fst (visit_neighbour g r c (v, q) d))
     + length (snd (visit_neighbour g r c (v, q) d))
     = count_unvisited v + length q.
Proof.
  intros Hd. unfold visit_neighbour. simpl fst. simpl snd.
  destruct (is_inside g _ _) eqn:Hin; simpl; [|auto].
  destruct (visited_at v _ _) eqn:Hv; simpl; [auto|].
  destruct (is_some _); simpl; [|auto].
  apply is_inside_bounds in Hin as (Hr & Hc & _).
  destruct (mark_visited_measure _ _ _ _ _ Hd Hr Hc Hv) as [Hd' Hm].
  split; [exact Hd'|]. rewrite length_app. simpl. lia.
Qed.

Lemma visit_all_measure g r c ds :
  forall v q,
    matrix_dims (grid_height g) (grid_width g) v ->
    matrix_dims (grid_height g) (grid_width g)
                (fst (fold_left (visit_neighbour g r c) ds (v, q)))
    /\ count_unvisited (fst (fold_left (visit_neighbour g r c) ds (v, q)))
       + length (snd (fold_left (visit_neighbour g r c) ds (v, q)))
       = count_unvisited v + length q.
Proof.
  induction ds as [|d ds IH]; intros v q Hd; simpl; [auto|].
  destruct (visit_neighbour_measure g r c v q d Hd) as [Hd1 Hm1].
  destruct (visit_neighbour g r c (v, q) d) as [v1 q1]. simpl in *.
  destruct (IH v1 q1 Hd1) as [Hd2 Hm2]. split; [exact Hd2|lia].
Qed.

Lemma flood_fill_step g fuel v r c q :
  flood_fill (S fuel) g v ((r, c) :: q)
  = flood_fill fuel g
      (fst (fold_left (visit_neighbour g r c) directions (v, q)))
      (snd (fold_left (visit_neighbour g r c) directions (v, q))).
Proof. reflexivity. Qed.

(** The flood fill ends: every iteration takes a cell off the queue, and a
    cell enters the queue only when it is marked. *)
Lemma flood_fill_terminates g fuel :
  forall v q,
    matrix_dims (grid_height g) (grid_width g) v ->
    count_unvisited v + length q <= fuel ->
    exists v', flood_fill fuel g v q = Some v'
               /\ matrix_dims (grid_height g) (grid_width g) v'.
Proof.
  induction fuel as [|fuel IH]; intros v q Hd Hm.
  - destruct q as [|[r c] q]; simpl in *; [eauto|lia].
  - destruct q as [|[r c] q]; [simpl; eauto|].
    rewrite flood_fill_step.
    destruct (visit_all_measure g r c directions v q Hd) as [Hd' Hm'].
    apply IH; [exact Hd'|]. simpl in Hm. lia.
Qed.

Lemma flood_fill_mono g fuel :
  forall v q v' fuel',
    flood_fill fuel g v q = Some v' -> fuel <= fuel' ->
    flood_fill fuel' g v q = Some v'.
Proof.
  induction fuel as [|fuel IH]; intros v q v' fuel' H Hle.
  - destruct q as [|[r c] q]; simpl in H; [|discriminate].
    destruct fuel'; simpl; exact H.
  - destruct q as [|[r c] q].
    + destruct fuel'; simpl in *; exact H.
    + destruct fuel' as [|fuel']; [lia|]. rewrite flood_fill_step in *.
      apply IH; [exact H|lia].
Qed.

Lemma mark_visited_le h w v r c :
  matrix_dims h w v ->
  matrix_dims h w (mark_visited v r c)
  /\ count_unvisited (mark_visited v r c) <= count_unvisited v.
Proof.
  intros Hd. split; [apply alter_insert_dims, Hd|].
  unfold count_unvisited, mark_visited.
  destruct (v !! r) as [row|] eqn:Hrow.
  - destruct (row !! c) as [b|] eqn:Hb.
    + pose proof (sum_matrix_update (fun b : bool => if b then 0 else 1)
                                    v r c row b true Hrow Hb) as E.
      cbv beta iota in E. lia.
    + rewrite (list_alter_ext _ (fun r0 => r0) v v);
        [rewrite list_alter_id; auto| |reflexivity].
      intros row' Hrow'. rewrite Hrow in Hrow'. injection Hrow' as <-.
      apply list_insert_ge, lookup_ge_None. exact Hb.
  - apply lookup_ge_None in Hrow.
    rewrite (list_alter_ext _ (fun r0 => r0) v v);
      [rewrite list_alter_id; auto| |reflexivity].
    intros row' Hrow'. apply lookup_lt_Some in Hrow'. lia.
Qed.

Lemma seed_measure g cols :
  forall v q,
    matrix_dims (grid_height g) (grid_width g) v ->
    matrix_dims (grid_height g) (grid_width g)
                (fst (fold_left (seed_bottom_row g) cols (v, q)))
    /\ count_unvisited (fst (fold_left (seed_bottom_row g) cols (v, q)))
       + length (snd (fold_left (seed_bottom_row g) cols (v, q)))
       <= count_unvisited v + length q + length cols.
Proof.
  induction cols as [|c cols IH]; intros v q Hd; simpl; [split; [auto|lia]|].
  unfold seed_bottom_row at 2 4 6. simpl fst. simpl snd.
  destruct (is_some _).
  - destruct (mark_visited_le _ _ v 0 c Hd) as [Hd1 Hle].
    destruct (IH (mark_visited v 0 c) (q ++ [(0, c)]) Hd1) as [Hd2 Hm].
    split; [exact Hd2|]. rewrite length_app in Hm. simpl in Hm. lia.
  - destruct (IH v q Hd) as [Hd2 Hm]. split; [exact Hd2|lia].
Qed.

Lemma replicate_dims {A} h w (x : A) :
  matrix_dims h w (replicate h (replicate w x)).
Proof.
  split; [apply length_replicate|].
  apply Forall_replicate. apply length_replicate.
Qed.

Lemma count_unvisited_fresh h w :
  count_unvisited (replicate h (replicate w false)) = h * w.
Proof.
  unfold count_unvisited.
  assert (Hrow : sum_list_with (fun b : bool => if b then 0 else 1)
                               (replicate w false) = w).
  { induction w as [|w IH]; simpl; [reflexivity|]. rewrite IH. reflexivity. }
  induction h as [|h IH]; simpl; [reflexivity|]. rewrite IH, Hrow. reflexivity.
Qed.

(** [find_dest] stops at or below the row it starts from, on a free cell
    when it stops below. *)
Lemma find_dest_spec m col row :
  find_dest m col row <= row
  /\ (find_dest m col row < row -> tile_at m (find_dest m col row) col = None).
Proof.
  induction row as [|d [IHle IHfree]]; simpl; [split; [lia|lia]|].
  destruct (is_some (tile_at m d col)) eqn:Hd; [split; lia|].
  split; [lia|]. intros _.
  destruct (decide (find_dest m col d < d)) as [Hlt|Hge]; [auto|].
  assert (find_dest m col d = d) as -> by lia.
  destruct (tile_at m d col); [discriminate|reflexivity].
Qed.

Lemma drop_tile_spec h w visited col m row :
  matrix_dims h w m -> row < h -> col < w ->
  matrix_dims h w (drop_tile visited col m row)
  /\ count_occupied (drop_tile visited col m row) = count_occupied m.
Proof.
  intros Hd Hr Hc. unfold drop_tile.
  destruct (is_some (tile_at m row col) && negb (visited_at visited row col)) eqn:Hcond;
    [|auto].
  destruct (find_dest_spec m col row) as [Hle Hfree].
  destruct (Nat.eqb_spec (find_dest m col row) row) as [Heq|Hne]; [auto|].
  set (dest := find_dest m col row) in *.
  assert (Hd1 : matrix_dims h w (set_tile m dest col (tile_at m row col)))
    by apply set_tile_dims, Hd.
  split; [apply set_tile_dims, Hd1|].
  pose proof (count_occupied_set_tile _ _ m dest col (tile_at m row col) Hd
                ltac:(lia) Hc) as E1.
  pose proof (count_occupied_set_tile _ _ _ row col None Hd1 Hr Hc) as E2.
  rewrite (Hfree ltac:(lia)) in E1.
  assert (Hrow : tile_at (set_tile m dest col (tile_at m row col)) row col
                 = tile_at m row col).
  { rewrite !tile_at_column. erewrite column_set_tile_eq by eauto.
    rewrite list_lookup_insert_ne by lia. reflexivity. }
  rewrite Hrow in E2. cbn in E1, E2. lia.
Qed.

Lemma drop_unsupported_spec h w visited m :
  matrix_dims h w m ->
  matrix_dims h w (drop_unsupported visited h w m)
  /\ count_occupied (drop_unsupported visited h w m) = count_occupied m.
Proof.
  unfold drop_unsupported.
  assert (Hcols : forall cols m0,
    (forall c, c ∈ cols -> c < w) -> matrix_dims h w m0 ->
    matrix_dims h w (fold_left (drop_column visited h) cols m0)
    /\ count_occupied (fold_left (drop_column visited h) cols m0)
       = count_occupied m0).
  { induction cols as [|c cols IH]; intros m0 Hin Hd; simpl; [auto|].
    assert (Hrows : forall rows m1,
      (forall r, r ∈ rows -> r < h) -> matrix_dims h w m1 ->
      matrix_dims h w (fold_left (drop_tile visited c) rows m1)
      /\ count_occupied (fold_left (drop_tile visited c) rows m1)
         = count_occupied m1).
    { induction rows as [|r rows IHr]; intros m1 Hinr Hd1; simpl; [auto|].
      destruct (drop_tile_spec h w visited c m1 r Hd1) as [Hd2 Hn].
      - apply Hinr, elem_of_cons. auto.
      - apply Hin, elem_of_cons. auto.
      - destruct (IHr (drop_tile visited c m1 r)) as [Hd3 Hn3].
        + intros r' Hr'. apply Hinr, elem_of_cons. auto.
        + exact Hd2.
        + split; [exact Hd3|lia]. }
    destruct (Hrows (rev (seq 0 (h - 1))) m0) as [Hd1 Hn1].
    - intros r Hr. apply list_elem_of_In, in_rev, in_seq in Hr. lia.
    - exact Hd.
    - destruct (IH (drop_column visited h m0 c)) as [Hd2 Hn2].
      + intros c' Hc'. apply Hin, elem_of_cons. auto.
      + exact Hd1.
      + split; [exact Hd2|]. unfold drop_column in *. lia. }
  intros Hd. apply Hcols; [|exact Hd].
  intros c Hc. apply list_elem_of_In, in_seq in Hc. lia.
Qed.

(** The gravity pass ends, keeps the dimensions, the score and the flag,
    and neither adds nor removes a tile. *)
Lemma fall_disconnected_tiles_spec g fuel :
  grid_wf g -> 0 < grid_height g -> settle_fuel g <= fuel ->
  exists m',
    fall_disconnected_tiles fuel g = Some (with_matrix g m')
    /\ matrix_dims (grid_height g) (grid_width g) m'
    /\ count_occupied m' = count_occupied (tile_matrix g).
Proof.
  intros Hwf Hh Hfuel. unfold fall_disconnected_tiles.
  replace (grid_height g =? 0) with false by (symmetry; apply Nat.eqb_neq; lia).
  cbn [andb].
  pose proof (seed_measure g (seq 0 (grid_width g))
                (replicate (grid_height g) (replicate (grid_width g) false)) []
                (replicate_dims _ _ _)) as [Hd0 Hm0].
  rewrite count_unvisited_fresh, length_seq in Hm0. simpl in Hm0.
  set (st := fold_left (seed_bottom_row g) (seq 0 (grid_width g)) _) in *.
  destruct (flood_fill_terminates g fuel (fst st) (snd st) Hd0) as (v & E & Hv).
  { unfold settle_fuel in Hfuel. lia. }
  rewrite E.
  destruct (drop_unsupported_spec _ _ v _ Hwf) as [Hd Hn].
  eauto.
Qed.

Lemma fall_disconnected_tiles_mono g fuel fuel' g' :
  fall_disconnected_tiles fuel g = Some g' -> fuel <= fuel' ->
  fall_disconnected_tiles fuel' g = Some g'.
Proof.
  unfold fall_disconnected_tiles. intros H Hle.
  destruct ((grid_height g =? 0) && (0 <? grid_width g)); [discriminate|].
  destruct (flood_fill fuel g _ _) as [v|] eqn:E; [|discriminate].
  rewrite (flood_fill_mono _ _ _ _ _ _ E Hle). exact H.
Qed.

(** ** The merge-settle loop *)

Lemma column_merges_leaves_tile l :
  column_merges l <> [] -> exists r t, merged_column l !! r = Some (Some t).
Proof.
  induction l as [|rest IH|a0|a0 rest IH|a0 b0 rest E IH|a0 b0 rest E IH] using scan_ind;
    intros Hm.
  - contradiction.
  - destruct (IH Hm) as (r & t & Hr). exists (S r), t. exact Hr.
  - contradiction.
  - exists 0, a0. reflexivity.
  - destruct (scan_merge a0 b0 rest E) as [-> _]. eexists 0, _. reflexivity.
  - destruct (scan_advance a0 b0 rest E) as [-> _]. exists 0, a0. reflexivity.
Qed.

Lemma pass_merges_nonempty m columns :
  pass_merges m columns <> [] ->
  exists c, c ∈ columns /\ column_merges (column m c) <> [].
Proof.
  induction columns as [|c cs IH]; simpl; intros Hm; [contradiction|].
  destruct (column_merges (column m c)) eqn:E.
  - destruct (IH Hm) as (c' & Hc' & Hne). exists c'. split; [|exact Hne].
    apply elem_of_cons. auto.
  - exists c. split; [apply elem_of_cons; auto|]. rewrite E. discriminate.
Qed.

Lemma count_occupied_tile m r c t :
  tile_at m r c = Some t -> 1 <= count_occupied m.
Proof.
  unfold tile_at. intros Ht.
  destruct (m !! r) as [row|] eqn:Hrow; [|discriminate].
  destruct (row !! c) as [o|] eqn:Ho; [|discriminate]. subst o.
  pose proof (sum_list_with_in row count_row m
                ltac:(apply list_elem_of_lookup; eauto)) as H1.
  pose proof (sum_list_with_in (Some t) count_cell row
                ltac:(apply list_elem_of_lookup; eauto)) as H2.
  change (count_cell (Some t)) with 1 in H2.
  unfold count_occupied. unfold count_row in H1 at 1. lia.
Qed.

(** A merge pass keeps the shape of the grid and never adds a tile; a pass
    that reports a merge removes a tile and leaves the merged one. *)
Lemma chain_count g columns :
  grid_wf g -> NoDup columns ->
  (forall c, c ∈ columns -> c < grid_width g) ->
  let g1 := fst (chain_bottom_up_merge columns g) in
  grid_wf g1 /\ grid_height g1 = grid_height g /\ grid_width g1 = grid_width g
  /\ game_over g1 = game_over g
  /\ count_occupied (tile_matrix g1) <= count_occupied (tile_matrix g)
  /\ (snd (chain_bottom_up_merge columns g) = true ->
      count_occupied (tile_matrix g1) < count_occupied (tile_matrix g)
      /\ 1 <= count_occupied (tile_matrix g1)).
Proof.
  intros Hwf Hnd Hin.
  destruct (chain_fold_spec columns g false Hwf Hnd Hin) as (m1 & E & Hd & Hcs & _ & Hn).
  unfold chain_bottom_up_merge. rewrite E. cbn [fst snd orb grid_height grid_width
    tile_matrix game_over].
  split; [exact Hd|]. split; [reflexivity|]. split; [reflexivity|].
  split; [reflexivity|].
  split; [lia|].
  intros Hm.
  assert (Hne : pass_merges (tile_matrix g) columns <> []).
  { destruct (pass_merges (tile_matrix g) columns); [discriminate|discriminate]. }
  split.
  - destruct (pass_merges (tile_matrix g) columns); [contradiction|].
    simpl in Hn. lia.
  - destruct (pass_merges_nonempty _ _ Hne) as (c & Hc & Hcm).
    destruct (column_merges_leaves_tile _ Hcm) as (r & t & Hr).
    apply (count_occupied_tile m1 r c t). apply tile_at_Some.
    rewrite (Hcs c Hc). exact Hr.
Qed.

Lemma merge_settle_loop_mono columns inner inner' fuel :
  forall fuel' g g',
    merge_settle_loop inner fuel columns g = Some g' ->
    inner <= inner' -> fuel <= fuel' ->
    merge_settle_loop inner' fuel' columns g = Some g'.
Proof.
  induction fuel as [|fuel IH]; intros fuel' g g' H Hi Hf; [discriminate|].
  destruct fuel' as [|fuel']; [lia|]. simpl in *.
  destruct (chain_bottom_up_merge columns g) as [g1 [|]]; [|exact H].
  destruct (fall_disconnected_tiles inner g1) as [g2|] eqn:E; [|discriminate].
  rewrite (fall_disconnected_tiles_mono _ _ _ _ E Hi).
  apply IH; [exact H|exact Hi|lia].
Qed.

Lemma merge_settle_loop_spec columns inner fuel :
  forall g,
    grid_wf g -> NoDup columns ->
    (forall c, c ∈ columns -> c < grid_width g) ->
    0 < grid_height g -> settle_fuel g <= inner ->
    0 < fuel -> count_occupied (tile_matrix g) <= fuel ->
    exists g',
      merge_settle_loop inner fuel columns g = Some g'
      /\ grid_wf g' /\ grid_height g' = grid_height g
      /\ grid_width g' = grid_width g /\ game_over g' = game_over g
      /\ count_occupied (tile_matrix g') <= count_occupied (tile_matrix g).
Proof.
  induction fuel as [|fuel IH]; intros g Hwf Hnd Hin Hh Hi Hpos Hf; [lia|].
  simpl.
  destruct (chain_count g columns Hwf Hnd Hin) as (Hwf1 & Hh1 & Hw1 & Hg1 & Hle1 & Hlt1).
  destruct (chain_bottom_up_merge columns g) as [g1 merged]. simpl in *.
  destruct merged.
  - destruct (Hlt1 eq_refl) as [Hlt Hone].
    destruct (fall_disconnected_tiles_spec g1 inner Hwf1) as (m2 & E & Hd2 & Hn2).
    { rewrite Hh1. exact Hh. }
    { unfold settle_fuel in *. rewrite Hh1, Hw1. exact Hi. }
    rewrite E.
    destruct (IH (with_matrix g1 m2)) as (g' & E' & Hwf' & Hh' & Hw' & Hg' & Hn').
    + exact Hd2.
    + exact Hnd.
    + simpl. rewrite Hw1. exact Hin.
    + simpl. rewrite Hh1. exact Hh.
    + unfold settle_fuel in *. simpl. rewrite Hh1, Hw1. exact Hi.
    + lia.
    + simpl. lia.
    + exists g'. simpl in *. split; [exact E'|]. split; [exact Hwf'|].
      split; [congruence|]. split; [congruence|]. split; [congruence|]. lia.
  - exists g1. split; [reflexivity|]. split; [exact Hwf1|]. auto.
Qed.

(** C10.  A merge pass that reports a merge leaves strictly fewer occupied
    cells, the gravity pass ends and leaves their number unchanged, and so
    the merge-settle loop of [update_grid] ends: counting every pass, the
    last one that merges nothing included, it needs no more passes than
    the grid has occupied cells (one pass on an empty grid), and returns
    one and the same grid for every larger fuel. *)
Theorem merge_settle_loop_terminates g columns :
  grid_wf g -> 0 < grid_height g -> NoDup columns ->
  (forall c, c ∈ columns -> c < grid_width g) ->
  (snd (chain_bottom_up_merge columns g) = true ->
   count_occupied (tile_matrix (fst (chain_bottom_up_merge columns g)))
   < count_occupied (tile_matrix g))
  /\ (forall inner, settle_fuel g <= inner ->
        exists g1, fall_disconnected_tiles inner g = Some g1
                   /\ count_occupied (tile_matrix g1) = count_occupied (tile_matrix g))
  /\ (exists g',
        count_occupied (tile_matrix g') <= count_occupied (tile_matrix g)
        /\ forall inner fuel,
             settle_fuel g <= inner ->
             0 < fuel -> count_occupied (tile_matrix g) <= fuel ->
             merge_settle_loop inner fuel columns g = Some g').
Proof.
  intros Hwf Hh Hnd Hin. split; [|split].
  - intros Hm. apply (chain_count g columns Hwf Hnd Hin). exact Hm.
  - intros inner Hi.
    destruct (fall_disconnected_tiles_spec g inner Hwf Hh Hi) as (m' & E & _ & Hn).
    exists (with_matrix g m'). split; [exact E|exact Hn].
  - destruct (merge_settle_loop_spec columns (settle_fuel g)
                (max 1 (count_occupied (tile_matrix g))) g Hwf Hnd Hin Hh)
      as (g' & E & _ & _ & _ & _ & Hn); [lia|lia|lia|].
    exists g'. split; [exact Hn|].
    intros inner fuel Hi Hpos Hf.
    apply (merge_settle_loop_mono _ _ _ _ _ _ _ E); lia.
Qed.

Lemma merge_settle_loop_terminates_witness :
  let g := mkGrid 4 1 [[Some (mkTile 2)]; [Some (mkTile 2)]; [Some (mkTile 4)]; [None]]
                  false 0 in
  grid_wf g /\ 0 < grid_height g /\ NoDup [0]
  /\ (forall c, c ∈ [0] -> c < grid_width g)
  /\ exists g', merge_settle_loop 5 3 [0] g = Some g'.
Proof.
  intros g.
  assert (Hwf : grid_wf g) by concrete_dims.
  assert (Hnd : NoDup [0]) by apply NoDup_singleton.
  assert (Hin : forall c, c ∈ [0] -> c < grid_width g).
  { intros c Hc. apply list_elem_of_singleton in Hc. subst c. simpl. lia. }
  assert (Hh : 0 < grid_height g) by (simpl; lia).
  split; [exact Hwf|]. split; [exact Hh|]. split; [exact Hnd|]. split; [exact Hin|].
  destruct (merge_settle_loop_terminates g [0] Hwf Hh Hnd Hin)
    as (_ & _ & g' & _ & Hloop).
  exists g'. apply Hloop; vm_compute; lia.
Defined.

(** ** Row clearing *)

Lemma shift_rows_lookup n :
  forall r (m0 : Matrix),
    r + n < length m0 ->
    let m' := fold_left (fun m r => <[r := row_at m (r + 1)]> m) (seq r n) m0 in
    length m' = length m0
    /\ forall i, m' !! i
                 = if (r <=? i) && (i <? r + n) then m0 !! (i + 1) else m0 !! i.
Proof.
  induction n as [|n IH]; intros r m0 Hlen; simpl.
  - split; [reflexivity|]. intros i.
    destruct (r <=? i) eqn:E1; simpl; [|reflexivity].
    replace (i <? r + 0) with false; [reflexivity|].
    symmetry. apply Nat.ltb_ge. apply Nat.leb_le in E1. lia.
  - set (m1 := <[r := row_at m0 (r + 1)]> m0).
    assert (Hl1 : length m1 = length m0) by apply length_insert.
    destruct (IH (S r) m1) as [Hl Hi]; [lia|].
    split; [lia|]. intros i. rewrite Hi.
    destruct (lookup_lt_is_Some_2 m0 (r + 1) ltac:(lia)) as [row1 Hrow1].
    assert (Hr : m1 !! r = m0 !! (r + 1)).
    { unfold m1. rewrite list_lookup_insert_eq by lia.
      unfold row_at. rewrite Hrow1. reflexivity. }
    destruct (Nat.leb_spec (S r) i); destruct (Nat.ltb_spec i (S r + n));
      destruct (Nat.leb_spec r i); destruct (Nat.ltb_spec i (r + S n));
      simpl; try lia.
    + unfold m1. apply list_lookup_insert_ne. lia.
    + unfold m1. apply list_lookup_insert_ne. lia.
    + assert (i = r) as -> by lia. exact Hr.
    + unfold m1. apply list_lookup_insert_ne. lia.
Qed.

(** Removing row [length pre]: the rows above move down by one and the
    top row becomes empty. *)
Lemma shift_down_above_row_matrix g pre row post :
  length (tile_matrix g) = grid_height g ->
  tile_matrix g = pre ++ row :: post ->
  shift_down_above_row (length pre) g
  = with_matrix g (pre ++ post ++ [replicate (grid_width g) None]).
Proof.
  intros Hlen Hm. unfold shift_down_above_row. f_equal.
  assert (Hh : grid_height g = length pre + S (length post)).
  { rewrite <- Hlen, Hm, length_app. reflexivity. }
  destruct (shift_rows_lookup (grid_height g - 1 - length pre) (length pre)
              (tile_matrix g) ltac:(lia)) as [Hl Hi].
  set (m1 := fold_left _ _ _) in *.
  apply list_eq. intros i.
  destruct (decide (i = grid_height g - 1)) as [->|Hne].
  - rewrite list_lookup_insert_eq by lia.
    rewrite lookup_app_r by lia. rewrite lookup_app_r by lia.
    replace (grid_height g - 1 - length pre - length post) with 0 by lia.
    reflexivity.
  - rewrite list_lookup_insert_ne by lia. rewrite Hi, Hm.
    destruct (Nat.leb_spec (length pre) i); destruct (Nat.ltb_spec i
      (length pre + (grid_height g - 1 - length pre))); simpl.
    + rewrite !lookup_app_r by lia.
      replace (i + 1 - length pre) with (S (i - length pre)) by lia. simpl.
      rewrite lookup_app_l by lia. reflexivity.
    + rewrite !lookup_ge_None_2; [reflexivity| |];
        rewrite ?length_app; simpl; rewrite ?length_app; simpl; lia.
    + rewrite !lookup_app_l by lia. reflexivity.
    + lia.
Qed.

Lemma row_score_acc r :
  forall acc,
    fold_left (fun acc o => match o with Some t => acc + number t | None => acc end)%Z
              r acc
    = (acc + row_score r)%Z.
Proof.
  unfold row_score.
  induction r as [|o r IH]; intros acc; simpl; [lia|].
  rewrite IH. rewrite (IH (match o with Some t => 0 + number t | None => 0 end)%Z).
  destruct o; lia.
Qed.

Lemma empty_row_not_full w : 0 < w -> row_full (replicate w None) = false.
Proof. destruct w; [lia|reflexivity]. Qed.

Lemma kept_rows_app m1 m2 : kept_rows (m1 ++ m2) = kept_rows m1 ++ kept_rows m2.
Proof.
  induction m1 as [|r m1 IH]; simpl; [reflexivity|].
  destruct (row_full r); simpl; rewrite IH; reflexivity.
Qed.

Lemma full_rows_app m1 m2 : full_rows (m1 ++ m2) = full_rows m1 ++ full_rows m2.
Proof.
  induction m1 as [|r m1 IH]; simpl; [reflexivity|].
  destruct (row_full r); simpl; rewrite IH; reflexivity.
Qed.

Lemma full_rows_snoc_empty w post :
  0 < w -> full_rows (post ++ [replicate w None]) = full_rows post.
Proof.
  intros Hw. rewrite full_rows_app. simpl.
  rewrite empty_row_not_full by exact Hw. apply app_nil_r.
Qed.

Lemma full_rows_cons_full r post :
  row_full r = true -> full_rows (r :: post) = r :: full_rows post.
Proof. intros Hr. simpl. rewrite Hr. reflexivity. Qed.

Lemma cleared_matrix_shift w r post :
  0 < w -> row_full r = true ->
  cleared_matrix w (post ++ [replicate w None]) = cleared_matrix w (r :: post).
Proof.
  intros Hw Hr. unfold cleared_matrix. simpl. rewrite Hr.
  rewrite kept_rows_app, full_rows_app. simpl.
  rewrite empty_row_not_full by exact Hw. simpl.
  rewrite app_nil_r, <- app_assoc. reflexivity.
Qed.

Lemma cleared_value_shift w r post :
  0 < w -> row_full r = true ->
  (row_score r + cleared_value (post ++ [replicate w None])
   = cleared_value (r :: post))%Z.
Proof.
  intros Hw Hr. unfold cleared_value. simpl. rewrite Hr.
  rewrite full_rows_app. simpl.
  rewrite empty_row_not_full by exact Hw. rewrite app_nil_r. reflexivity.
Qed.

Lemma with_matrix_same g : with_matrix g (tile_matrix g) = g.
Proof. destruct g; reflexivity. Qed.

Lemma row_at_split (pre : Matrix) r post : row_at (pre ++ r :: post) (length pre) = r.
Proof.
  unfold row_at. rewrite lookup_app_r by lia.
  replace (length pre - length pre) with 0 by lia. reflexivity.
Qed.

Lemma clear_rows_loop_spec fuel :
  forall g pre suf cols sc,
    grid_wf g -> 0 < grid_width g ->
    tile_matrix g = pre ++ suf ->
    length suf + length (full_rows suf) <= fuel ->
    clear_rows_loop fuel (length pre) g cols sc
    = Some (with_matrix g (pre ++ cleared_matrix (grid_width g) suf),
            Nat.iter (length (full_rows suf)) (add_all_columns (grid_width g)) cols,
            (sc + cleared_value suf)%Z).
Proof.
  induction fuel as [|fuel IH]; intros g pre suf cols sc Hwf Hw Hm Hfuel.
  - destruct suf; simpl in Hfuel; [|lia].
    simpl. replace (length pre <? grid_height g) with false.
    + rewrite app_nil_r in Hm. unfold cleared_matrix, cleared_value. simpl.
      rewrite app_nil_r, <- Hm, with_matrix_same, Z.add_0_r. reflexivity.
    + symmetry. apply Nat.ltb_ge. destruct Hwf as [Hl _].
      rewrite <- Hl, Hm, length_app. simpl. lia.
  - pose proof Hwf as [Hl Hall].
    destruct suf as [|r post].
    + simpl. replace (length pre <? grid_height g) with false.
      * rewrite app_nil_r in Hm. unfold cleared_matrix, cleared_value. simpl.
        rewrite app_nil_r, <- Hm, with_matrix_same, Z.add_0_r. reflexivity.
      * symmetry. apply Nat.ltb_ge. rewrite <- Hl, Hm, length_app. simpl. lia.
    + simpl clear_rows_loop.
      replace (length pre <? grid_height g) with true
        by (symmetry; apply Nat.ltb_lt; rewrite <- Hl, Hm, length_app; simpl; lia).
      rewrite Hm, row_at_split.
      destruct (row_full r) eqn:Hr.
      * rewrite (shift_down_above_row_matrix g pre r post Hl Hm).
        rewrite row_score_acc.
        set (g' := with_matrix g (pre ++ post ++ [replicate (grid_width g) None])).
        rewrite (IH g' pre (post ++ [replicate (grid_width g) None])).
        -- simpl grid_width. unfold g'.
           rewrite (cleared_matrix_shift _ r post Hw Hr).
           rewrite <- (cleared_value_shift _ r post Hw Hr).
           rewrite (full_rows_snoc_empty _ _ Hw), (full_rows_cons_full _ _ Hr).
           simpl length. rewrite Nat.iter_succ_r.
           f_equal. f_equal. lia.
        -- unfold g', grid_wf. simpl. split.
           ++ rewrite <- Hl, Hm, !length_app. simpl. lia.
           ++ rewrite Hm in Hall. apply Forall_app in Hall as [Hp Hrp].
              apply Forall_cons in Hrp as [_ Hpost].
              apply Forall_app. split; [exact Hp|].
              apply Forall_app. split; [exact Hpost|].
              repeat constructor. apply length_replicate.
        -- exact Hw.
        -- reflexivity.
        -- rewrite (full_rows_snoc_empty _ _ Hw), length_app.
           rewrite (full_rows_cons_full _ _ Hr) in Hfuel. simpl in *. lia.
      * replace (length pre + 1) with (length (pre ++ [r]))
          by (rewrite length_app; reflexivity).
        rewrite (IH g (pre ++ [r]) post); auto.
        -- unfold cleared_matrix, cleared_value. simpl. rewrite Hr.
           rewrite <- !app_assoc. reflexivity.
        -- rewrite Hm, <- app_assoc. reflexivity.
        -- simpl in Hfuel. rewrite Hr in Hfuel. lia.
Qed.

Lemma length_full_rows_le m : length (full_rows m) <= length m.
Proof.
  induction m as [|r m IH]; simpl; [lia|]. destruct (row_full r); simpl; lia.
Qed.

Lemma clear_full_rows_spec g fuel :
  grid_wf g -> 0 < grid_width g -> 2 * grid_height g <= fuel ->
  clear_full_rows_return_columns fuel g
  = Some (mkGrid (grid_height g) (grid_width g)
                 (cleared_matrix (grid_width g) (tile_matrix g))
                 (game_over g)
                 (score g + cleared_value (tile_matrix g)),
          Nat.iter (length (full_rows (tile_matrix g)))
                   (add_all_columns (grid_width g)) ∅).
Proof.
  intros Hwf Hw Hfuel. unfold clear_full_rows_return_columns.
  change 0 with (length (@nil (list (option Tile)))) at 1.
  rewrite (clear_rows_loop_spec fuel g [] (tile_matrix g)); auto.
  pose proof (length_full_rows_le (tile_matrix g)).
  destruct Hwf as [Hl _]. lia.
Qed.

(** On a board without columns every row counts as full and the loop
    never ends: whatever the fuel, it runs out. *)
Lemma clear_rows_loop_zero_width fuel :
  forall g cols sc,
    grid_wf g -> grid_width g = 0 -> 0 < grid_height g ->
    clear_rows_loop fuel 0 g cols sc = None.
Proof.
  induction fuel as [|fuel IH]; intros g cols sc Hwf Hw Hh; simpl.
  - replace (0 <? grid_height g) with true by (symmetry; apply Nat.ltb_lt; lia).
    reflexivity.
  - replace (0 <? grid_height g) with true by (symmetry; apply Nat.ltb_lt; lia).
    pose proof Hwf as [Hl Hall].
    destruct (tile_matrix g) as [|r post] eqn:Hm; [simpl in Hl; lia|].
    assert (r = []) as ->.
    { apply Forall_cons in Hall as [Hr _]. rewrite Hw in Hr.
      destruct r; [reflexivity|discriminate]. }
    unfold row_at. simpl.
    assert (Hl' : length (tile_matrix g) = grid_height g) by (rewrite Hm; exact Hl).
    pose proof (shift_down_above_row_matrix g [] [] post Hl' Hm) as E.
    simpl in E. rewrite E.
    apply IH; simpl; auto.
    split; simpl.
    + rewrite length_app. simpl in *. lia.
    + apply Forall_cons in Hall as [_ Hpost]. apply Forall_app. split; [exact Hpost|].
      repeat constructor. apply length_replicate.
Qed.

(** C5.  On a grid of the declared dimensions with at least one column:
    removing a row moves every row above it down by one and leaves the top
    row empty; the loop tests the same index again after a removal and
    moves to the next index otherwise; and it ends with every full row
    gone, the other rows in order under as many empty rows, the score
    raised by exactly the sum of the tile values of the removed rows.  Two
    full rows on top of each other both go. *)
Theorem clear_full_rows_cascade g :
  grid_wf g -> 0 < grid_width g ->
  let m := tile_matrix g in
  let w := grid_width g in
  (forall pre row post,
      m = pre ++ row :: post ->
      shift_down_above_row (length pre) g
      = with_matrix g (pre ++ post ++ [replicate w None]))
  /\ (forall fuel r cols sc,
        r < grid_height g ->
        clear_rows_loop (S fuel) r g cols sc
        = if row_full (row_at m r)
          then clear_rows_loop fuel r (shift_down_above_row r g)
                               (add_all_columns w cols)
                               (sc + row_score (row_at m r))
          else clear_rows_loop fuel (r + 1) g cols sc)
  /\ (forall fuel,
        2 * grid_height g <= fuel ->
        fst <$> clear_full_rows_return_columns fuel g
        = Some (mkGrid (grid_height g) w (cleared_matrix w m) (game_over g)
                       (score g + cleared_value m)))
  /\ (forall r1 r2 rest,
        m = r1 :: r2 :: rest -> row_full r1 = true -> row_full r2 = true ->
        cleared_matrix w m
        = cleared_matrix w rest ++ [replicate w None; replicate w None]
        /\ cleared_value m = (row_score r1 + (row_score r2 + cleared_value rest))%Z).
Proof.
  intros Hwf Hw m w. split; [|split; [|split]].
  - intros pre row post Hm.
    apply (shift_down_above_row_matrix g pre row post); [apply Hwf|exact Hm].
  - intros fuel r cols sc Hr. simpl.
    replace (r <? grid_height g) with true by (symmetry; apply Nat.ltb_lt; lia).
    rewrite row_score_acc. reflexivity.
  - intros fuel Hfuel. rewrite (clear_full_rows_spec g fuel Hwf Hw Hfuel). reflexivity.
  - intros r1 r2 rest Hm H1 H2. rewrite Hm. unfold cleared_matrix, cleared_value.
    simpl. rewrite H1, H2. simpl. split; [|reflexivity].
    rewrite <- app_assoc. f_equal.
    change [replicate w None; replicate w None]
      with (replicate 2 (replicate w (@None Tile))).
    rewrite <- replicate_add, Nat.add_comm. reflexivity.
Qed.

Lemma clear_full_rows_cascade_witness :
  let g := mkGrid 3 2 [[Some (mkTile 2); Some (mkTile 4)];
                       [Some (mkTile 2); Some (mkTile 8)];
                       [None; Some (mkTile 4)]] false 1 in
  grid_wf g /\ 0 < grid_width g
  /\ fst <$> clear_full_rows_return_columns 6 g
     = Some (mkGrid 3 2 [[None; Some (mkTile 4)]; [None; None]; [None; None]]
                    false 17).
Proof.
  intros g.
  assert (Hwf : grid_wf g) by concrete_dims.
  assert (Hw : 0 < grid_width g) by (simpl; lia).
  split; [exact Hwf|]. split; [exact Hw|].
  destruct (clear_full_rows_cascade g Hwf Hw) as (_ & _ & Hall & _).
  rewrite (Hall 6) by (simpl; lia). reflexivity.
Defined.

(** ** Locking and resolving *)

Lemma is_inside_dims g g' row col :
  grid_height g' = grid_height g -> grid_width g' = grid_width g ->
  is_inside g' row col = is_inside g row col.
Proof. intros Hh Hw. unfold is_inside. rewrite Hh, Hw. reflexivity. Qed.

Lemma lock_cell_spec g tiles blc col st row :
  lock_inv g st ->
  lock_inv g (lock_cell (length tiles) tiles blc col st row)
  /\ game_over (fst (lock_cell (length tiles) tiles blc col st row))
     = game_over (fst st) || cell_overflows g tiles blc col row.
Proof.
  intros Hinv. pose proof Hinv as (Hwf & Hh & Hw & Hs & Hnd & Hin).
  unfold lock_cell, cell_overflows.
  destruct (tile_at tiles row col) as [tile|];
    [|split; [exact Hinv|rewrite orb_false_r; reflexivity]].
  rewrite (is_inside_dims g (fst st)) by assumption.
  destruct (is_inside g _ _) eqn:Hi; simpl.
  - split; [|rewrite orb_false_r; reflexivity].
    apply is_inside_bounds in Hi as (_ & Hc & _).
    unfold lock_inv. simpl.
    split; [apply set_tile_dims, Hwf|]. repeat split; auto.
    + destruct (bool_decide _) eqn:Hd; [exact Hnd|].
      apply bool_decide_eq_false in Hd.
      apply NoDup_app. split; [exact Hnd|]. split; [|apply NoDup_singleton].
      intros c Hc1 Hc2. apply list_elem_of_singleton in Hc2. subst c. contradiction.
    + intros c Hc'. destruct (bool_decide _); [auto|].
      apply elem_of_app in Hc' as [Hc'|Hc']; [auto|].
      apply list_elem_of_singleton in Hc'. subst c. exact Hc.
  - split; [|rewrite orb_true_r; reflexivity].
    unfold lock_inv. simpl. split; [exact Hwf|]. repeat split; auto.
Qed.

Lemma lock_rows_spec g tiles blc col rows :
  forall st,
    lock_inv g st ->
    lock_inv g (fold_left (lock_cell (length tiles) tiles blc col) rows st)
    /\ game_over (fst (fold_left (lock_cell (length tiles) tiles blc col) rows st))
       = game_over (fst st) || existsb (cell_overflows g tiles blc col) rows.
Proof.
  induction rows as [|row rows IH]; intros st Hinv; simpl.
  - split; [exact Hinv|]. rewrite orb_false_r. reflexivity.
  - destruct (lock_cell_spec g tiles blc col st row Hinv) as [Hinv1 Hg1].
    destruct (IH _ Hinv1) as [Hinv2 Hg2].
    split; [exact Hinv2|]. rewrite Hg2, Hg1, orb_assoc. reflexivity.
Qed.

Lemma lock_cols_spec g tiles blc rows cols :
  forall st,
    lock_inv g st ->
    let st' := fold_left (fun st col =>
                 fold_left (lock_cell (length tiles) tiles blc col) rows st) cols st in
    lock_inv g st'
    /\ game_over (fst st')
       = game_over (fst st)
         || existsb (fun col => existsb (cell_overflows g tiles blc col) rows) cols.
Proof.
  induction cols as [|col cols IH]; intros st Hinv; simpl.
  - split; [exact Hinv|]. rewrite orb_false_r. reflexivity.
  - destruct (lock_rows_spec g tiles blc col rows st Hinv) as [Hinv1 Hg1].
    destruct (IH _ Hinv1) as [Hinv2 Hg2].
    split; [exact Hinv2|]. rewrite Hg2, Hg1, orb_assoc. reflexivity.
Qed.

Lemma footprint_overflows_existsb g tiles blc :
  footprint_overflows g tiles blc
  <-> existsb (fun col => existsb (cell_overflows g tiles blc col)
                                  (seq 0 (length tiles)))
              (seq 0 (length (row_at tiles 0))) = true.
Proof.
  rewrite existsb_exists. split.
  - intros (row & col & Hr & Hc & Hbad). exists col. split; [apply in_seq; lia|].
    apply existsb_exists. exists row. split; [apply in_seq; lia|exact Hbad].
  - intros (col & Hc & Hex). apply existsb_exists in Hex as (row & Hr & Hbad).
    apply in_seq in Hc, Hr. exists row, col. repeat split; auto; lia.
Qed.

Lemma lock_tiles_spec g tiles blc :
  grid_wf g ->
  lock_inv g (lock_tiles tiles blc g)
  /\ (game_over (fst (lock_tiles tiles blc g)) = true
      <-> game_over g = true \/ footprint_overflows g tiles blc).
Proof.
  intros Hwf. unfold lock_tiles.
  destruct (lock_cols_spec g tiles blc (seq 0 (length tiles))
              (seq 0 (length (row_at tiles 0))) (g, []))
    as [Hinv Hg].
  { unfold lock_inv. simpl. repeat split; auto; try apply Hwf.
    - apply NoDup_nil. trivial.
    - intros c Hc. inversion Hc. }
  split; [exact Hinv|].
  cbv zeta in Hg. rewrite Hg. simpl fst.
  rewrite orb_true_iff, footprint_overflows_existsb. reflexivity.
Qed.

Lemma cleared_matrix_dims h w (m : Matrix) :
  matrix_dims h w m -> matrix_dims h w (cleared_matrix w m).
Proof.
  intros [Hl Hall]. unfold cleared_matrix. split.
  - rewrite length_app, length_replicate. rewrite <- Hl. clear.
    induction m as [|r m IH]; simpl; [reflexivity|].
    destruct (row_full r); simpl; lia.
  - apply Forall_app. split.
    + clear Hl. induction m as [|r m IH]; simpl; [constructor|].
      apply Forall_cons in Hall as [Hr Hall].
      destruct (row_full r); [auto|]. constructor; auto.
    + apply Forall_replicate. apply length_replicate.
Qed.

Lemma update_grid_unfold fuel tiles blc g :
  tiles <> [] ->
  update_grid fuel tiles blc g
  = let '(g1, affected_cols) := lock_tiles tiles blc g in
    if game_over g1 then Some (g1, true)
    else
      match merge_settle_loop fuel fuel affected_cols g1 with
      | Some g2 =>
        match clear_full_rows_return_columns fuel g2 with
        | Some (g3, _) =>
          match fall_disconnected_tiles fuel g3 with
          | Some g4 => Some (g4, false)
          | None => None
          end
        | None => None
        end
      | None => None
      end.
Proof. intros Hne. destruct tiles; [contradiction|reflexivity]. Qed.

Lemma update_grid_nonempty fuel tiles blc g r :
  update_grid fuel tiles blc g = Some r -> tiles <> [].
Proof. destruct tiles; [discriminate|discriminate]. Qed.

Lemma update_grid_flag fuel tiles blc g g' b :
  update_grid fuel tiles blc g = Some (g', b) ->
  b = game_over (fst (lock_tiles tiles blc g)).
Proof.
  intros H. pose proof (update_grid_nonempty _ _ _ _ _ H) as Hne.
  rewrite (update_grid_unfold _ _ _ _ Hne) in H. revert H.
  destruct (lock_tiles tiles blc g) as [g1 aff]. simpl.
  destruct (game_over g1); [congruence|].
  destruct (merge_settle_loop _ _ _ _); [|discriminate].
  destruct (clear_full_rows_return_columns _ _) as [[g3 cols]|]; [|discriminate].
  destruct (fall_disconnected_tiles _ _); [|discriminate].
  congruence.
Qed.

Lemma update_grid_resolves g tiles blc :
  grid_wf g -> 0 < grid_height g -> 0 < grid_width g -> tiles <> [] ->
  game_over (fst (lock_tiles tiles blc g)) = false ->
  exists F g',
    grid_wf g' /\ grid_height g' = grid_height g /\ grid_width g' = grid_width g
    /\ forall fuel, F <= fuel -> update_grid fuel tiles blc g = Some (g', false).
Proof.
  intros Hwf Hh Hw Hne Hgo.
  destruct (lock_tiles_spec g tiles blc Hwf) as [(Hwf1 & Hh1 & Hw1 & Hs1 & Hnd & Hin) _].
  assert (Hunf := fun fuel => update_grid_unfold fuel tiles blc g Hne).
  destruct (lock_tiles tiles blc g) as [g1 aff]. simpl in *. rewrite Hgo in Hunf.
  set (F := settle_fuel g + 2 * grid_height g + S (count_occupied (tile_matrix g1))).
  destruct (merge_settle_loop_spec aff F F g1 Hwf1 Hnd)
    as (g2 & E2 & Hwf2 & Hh2 & Hw2 & Hg2 & Hn2).
  { rewrite Hw1. exact Hin. }
  { rewrite Hh1. exact Hh. }
  { unfold settle_fuel in *. rewrite Hh1, Hw1. unfold F. lia. }
  { unfold F. lia. }
  { unfold F. lia. }
  pose proof (clear_full_rows_spec g2 F Hwf2) as E3.
  set (g3 := mkGrid (grid_height g2) (grid_width g2)
                    (cleared_matrix (grid_width g2) (tile_matrix g2))
                    (game_over g2) (score g2 + cleared_value (tile_matrix g2))) in *.
  assert (Hwf3 : grid_wf g3) by (apply cleared_matrix_dims, Hwf2).
  destruct (fall_disconnected_tiles_spec g3 F Hwf3) as (m4 & E4 & Hd4 & _).
  { unfold g3. simpl. rewrite Hh2, Hh1. exact Hh. }
  { unfold F, g3. unfold settle_fuel. simpl. rewrite Hh2, Hw2, Hh1, Hw1. lia. }
  exists F, (with_matrix g3 m4).
  split; [exact Hd4|]. split; [simpl; congruence|]. split; [simpl; congruence|].
  intros fuel Hfuel. rewrite Hunf.
  rewrite (merge_settle_loop_mono _ _ _ _ _ _ _ E2 Hfuel Hfuel).
  rewrite (clear_full_rows_spec g2 fuel Hwf2);
    [|lia|unfold F in Hfuel; lia].
  fold g3. rewrite (fall_disconnected_tiles_mono _ _ _ _ E4 Hfuel). reflexivity.
Qed.

(** C2, as the code has it.  On a board of positive dimensions whose
    game-over flag is not yet set, and for a footprint with at least one
    row, [update_grid] returns true exactly when some occupied cell of the
    footprint maps outside the grid.  It then returns at once: the grid is
    the one the placement loop left, with the score unchanged and no fuel
    used by any later phase.  When every occupied cell is in bounds the
    call goes through all phases and returns false. *)
Theorem update_grid_game_over g tiles blc :
  grid_wf g -> 0 < grid_height g -> 0 < grid_width g -> tiles <> [] ->
  game_over g = false ->
  let placed := fst (lock_tiles tiles blc g) in
  (footprint_overflows g tiles blc ->
   score placed = score g
   /\ forall fuel, update_grid fuel tiles blc g = Some (placed, true))
  /\ (~ footprint_overflows g tiles blc ->
      exists F g', forall fuel, F <= fuel ->
                                update_grid fuel tiles blc g = Some (g', false))
  /\ (forall fuel g' b,
        update_grid fuel tiles blc g = Some (g', b) ->
        (b = true <-> footprint_overflows g tiles blc)).
Proof.
  intros Hwf Hh Hw Hne Hgo placed.
  destruct (lock_tiles_spec g tiles blc Hwf) as [(_ & _ & _ & Hs & _) Hflag].
  fold placed in Hs, Hflag.
  assert (Hiff : game_over placed = true <-> footprint_overflows g tiles blc).
  { rewrite Hflag, Hgo. split; [intros [H|H]; [discriminate|exact H]|auto]. }
  split; [|split].
  - intros Hov. split; [exact Hs|]. intros fuel.
    apply Hiff in Hov. rewrite (update_grid_unfold _ _ _ _ Hne). unfold placed in *.
    destruct (lock_tiles tiles blc g) as [g1 aff]. simpl in *.
    rewrite Hov. reflexivity.
  - intros Hno.
    destruct (update_grid_resolves g tiles blc Hwf Hh Hw Hne)
      as (F & g' & _ & _ & _ & Hres).
    + fold placed. destruct (game_over placed); [|reflexivity].
      exfalso. apply Hno, Hiff. reflexivity.
    + exists F, g'. exact Hres.
  - intros fuel g' b Hres. apply update_grid_flag in Hres. fold placed in Hres.
    rewrite Hres. exact Hiff.
Qed.

Lemma update_grid_game_over_witness :
  let g := mkGrid 2 2 [[None; None]; [None; None]] false 0 in
  let tiles := [[Some (mkTile 2)]; [Some (mkTile 4)]] in
  let blc := mkPoint 0 1 in
  grid_wf g /\ 0 < grid_height g /\ 0 < grid_width g /\ tiles <> []
  /\ game_over g = false /\ footprint_overflows g tiles blc
  /\ update_grid 0 tiles blc g
     = Some (mkGrid 2 2 [[None; None]; [Some (mkTile 4); None]] true 0, true).
Proof.
  intros g tiles blc.
  assert (Hwf : grid_wf g) by concrete_dims.
  assert (Hh : 0 < grid_height g) by (simpl; lia).
  assert (Hw : 0 < grid_width g) by (simpl; lia).
  assert (Hne : tiles <> []) by discriminate.
  assert (Hgo : game_over g = false) by reflexivity.
  assert (Hov : footprint_overflows g tiles blc).
  { exists 0, 0. simpl. repeat split; try lia. }
  repeat (split; [assumption|]).
  destruct (update_grid_game_over g tiles blc Hwf Hh Hw Hne Hgo) as [Htrue _].
  destruct (Htrue Hov) as [_ Hret]. rewrite Hret. reflexivity.
Defined.

(** The claim as worded, for every grid state, fails on a grid whose
    game-over flag is already set by an earlier call: the footprint lies
    inside the board and the call returns true all the same. *)
Lemma update_grid_sticky_flag_counterexample :
  let g := mkGrid 2 2 [[None; None]; [None; None]] true 0 in
  let tiles := [[Some (mkTile 2)]] in
  let blc := mkPoint 0 0 in
  grid_wf g /\ ~ footprint_overflows g tiles blc
  /\ update_grid 10 tiles blc g
     = Some (mkGrid 2 2 [[Some (mkTile 2); None]; [None; None]] true 0, true).
Proof.
  intros g tiles blc.
  split; [concrete_dims|].
  split; [|reflexivity].
  intros (row & col & Hr & Hc & Hbad). simpl in Hr, Hc.
  assert (row = 0) as -> by lia. assert (col = 0) as -> by lia.
  discriminate.
Qed.

(** ** The score *)

Lemma tiles_positive_at m r c t :
  tiles_positive m -> tile_at m r c = Some t -> (0 < number t)%Z.
Proof.
  intros Hp Ht. unfold tile_at in Ht.
  destruct (m !! r) as [row|] eqn:Hrow; [|discriminate].
  destruct (row !! c) as [o|] eqn:Ho; [|discriminate]. subst o.
  unfold tiles_positive in Hp. rewrite Forall_lookup in Hp.
  specialize (Hp r row Hrow). rewrite Forall_lookup in Hp.
  exact (Hp c (Some t) Ho).
Qed.

Lemma set_tile_positive m r c v :
  tiles_positive m -> cell_positive v -> tiles_positive (set_tile m r c v).
Proof.
  intros Hp Hv. unfold set_tile. apply Forall_alter; [exact Hp|].
  intros row _ Hrow. apply Forall_insert; assumption.
Qed.

Lemma tiles_positive_columns h w m :
  matrix_dims h w m ->
  (tiles_positive m <-> forall c, c < w -> Forall cell_positive (column m c)).
Proof.
  intros Hd. split.
  - intros Hp c _. apply Forall_lookup. intros r o Ho.
    destruct o as [t|]; [|exact I].
    apply (tiles_positive_at m r c t Hp). apply tile_at_Some. exact Ho.
  - intros Hcol. apply Forall_lookup. intros r row Hrow.
    apply Forall_lookup. intros c o Ho.
    destruct o as [t|]; [|exact I].
    assert (Hc : c < w).
    { rewrite <- (matrix_dims_row _ _ _ _ _ Hd Hrow). eapply lookup_lt_Some; eauto. }
    specialize (Hcol c Hc). rewrite Forall_lookup in Hcol.
    apply (Hcol r (Some t)). unfold column. rewrite list_lookup_fmap, Hrow. simpl.
    unfold cell_of_row. rewrite Ho. reflexivity.
Qed.

Lemma merged_column_positive l :
  Forall cell_positive l ->
  Forall cell_positive (merged_column l) /\ Forall (fun v => 0 < v)%Z (column_merges l).
Proof.
  induction l as [|rest IH|a0|a0 rest IH|a0 b0 rest E IH|a0 b0 rest E IH] using scan_ind;
    intros Hp.
  - split; constructor.
  - apply Forall_cons in Hp as [_ Hp]. destruct (IH Hp) as [H1 H2]. simpl.
    split; [constructor; [exact I|exact H1]|exact H2].
  - simpl. split; [exact Hp|constructor].
  - apply Forall_cons in Hp as [Ha Hp]. destruct (IH Hp) as [H1 H2].
    change (merged_column (Some a0 :: None :: rest))
      with (Some a0 :: merged_column (None :: rest)).
    change (column_merges (Some a0 :: None :: rest))
      with (column_merges (None :: rest)).
    split; [constructor; [exact Ha|exact H1]|exact H2].
  - destruct (scan_merge a0 b0 rest E) as [-> ->].
    apply Forall_cons in Hp as [Ha Hp]. apply Forall_cons in Hp as [Hb Hp].
    destruct (IH Hp) as [H1 H2]. simpl in Ha.
    split.
    + constructor; [simpl; lia|]. constructor; [exact I|exact H1].
    + constructor; [lia|exact H2].
  - destruct (scan_advance a0 b0 rest E) as [-> ->].
    apply Forall_cons in Hp as [Ha Hp]. destruct (IH Hp) as [H1 H2].
    split; [constructor; [exact Ha|exact H1]|exact H2].
Qed.

Lemma sum_Z_nonneg l : Forall (fun v => 0 < v)%Z l -> (0 <= sum_Z l)%Z.
Proof. induction 1; simpl; lia. Qed.

Lemma pass_merges_positive h w m columns :
  matrix_dims h w m -> tiles_positive m ->
  (forall c, c ∈ columns -> c < w) ->
  Forall (fun v => 0 < v)%Z (pass_merges m columns).
Proof.
  intros Hd Hp. induction columns as [|c cs IH]; intros Hin; simpl; [constructor|].
  apply Forall_app. split.
  - apply merged_column_positive.
    apply (tiles_positive_columns h w m Hd); [exact Hp|].
    apply Hin, elem_of_cons. auto.
  - apply IH. intros c' Hc'. apply Hin, elem_of_cons. auto.
Qed.

(** A merge pass keeps the tiles positive and does not lower the score. *)
Lemma chain_score g columns :
  grid_wf g -> NoDup columns ->
  (forall c, c ∈ columns -> c < grid_width g) ->
  tiles_positive (tile_matrix g) ->
  let g1 := fst (chain_bottom_up_merge columns g) in
  tiles_positive (tile_matrix g1)
  /\ score g1 = (score g + sum_Z (pass_merges (tile_matrix g) columns))%Z
  /\ (score g <= score g1)%Z.
Proof.
  intros Hwf Hnd Hin Hp.
  destruct (chain_fold_spec columns g false Hwf Hnd Hin) as (m1 & E & Hd & Hcs & Ho & _).
  unfold chain_bottom_up_merge. rewrite E. cbn.
  pose proof (pass_merges_positive _ _ _ columns Hwf Hp Hin) as Hpm.
  apply sum_Z_nonneg in Hpm.
  split; [|split; [reflexivity|lia]].
  apply (tiles_positive_columns _ _ m1 Hd). intros c Hc.
  pose proof (proj1 (tiles_positive_columns _ _ _ Hwf) Hp c Hc) as Hcol.
  destruct (decide (c ∈ columns)) as [Hin'|Hout].
  - rewrite (Hcs c Hin'). apply merged_column_positive, Hcol.
  - rewrite (Ho c Hout). exact Hcol.
Qed.

Lemma drop_unsupported_positive visited h w m :
  tiles_positive m -> tiles_positive (drop_unsupported visited h w m).
Proof.
  unfold drop_unsupported.
  assert (Htile : forall c m0 r, tiles_positive m0 ->
                                 tiles_positive (drop_tile visited c m0 r)).
  { intros c m0 r Hp. unfold drop_tile.
    destruct (_ && _); [|exact Hp]. destruct (_ =? _); [exact Hp|].
    apply set_tile_positive; [|exact I]. apply set_tile_positive; [exact Hp|].
    destruct (tile_at m0 r c) as [t|] eqn:Ht; [|exact I].
    exact (tiles_positive_at _ _ _ _ Hp Ht). }
  assert (Hcol : forall c rows m0, tiles_positive m0 ->
                   tiles_positive (fold_left (drop_tile visited c) rows m0)).
  { intros c rows. induction rows as [|r rows IH]; intros m0 Hp; simpl; auto. }
  generalize (seq 0 w). intros cols. revert m.
  induction cols as [|c cols IH]; intros m Hp; simpl; [exact Hp|].
  apply IH. apply Hcol. exact Hp.
Qed.

Lemma fall_positive g fuel g' :
  fall_disconnected_tiles fuel g = Some g' ->
  tiles_positive (tile_matrix g) ->
  tiles_positive (tile_matrix g') /\ score g' = score g.
Proof.
  unfold fall_disconnected_tiles.
  destruct ((grid_height g =? 0) && (0 <? grid_width g)); [discriminate|].
  destruct (flood_fill _ _ _ _) as [v|]; [|discriminate].
  intros H Hp. injection H as <-. simpl. split; [|reflexivity].
  apply drop_unsupported_positive, Hp.
Qed.

Lemma fall_inv g fuel g' :
  fall_disconnected_tiles fuel g = Some g' -> grid_wf g ->
  grid_wf g' /\ grid_height g' = grid_height g /\ grid_width g' = grid_width g.
Proof.
  unfold fall_disconnected_tiles.
  destruct ((grid_height g =? 0) && (0 <? grid_width g)); [discriminate|].
  destruct (flood_fill _ _ _ _) as [v|]; [|discriminate].
  intros H Hwf. injection H as <-. simpl. split; [|auto].
  apply drop_unsupported_spec, Hwf.
Qed.

Lemma merge_settle_loop_score columns inner fuel :
  forall g g',
    merge_settle_loop inner fuel columns g = Some g' ->
    grid_wf g -> NoDup columns ->
    (forall c, c ∈ columns -> c < grid_width g) ->
    tiles_positive (tile_matrix g) ->
    tiles_positive (tile_matrix g') /\ (score g <= score g')%Z.
Proof.
  induction fuel as [|fuel IH]; intros g g' H Hwf Hnd Hin Hp; [discriminate|].
  simpl in H.
  destruct (chain_count g columns Hwf Hnd Hin) as (Hwf1 & Hh1 & Hw1 & _).
  destruct (chain_score g columns Hwf Hnd Hin Hp) as (Hp1 & _ & Hs1).
  destruct (chain_bottom_up_merge columns g) as [g1 merged]. simpl in *.
  destruct merged.
  - destruct (fall_disconnected_tiles inner g1) as [g2|] eqn:E; [|discriminate].
    destruct (fall_inv _ _ _ E Hwf1) as (Hwf2 & Hh2 & Hw2).
    destruct (fall_positive _ _ _ E Hp1) as [Hp2 Hs2].
    destruct (IH g2 g' H Hwf2 Hnd) as [Hp' Hs'].
    + rewrite Hw2, Hw1. exact Hin.
    + exact Hp2.
    + split; [exact Hp'|lia].
  - injection H as <-. split; [exact Hp1|exact Hs1].
Qed.

Lemma row_score_nonneg r : Forall cell_positive r -> (0 <= row_score r)%Z.
Proof.
  intros Hp. unfold row_score.
  assert (H : forall acc, (0 <= acc)%Z ->
    (0 <= fold_left (fun acc o => match o with Some t => acc + number t
                                            | None => acc end) r acc)%Z).
  { induction Hp as [|o r Ho _ IH]; intros acc Hacc; simpl; [exact Hacc|].
    apply IH. destruct o; simpl in Ho; lia. }
  apply H. lia.
Qed.

Lemma cleared_positive w m :
  tiles_positive m ->
  tiles_positive (cleared_matrix w m) /\ (0 <= cleared_value m)%Z.
Proof.
  intros Hp. unfold cleared_matrix, cleared_value. split.
  - apply Forall_app. split.
    + induction Hp as [|r m Hr _ IH]; simpl; [constructor|].
      destruct (row_full r); [exact IH|constructor; assumption].
    + apply Forall_replicate. apply Forall_replicate. exact I.
  - induction Hp as [|r m Hr _ IH]; simpl; [lia|].
    destruct (row_full r); [|exact IH].
    change (sum_Z (row_score <$> r :: full_rows m))
      with (row_score r + sum_Z (row_score <$> full_rows m))%Z.
    pose proof (row_score_nonneg r Hr). lia.
Qed.

Lemma lock_tiles_positive tiles blc g :
  tiles_positive tiles -> tiles_positive (tile_matrix g) ->
  tiles_positive (tile_matrix (fst (lock_tiles tiles blc g))).
Proof.
  intros Ht Hp. unfold lock_tiles.
  assert (Hcell : forall col st row,
            tiles_positive (tile_matrix (fst st)) ->
            tiles_positive
              (tile_matrix (fst (lock_cell (length tiles) tiles blc col st row)))).
  { intros col st row Hst. unfold lock_cell.
    destruct (tile_at tiles row col) as [tile|] eqn:E; [|exact Hst].
    destruct (is_inside _ _ _); simpl; [|exact Hst].
    apply set_tile_positive; [exact Hst|].
    exact (tiles_positive_at _ _ _ _ Ht E). }
  assert (Hrows : forall col rows st,
            tiles_positive (tile_matrix (fst st)) ->
            tiles_positive
              (tile_matrix (fst (fold_left (lock_cell (length tiles) tiles blc col)
                                           rows st)))).
  { intros col rows. induction rows as [|r rows IH]; intros st Hst; simpl; auto. }
  generalize (seq 0 (length (row_at tiles 0))). intros cols.
  assert (Hcols : forall st,
            tiles_positive (tile_matrix (fst st)) ->
            tiles_positive
              (tile_matrix (fst (fold_left (fun st col =>
                 fold_left (lock_cell (length tiles) tiles blc col)
                           (seq 0 (length tiles)) st) cols st)))).
  { induction cols as [|c cols IH]; intros st Hst; simpl; auto. }
  apply Hcols. exact Hp.
Qed.

(** A call of [update_grid] with fuel for its clearing phase keeps the
    grid well formed and its tiles positive, and does not lower the score. *)
Lemma update_grid_score fuel tiles blc g g' b :
  update_grid fuel tiles blc g = Some (g', b) ->
  grid_wf g -> 0 < grid_height g -> 0 < grid_width g ->
  2 * grid_height g <= fuel ->
  tiles_positive (tile_matrix g) -> tiles_positive tiles ->
  grid_wf g' /\ grid_height g' = grid_height g /\ grid_width g' = grid_width g
  /\ tiles_positive (tile_matrix g') /\ (score g <= score g')%Z.
Proof.
  intros H Hwf Hh Hw Hfuel Hp Ht.
  destruct (lock_tiles_spec g tiles blc Hwf) as [(Hwf1 & Hh1 & Hw1 & Hs1 & Hnd & Hin) _].
  pose proof (lock_tiles_positive tiles blc g Ht Hp) as Hp1.
  rewrite (update_grid_unfold _ _ _ _ (update_grid_nonempty _ _ _ _ _ H)) in H.
  destruct (lock_tiles tiles blc g) as [g1 aff]. simpl in *.
  destruct (game_over g1).
  { injection H as <- <-. repeat split; auto; try apply Hwf1. lia. }
  destruct (merge_settle_loop fuel fuel aff g1) as [g2|] eqn:E2; [|discriminate].
  assert (Hin1 : forall c, c ∈ aff -> c < grid_width g1)
    by (rewrite Hw1; exact Hin).
  destruct (merge_settle_loop_score _ _ _ _ _ E2 Hwf1 Hnd Hin1 Hp1) as [Hp2 Hs2].
  assert (Hinv2 : grid_wf g2 /\ grid_height g2 = grid_height g1
                  /\ grid_width g2 = grid_width g1).
  { destruct (merge_settle_loop_spec aff (max fuel (settle_fuel g1))
                (max fuel (S (count_occupied (tile_matrix g1)))) g1 Hwf1 Hnd Hin1)
      as (g2' & E2' & Hwf2 & Hh2 & Hw2 & _); [lia|lia|lia|lia|].
    rewrite (merge_settle_loop_mono _ _ _ _ _ _ _ E2 (Nat.le_max_l _ _)
               (Nat.le_max_l _ _)) in E2'.
    injection E2' as <-. auto. }
  destruct Hinv2 as (Hwf2 & Hh2 & Hw2).
  rewrite (clear_full_rows_spec g2 fuel Hwf2) in H by lia.
  destruct (cleared_positive (grid_width g2) _ Hp2) as [Hp3 Hv3].
  set (g3 := mkGrid _ _ _ _ _) in *.
  destruct (fall_disconnected_tiles fuel g3) as [g4|] eqn:E4; [|discriminate].
  injection H as <- <-.
  assert (Hwf3 : grid_wf g3) by (apply cleared_matrix_dims, Hwf2).
  destruct (fall_inv _ _ _ E4 Hwf3) as (Hwf4 & Hh4 & Hw4).
  destruct (fall_positive _ _ _ E4 Hp3) as [Hp4 Hs4].
  split; [exact Hwf4|]. split; [simpl in *; congruence|].
  split; [simpl in *; congruence|]. split; [exact Hp4|].
  rewrite Hs4. simpl. lia.
Qed.

Lemma run_call_score gh gw st c :
  grid_wf (snd st) -> 0 < grid_height (snd st) -> 0 < grid_width (snd st) ->
  tiles_positive (tile_matrix (snd st)) -> call_positive c ->
  exists F st',
    (forall fuel, F <= fuel -> run_call gh gw fuel st c = Some st')
    /\ grid_wf (snd st') /\ grid_height (snd st') = grid_height (snd st)
    /\ grid_width (snd st') = grid_width (snd st)
    /\ tiles_positive (tile_matrix (snd st'))
    /\ (score (snd st) <= score (snd st'))%Z.
Proof.
  intros Hwf Hh Hw Hp Hc. destruct st as [p g]. simpl in *.
  destruct c as [d| |tiles blc]; simpl in *.
  - exists 0, (fst (Tetromino.move gw p d g), g). simpl.
    split; [reflexivity|]. split; [exact Hwf|]. repeat split; auto. lia.
  - exists 0, (fst (Tetromino.rotate gh gw p g), g). simpl.
    split; [reflexivity|]. split; [exact Hwf|]. repeat split; auto. lia.
  - destruct Hc as [Hne Hc].
    destruct (game_over (fst (lock_tiles tiles blc g))) eqn:Hgo.
    + destruct (lock_tiles_spec g tiles blc Hwf) as [(Hwf1 & Hh1 & Hw1 & Hs1 & _) _].
      pose proof (lock_tiles_positive tiles blc g Hc Hp) as Hp1.
      exists 0, (p, fst (lock_tiles tiles blc g)). simpl.
      split; [|split; [exact Hwf1|split; [exact Hh1|split;
                 [exact Hw1|split; [exact Hp1|lia]]]]].
      intros fuel _. rewrite (update_grid_unfold _ _ _ _ Hne).
      destruct (lock_tiles tiles blc g) as [g1 aff]. simpl in *. rewrite Hgo.
      reflexivity.
    + destruct (update_grid_resolves g tiles blc Hwf Hh Hw Hne Hgo)
        as (F & g' & Hwf' & Hh' & Hw' & Hres).
      exists (max F (2 * grid_height g)), (p, g'). simpl.
      assert (E : update_grid (max F (2 * grid_height g)) tiles blc g = Some (g', false))
        by (apply Hres; lia).
      destruct (update_grid_score _ _ _ _ _ _ E Hwf Hh Hw ltac:(lia) Hp Hc)
        as (_ & _ & _ & Hp' & Hs').
      split; [|auto].
      intros fuel Hfuel. rewrite Hres by lia. reflexivity.
Qed.

Lemma run_calls_score gh gw calls :
  forall st,
    grid_wf (snd st) -> 0 < grid_height (snd st) -> 0 < grid_width (snd st) ->
    tiles_positive (tile_matrix (snd st)) -> Forall call_positive calls ->
    exists F st',
      (forall fuel, F <= fuel -> run_calls gh gw fuel st calls = Some st')
      /\ (score (snd st) <= score (snd st'))%Z.
Proof.
  induction calls as [|c calls IH]; intros st Hwf Hh Hw Hp Hc.
  - exists 0, st. split; [reflexivity|lia].
  - apply Forall_cons in Hc as [Hc Hcs].
    destruct (run_call_score gh gw st c Hwf Hh Hw Hp Hc)
      as (F1 & st1 & Hrun1 & Hwf1 & Hh1 & Hw1 & Hp1 & Hs1).
    destruct (IH st1 Hwf1 ltac:(lia) ltac:(lia) Hp1 Hcs) as (F2 & st2 & Hrun2 & Hs2).
    exists (max F1 F2), st2. split; [|lia].
    intros fuel Hfuel. simpl. rewrite Hrun1 by lia. apply Hrun2. lia.
Qed.

Lemma GameGrid_init_positive h w :
  tiles_positive (tile_matrix (GameGrid_init h w)).
Proof. simpl. apply Forall_replicate. apply Forall_replicate. exact I. Qed.

(** C9.  A fresh grid has score 0 and no tile.  From a grid of the
    declared dimensions with at least one row and one column and positive
    tiles, every sequence of calls of move, rotate and [update_grid] (each
    footprint with at least one row and positive tiles) runs to its end and
    leaves a score that is not lower.
    The score changes in two places only: a merge pass adds the doubled
    value of each merge, and the clearing phase adds the tile values of
    the rows it removes; locking, the gravity pass, move and rotate leave
    it as it is. *)
Theorem score_never_decreases gh gw st calls :
  grid_wf (snd st) -> 0 < grid_height (snd st) -> 0 < grid_width (snd st) ->
  tiles_positive (tile_matrix (snd st)) -> Forall call_positive calls ->
  let g := snd st in
  (forall h w, score (GameGrid_init h w) = 0%Z
               /\ grid_wf (GameGrid_init h w)
               /\ tiles_positive (tile_matrix (GameGrid_init h w)))
  /\ (exists F st',
        (forall fuel, F <= fuel -> run_calls gh gw fuel st calls = Some st')
        /\ (score g <= score (snd st'))%Z)
  /\ (forall columns,
        NoDup columns -> (forall c, c ∈ columns -> c < grid_width g) ->
        score (fst (chain_bottom_up_merge columns g))
        = (score g + sum_Z (pass_merges (tile_matrix g) columns))%Z
        /\ Forall (fun v => 0 < v)%Z (pass_merges (tile_matrix g) columns))
  /\ (forall fuel,
        2 * grid_height g <= fuel ->
        score <$> (fst <$> clear_full_rows_return_columns fuel g)
        = Some (score g + cleared_value (tile_matrix g))%Z
        /\ (0 <= cleared_value (tile_matrix g))%Z)
  /\ (forall fuel g', fall_disconnected_tiles fuel g = Some g' -> score g' = score g)
  /\ (forall tiles blc, score (fst (lock_tiles tiles blc g)) = score g)
  /\ (forall fuel d, snd <$> run_call gh gw fuel st (call_move d) = Some g)
  /\ (forall fuel, snd <$> run_call gh gw fuel st call_rotate = Some g).
Proof.
  intros Hwf Hh Hw Hp Hc g.
  split; [|split; [|split; [|split; [|split; [|split; [|split]]]]]].
  - intros h w. split; [reflexivity|].
    split; [apply replicate_dims|apply GameGrid_init_positive].
  - apply run_calls_score; assumption.
  - intros columns Hnd Hin.
    destruct (chain_score g columns Hwf Hnd Hin Hp) as (_ & Hs & _).
    split; [exact Hs|]. exact (pass_merges_positive _ _ _ columns Hwf Hp Hin).
  - intros fuel Hfuel. rewrite (clear_full_rows_spec g fuel Hwf Hw Hfuel).
    split; [reflexivity|]. apply (cleared_positive (grid_width g)), Hp.
  - intros fuel g' E. apply (fall_positive _ _ _ E Hp).
  - intros tiles blc.
    destruct (lock_tiles_spec g tiles blc Hwf) as [(_ & _ & _ & Hs & _) _]. exact Hs.
  - intros fuel d. reflexivity.
  - intros fuel. reflexivity.
Qed.

Lemma score_never_decreases_witness :
  let p := Tetromino.mk shape_O [[Some (mkTile 2); Some (mkTile 2)];
                                 [Some (mkTile 2); Some (mkTile 2)]] (mkPoint 0 3) in
  let st := (p, GameGrid_init 4 2) in
  let calls := [call_move dir_down; call_rotate;
                call_update_grid [[Some (mkTile 2); Some (mkTile 2)];
                                  [Some (mkTile 2); Some (mkTile 2)]] (mkPoint 0 0)] in
  grid_wf (snd st) /\ 0 < grid_height (snd st) /\ 0 < grid_width (snd st)
  /\ tiles_positive (tile_matrix (snd st)) /\ Forall call_positive calls
  /\ exists F st',
       (forall fuel, F <= fuel -> run_calls 4 2 fuel st calls = Some st')
       /\ (score (snd st) <= score (snd st'))%Z.
Proof.
  intros p st calls.
  assert (Hwf : grid_wf (snd st)) by apply replicate_dims.
  assert (Hh : 0 < grid_height (snd st)) by (simpl; lia).
  assert (Hw : 0 < grid_width (snd st)) by (simpl; lia).
  assert (Hp : tiles_positive (tile_matrix (snd st))) by apply GameGrid_init_positive.
  assert (Hc : Forall call_positive calls).
  { repeat constructor; simpl; try lia. discriminate. }
  repeat (split; [assumption|]).
  destruct (score_never_decreases 4 2 st calls Hwf Hh Hw Hp Hc) as (_ & Hrun & _).
  exact Hrun.
Defined.

(** ** Idempotence of the gravity pass *)

(** C3.  Two floating tiles on top of each other over an empty cell: the
    first gravity pass moves the lower one only, because the upper one is
    looked at first and still rests on it; the second pass then moves the
    upper one.  The two passes do not leave the same grid. *)
Theorem fall_disconnected_tiles_twice :
  let g0 := mkGrid 4 1 [[None]; [Some (mkTile 2)]; [Some (mkTile 4)]; [None]]
                   false 0 in
  let g1 := mkGrid 4 1 [[Some (mkTile 2)]; [None]; [Some (mkTile 4)]; [None]]
                   false 0 in
  let g2 := mkGrid 4 1 [[Some (mkTile 2)]; [Some (mkTile 4)]; [None]; [None]]
                   false 0 in
  grid_wf g0
  /\ (forall fuel, settle_fuel g0 <= fuel -> fall_disconnected_tiles fuel g0 = Some g1)
  /\ (forall fuel, settle_fuel g0 <= fuel -> fall_disconnected_tiles fuel g1 = Some g2)
  /\ tile_matrix g1 <> tile_matrix g2.
Proof.
  intros g0 g1 g2.
  split; [concrete_dims|].
  split; [|split].
  - intros fuel Hfuel.
    apply (fall_disconnected_tiles_mono g0 5); [reflexivity|exact Hfuel].
  - intros fuel Hfuel.
    apply (fall_disconnected_tiles_mono g1 5); [reflexivity|exact Hfuel].
  - discriminate.
Qed.

(** ** Shapes and spawning *)

(** C6, as the code has it.  The constructor builds, for every shape and
    every outcome of the draws, a square matrix of the listed size whose
    occupied cells are exactly the listed pairs read as (col, row), row 0
    being the top row of the local matrix; each pattern has exactly four
    occupied cells. *)
Theorem tetromino_patterns gh gw shape choice raw p :
  Tetromino.init gh gw shape choice raw = Some p ->
  Tetromino.type p = shape
  /\ matrix_dims (Tetromino.size shape) (Tetromino.size shape) (Tetromino.tile_matrix p)
  /\ occupancy (Tetromino.tile_matrix p)
     = pattern_col_row_top (Tetromino.size shape) (listed_cells shape)
  /\ count_occupied (Tetromino.tile_matrix p) = 4.
Proof.
  unfold Tetromino.init. intros H.
  destruct (randint _ _ _) as [rx|]; [|discriminate].
  injection H as <-. simpl.
  destruct shape; (split; [reflexivity|]);
    (split; [split; [reflexivity|repeat constructor]|]);
    split; reflexivity.
Qed.

Lemma tetromino_patterns_witness :
  Tetromino.init 20 16 shape_I (fun _ => false) 5
  = Some (Tetromino.mk shape_I
            [[None; Some (mkTile 2); None; None];
             [None; Some (mkTile 2); None; None];
             [None; Some (mkTile 2); None; None];
             [None; Some (mkTile 2); None; None]] (mkPoint 5 19))
  /\ occupancy [[None; Some (mkTile 2); None; None];
                [None; Some (mkTile 2); None; None];
                [None; Some (mkTile 2); None; None];
                [None; Some (mkTile 2); None; None]]
     = pattern_col_row_top 4 (listed_cells shape_I).
Proof.
  assert (E : Tetromino.init 20 16 shape_I (fun _ => false) 5
              = Some (Tetromino.mk shape_I
                        [[None; Some (mkTile 2); None; None];
                         [None; Some (mkTile 2); None; None];
                         [None; Some (mkTile 2); None; None];
                         [None; Some (mkTile 2); None; None]] (mkPoint 5 19)))
    by reflexivity.
  split; [exact E|].
  destruct (tetromino_patterns 20 16 shape_I (fun _ => false) 5 _ E) as (_ & _ & Ho & _).
  exact Ho.
Defined.

(** Read as (row, col) with row 0 the bottom, the listed cells of the I
    piece lie in one row; the constructor fills one column. *)
Lemma tetromino_pattern_reading_counterexample :
  ~ (forall gh gw shape choice raw p,
        Tetromino.init gh gw shape choice raw = Some p ->
        occupancy (Tetromino.tile_matrix p)
        = pattern_row_col_bottom (Tetromino.size shape) (listed_cells shape)).
Proof.
  intros H.
  specialize (H 20 16 shape_I (fun _ => false) 5 _ eq_refl).
  discriminate H.
Qed.

Lemma randint_range a b raw :
  (a <= b)%Z ->
  exists v, randint a b raw = Some v /\ (a <= v <= b)%Z.
Proof.
  intros Hab. unfold randint.
  replace (b <? a)%Z with false by (symmetry; apply Z.ltb_ge; exact Hab).
  eexists. split; [reflexivity|].
  pose proof (Z.mod_pos_bound (Z.of_nat raw) (b - a + 1) ltac:(lia)). lia.
Qed.

Lemma randint_onto a b v :
  (a <= v <= b)%Z -> randint a b (Z.to_nat (v - a)) = Some v.
Proof.
  intros Hv. unfold randint.
  replace (b <? a)%Z with false by (symmetry; apply Z.ltb_ge; lia).
  rewrite Z2Nat.id by lia. rewrite Z.mod_small by lia. f_equal. lia.
Qed.

(** C7, as the code has it.  When the board is at least as wide as the
    local matrix, the constructor returns a piece whose bottom-left X lies
    in [0, W - n] for every outcome of the draw (and every value of that
    range is the outcome of some draw); its bottom-left Y is H - 1, which
    puts the bottom row of the local matrix on the top row of the board
    and the topmost occupied cell above the board: at row H for O, Z, S, J
    and L, H + 1 for T and H + 2 for I. *)
Theorem spawn_position gh gw shape choice raw :
  Tetromino.size shape <= gw ->
  let n := Z.of_nat (Tetromino.size shape) in
  exists p,
    Tetromino.init gh gw shape choice raw = Some p
    /\ (0 <= x (Tetromino.bottom_left_cell p) <= Z.of_nat gw - n)%Z
    /\ y (Tetromino.bottom_left_cell p) = (Z.of_nat gh - 1)%Z
    /\ (forall c, y (Tetromino.get_cell_position p (Tetromino.size shape - 1) c)
                  = (Z.of_nat gh - 1)%Z)
    /\ topmost_y p = Some (Z.of_nat gh - 1 + top_offset shape)%Z
    /\ (forall v, (0 <= v <= Z.of_nat gw - n)%Z ->
          exists raw' p',
            Tetromino.init gh gw shape choice raw' = Some p'
            /\ x (Tetromino.bottom_left_cell p') = v).
Proof.
  intros Hn n.
  destruct (randint_range 0 (Z.of_nat gw - n) raw ltac:(unfold n; lia)) as (rx & E & Hrx).
  unfold Tetromino.init. fold n. rewrite E.
  eexists. split; [reflexivity|]. simpl.
  split; [exact Hrx|]. split; [reflexivity|].
  split; [|split].
  - intros c. unfold Tetromino.get_cell_position. simpl.
    destruct shape; simpl; lia.
  - unfold topmost_y, Tetromino.get_cell_position.
    destruct shape; simpl; f_equal; lia.
  - intros v Hv. pose proof (randint_onto 0 (Z.of_nat gw - n) v Hv) as Ev.
    exists (Z.to_nat (v - 0)). rewrite Ev.
    eexists. split; reflexivity.
Qed.

Lemma spawn_position_witness :
  Tetromino.size shape_T <= 16
  /\ exists p,
       Tetromino.init 20 16 shape_T (fun _ => true) 100 = Some p
       /\ (0 <= x (Tetromino.bottom_left_cell p) <= 13)%Z
       /\ topmost_y p = Some 21%Z.
Proof.
  assert (Hn : Tetromino.size shape_T <= 16) by (simpl; lia).
  split; [exact Hn|].
  destruct (spawn_position 20 16 shape_T (fun _ => true) 100 Hn)
    as (p & E & Hx & _ & _ & Htop & _).
  exists p. split; [exact E|]. split; [exact Hx|exact Htop].
Defined.

(** The topmost occupied cell of a fresh I piece on a board of 20 rows
    lies on row 22, not on the top row 19. *)
Lemma spawn_top_row_counterexample :
  ~ (forall gh gw shape choice raw p,
        Tetromino.size shape <= gw ->
        Tetromino.init gh gw shape choice raw = Some p ->
        topmost_y p = Some (Z.of_nat gh - 1)%Z).
Proof.
  intros H.
  assert (Hn : Tetromino.size shape_I <= 16) by (simpl; lia).
  specialize (H 20 16 shape_I (fun _ => false) 5 _ Hn eq_refl).
  discriminate H.
Qed.

(** ** Rotation *)

Lemma transpose_lookup h n (m : Matrix) :
  matrix_dims h n m ->
  forall r, r < n ->
    exists col, transpose n m !! r = Some col /\ length col = h
                /\ forall c, col !! c = (m !! c ≫= fun row => row !! r).
Proof.
  revert h. induction m as [|row rest IH]; intros h [Hl Hall] r Hr; simpl in *.
  - exists []. rewrite lookup_replicate_2 by exact Hr. subst h. auto.
  - apply Forall_cons in Hall as [Hrow Hrest].
    destruct (IH (length rest) (conj eq_refl Hrest) r Hr) as (col & Hcol & Hlen & Hc).
    destruct (lookup_lt_is_Some_2 row r ltac:(lia)) as [x0 Hx].
    exists (x0 :: col). rewrite lookup_zip_with, Hx, Hcol. simpl.
    split; [reflexivity|]. split; [lia|].
    intros [|c]; simpl; [symmetry; exact Hx|apply Hc].
Qed.

Lemma transpose_dims h n (m : Matrix) :
  matrix_dims h n m -> matrix_dims n h (transpose n m).
Proof.
  intros Hd.
  assert (Hlen : length (transpose n m) = n).
  { destruct Hd as [_ Hall]. clear h. induction m as [|row rest IH]; simpl.
    - apply length_replicate.
    - apply Forall_cons in Hall as [Hrow Hrest].
      rewrite length_zip_with, (IH Hrest). lia. }
  split; [exact Hlen|]. apply Forall_lookup. intros r col Hcol.
  destruct (transpose_lookup h n m Hd r) as (col' & Hcol' & Hl & _).
  - rewrite <- Hlen. eapply lookup_lt_Some; eauto.
  - congruence.
Qed.

(** [rot90_clockwise] turns the matrix a quarter turn clockwise: the cell
    [(r, c)] of the result is the cell [(n - 1 - c, r)] of the matrix. *)
Lemma rot90_clockwise_lookup n (m : Matrix) r c :
  matrix_dims n n m -> r < n -> c < n ->
  tile_at (rot90_clockwise m) r c = tile_at m (n - 1 - c) r.
Proof.
  intros Hd Hr Hc. pose proof Hd as [Hl _].
  unfold rot90_clockwise, flip_columns, tile_at. rewrite Hl.
  destruct (transpose_lookup n n m Hd r Hr) as (col & Hcol & Hlen & Hlk).
  rewrite list_lookup_fmap, Hcol. simpl.
  rewrite reverse_lookup by lia. rewrite Hlen, Hlk.
  replace (n - S c) with (n - 1 - c) by lia.
  destruct (m !! (n - 1 - c)); reflexivity.
Qed.

Lemma rot90_clockwise_dims n (m : Matrix) :
  matrix_dims n n m -> matrix_dims n n (rot90_clockwise m).
Proof.
  intros Hd. pose proof Hd as [Hl _]. unfold rot90_clockwise, flip_columns.
  rewrite Hl. destruct (transpose_dims n n m Hd) as [Hlen Hall].
  split; [rewrite length_fmap; exact Hlen|].
  apply Forall_fmap. eapply Forall_impl; [exact Hall|].
  intros row Hrow. simpl. rewrite length_reverse. exact Hrow.
Qed.

Lemma count_zip_with_cons (row : list (option Tile)) :
  forall T : Matrix,
    length row = length T ->
    count_occupied (zip_with cons row T) = count_row row + count_occupied T.
Proof.
  induction row as [|o row IH]; intros [|col T] Hlen; simpl in *; try lia.
  rewrite IH by lia. unfold count_occupied, count_row. simpl. lia.
Qed.

Lemma count_occupied_transpose h n (m : Matrix) :
  matrix_dims h n m -> count_occupied (transpose n m) = count_occupied m.
Proof.
  revert h. induction m as [|row rest IH]; intros h Hd; simpl.
  - clear. induction n as [|n IHn]; simpl; auto.
  - destruct Hd as [Hl Hall]. apply Forall_cons in Hall as [Hrow Hrest].
    pose proof (transpose_dims (length rest) n rest (conj eq_refl Hrest)) as [Hlen _].
    rewrite count_zip_with_cons by lia.
    rewrite (IH (length rest) (conj eq_refl Hrest)). reflexivity.
Qed.

Lemma count_occupied_flip (m : Matrix) :
  count_occupied (flip_columns m) = count_occupied m.
Proof.
  unfold flip_columns, count_occupied.
  induction m as [|row rest IH]; [reflexivity|].
  rewrite fmap_cons.
  change (count_row (reverse row) + sum_list_with count_row (reverse <$> rest)
          = count_row row + sum_list_with count_row rest).
  rewrite IH. unfold count_row. rewrite sum_list_with_reverse. reflexivity.
Qed.

Lemma count_occupied_rot90 n (m : Matrix) :
  matrix_dims n n m -> count_occupied (rot90_clockwise m) = count_occupied m.
Proof.
  intros Hd. unfold rot90_clockwise. rewrite count_occupied_flip.
  destruct Hd as [Hl Hall]. rewrite Hl.
  apply (count_occupied_transpose n n m). split; assumption.
Qed.

Lemma rotated_cell_ok_spec gh gw p g rotated n r c :
  Tetromino.rotated_cell_ok gh gw p g rotated n r c = true
  <-> (is_some (tile_at rotated r c) = true ->
       let new_x := (x (Tetromino.bottom_left_cell p) + Z.of_nat c)%Z in
       let new_y := (y (Tetromino.bottom_left_cell p) + (Z.of_nat n - 1) - Z.of_nat r)%Z in
       (0 <= new_x < Z.of_nat gw)%Z /\ (0 <= new_y < Z.of_nat gh)%Z
       /\ is_occupied g new_y new_x = false).
Proof.
  unfold Tetromino.rotated_cell_ok.
  destruct (tile_at rotated r c) as [t|]; simpl; [|split; [discriminate|auto]].
  set (new_x := (x (Tetromino.bottom_left_cell p) + Z.of_nat c)%Z).
  set (new_y := (y (Tetromino.bottom_left_cell p) + (Z.of_nat n - 1) - Z.of_nat r)%Z).
  destruct (Z.ltb_spec new_x 0); simpl; [split; [discriminate|intros H'; specialize (H' eq_refl); lia]|].
  destruct (Z.geb_spec new_x (Z.of_nat gw)); simpl;
    [split; [discriminate|intros H'; specialize (H' eq_refl); lia]|].
  destruct (Z.ltb_spec new_y 0); simpl; [split; [discriminate|intros H'; specialize (H' eq_refl); lia]|].
  destruct (Z.geb_spec new_y (Z.of_nat gh)); simpl;
    [split; [discriminate|intros H'; specialize (H' eq_refl); lia]|].
  destruct (is_occupied g new_y new_x); split; try discriminate; auto.
  intros H'. destruct (H' eq_refl) as (_ & _ & ?). discriminate.
Qed.

Lemma rotate_check gh gw p g :
  let m := Tetromino.tile_matrix p in
  let n := length m in
  forallb (fun r =>
     forallb (Tetromino.rotated_cell_ok gh gw p g (rot90_clockwise m) n r)
             (seq 0 n)) (seq 0 n) = true
  <-> rotation_fits gh gw p g (rot90_clockwise m).
Proof.
  intros m n. unfold rotation_fits. fold m. fold n.
  rewrite forallb_forall. split.
  - intros H r c Hr Hc Hsome.
    specialize (H r ltac:(apply in_seq; lia)).
    rewrite forallb_forall in H. specialize (H c ltac:(apply in_seq; lia)).
    apply rotated_cell_ok_spec in H; [exact H|exact Hsome].
  - intros H r Hr. apply in_seq in Hr. apply forallb_forall. intros c Hc.
    apply in_seq in Hc. apply rotated_cell_ok_spec. intros Hsome.
    apply H; [lia|lia|exact Hsome].
Qed.

(** C8.  For a piece with a square matrix, [rotate] works on the quarter
    turn clockwise of the matrix (its transpose with the columns reversed:
    cell [(r, c)] of the result is cell [(n - 1 - c, r)] of the matrix).
    When every occupied cell of the turned matrix, mapped at the current
    bottom-left cell, is inside the board and on a free cell of the grid,
    the turned matrix is committed, the bottom-left cell stays and true is
    returned; otherwise false is returned and the piece is as before.
    Either way the number of occupied cells is the same. *)
Theorem rotate_spec gh gw p g :
  let m := Tetromino.tile_matrix p in
  let n := length m in
  matrix_dims n n m ->
  let rotated := rot90_clockwise m in
  rotated = flip_columns (transpose n m)
  /\ (forall r c, r < n -> c < n -> tile_at rotated r c = tile_at m (n - 1 - c) r)
  /\ (rotation_fits gh gw p g rotated ->
      Tetromino.rotate gh gw p g
      = (Tetromino.mk (Tetromino.type p) rotated (Tetromino.bottom_left_cell p), true))
  /\ (~ rotation_fits gh gw p g rotated ->
      Tetromino.rotate gh gw p g = (p, false))
  /\ count_occupied (Tetromino.tile_matrix (fst (Tetromino.rotate gh gw p g)))
     = count_occupied m.
Proof.
  intros m n Hd rotated. subst rotated n m.
  pose proof (rot90_clockwise_dims _ _ Hd) as [Hlen _].
  pose proof (rotate_check gh gw p g) as Hcheck. cbv zeta in Hcheck.
  split; [reflexivity|]. split; [|split; [|split]].
  - intros r c Hr Hc. apply rot90_clockwise_lookup; assumption.
  - intros Hfit. apply Hcheck in Hfit. unfold Tetromino.rotate.
    rewrite Hlen, Hfit. reflexivity.
  - intros Hno. unfold Tetromino.rotate. rewrite Hlen.
    destruct (forallb _ _) eqn:E in |- *; [|reflexivity].
    exfalso. apply Hno, Hcheck, E.
  - unfold Tetromino.rotate. rewrite Hlen.
    destruct (forallb _ _); simpl; [|reflexivity].
    apply (count_occupied_rot90 _ _ Hd).
Qed.

Lemma rotate_spec_witness :
  let p := Tetromino.mk shape_T
             [[None; Some (mkTile 2); None];
              [Some (mkTile 2); Some (mkTile 4); Some (mkTile 2)];
              [None; None; None]] (mkPoint 3 5) in
  let g := GameGrid_init 20 16 in
  matrix_dims 3 3 (Tetromino.tile_matrix p)
  /\ rot90_clockwise (Tetromino.tile_matrix p)
     = [[None; Some (mkTile 2); None];
        [None; Some (mkTile 4); Some (mkTile 2)];
        [None; Some (mkTile 2); None]]
  /\ count_occupied (Tetromino.tile_matrix (fst (Tetromino.rotate 20 16 p g))) = 4.
Proof.
  intros p g.
  assert (Hd : matrix_dims 3 3 (Tetromino.tile_matrix p))
    by concrete_dims.
  split; [exact Hd|]. split; [reflexivity|].
  destruct (rotate_spec 20 16 p g Hd) as (_ & _ & _ & _ & Hcount).
  rewrite Hcount. reflexivity.
Defined.

(** * Further properties of the engine *)

(** ** Cells of an updated matrix *)

Lemma tile_at_set_tile_row_ne m r c v r' c' :
  r <> r' -> tile_at (set_tile m r c v) r' c' = tile_at m r' c'.
Proof.
  intros Hne. unfold tile_at, set_tile.
  rewrite list_lookup_alter_ne by exact Hne. reflexivity.
Qed.

Lemma tile_at_set_tile_col_ne m r c v r' c' :
  c <> c' -> tile_at (set_tile m r c v) r' c' = tile_at m r' c'.
Proof.
  intros Hne. unfold tile_at, set_tile.
  destruct (decide (r = r')) as [->|Hr].
  - rewrite list_lookup_alter_eq. destruct (m !! r') as [row|]; simpl; [|reflexivity].
    rewrite list_lookup_insert_ne by exact Hne. reflexivity.
  - rewrite list_lookup_alter_ne by exact Hr. reflexivity.
Qed.

Lemma tile_at_set_tile_eq h w m r c v :
  matrix_dims h w m -> r < h -> c < w -> tile_at (set_tile m r c v) r c = v.
Proof.
  intros Hd Hr Hc. destruct (matrix_cell h w m r c Hd Hr Hc) as (row & o & Hrow & Ho).
  unfold tile_at, set_tile. rewrite list_lookup_alter_eq, Hrow. simpl.
  rewrite list_lookup_insert_eq by (apply lookup_lt_Some in Ho; exact Ho).
  reflexivity.
Qed.

Lemma tile_at_inside h w m r c t :
  matrix_dims h w m -> tile_at m r c = Some t -> r < h /\ c < w.
Proof.
  intros Hd Ht. unfold tile_at in Ht.
  destruct (m !! r) as [row|] eqn:Hrow; [|discriminate].
  destruct (row !! c) as [o|] eqn:Ho; [|discriminate].
  pose proof (matrix_dims_row h w m r row Hd Hrow) as Hlen.
  apply lookup_lt_Some in Hrow. apply lookup_lt_Some in Ho.
  destruct Hd as [Hh _]. lia.
Qed.

(** ** The value on the board *)

Lemma row_score_cons o r : row_score (o :: r) = (cell_value o + row_score r)%Z.
Proof.
  unfold row_score at 1. simpl. rewrite row_score_acc. destruct o; simpl; lia.
Qed.

Lemma row_score_insert r :
  forall c old v,
    r !! c = Some old ->
    row_score (<[c := v]> r) = (row_score r - cell_value old + cell_value v)%Z.
Proof.
  induction r as [|o r IH]; intros c old v Hc; [discriminate|].
  destruct c as [|c]; simpl in *.
  - injection Hc as ->. rewrite !row_score_cons. lia.
  - rewrite !row_score_cons, (IH c old v Hc). lia.
Qed.

Lemma board_value_cons r m : board_value (r :: m) = (row_score r + board_value m)%Z.
Proof. reflexivity. Qed.

Lemma board_value_app m1 m2 :
  board_value (m1 ++ m2) = (board_value m1 + board_value m2)%Z.
Proof. unfold board_value. rewrite fmap_app. apply sum_Z_app. Qed.

Lemma board_value_set_tile m :
  forall r c a v,
    tile_at m r c = Some a ->
    board_value (set_tile m r c v) = (board_value m - number a + cell_value v)%Z.
Proof.
  induction m as [|row m IH]; intros r c a v Ha; [discriminate|].
  destruct r as [|r].
  - unfold tile_at in Ha. simpl in Ha.
    destruct (row !! c) as [o|] eqn:Ho; [|discriminate]. subst o.
    change (set_tile (row :: m) 0 c v) with (<[c := v]> row :: m).
    rewrite !board_value_cons, (row_score_insert row c (Some a) v Ho). simpl. lia.
  - change (set_tile (row :: m) (S r) c v) with (row :: set_tile m r c v).
    rewrite !board_value_cons, (IH r c a v Ha). lia.
Qed.

Lemma merge_column_from_value col fuel :
  forall row g merged,
    board_value (tile_matrix (fst (merge_column_from fuel row col g merged)))
    = board_value (tile_matrix g).
Proof.
  induction fuel as [|fuel IH]; intros row g merged; [reflexivity|].
  simpl. destruct (row <? grid_height g - 1); [|reflexivity].
  destruct (tile_at (tile_matrix g) row col) as [a|] eqn:Ha; [|apply IH].
  destruct (tile_at (tile_matrix g) (row + 1) col) as [b|] eqn:Hb; [|apply IH].
  destruct (number a =? number b)%Z eqn:Hab; [|apply IH].
  rewrite IH. cbn [tile_matrix with_score with_matrix].
  apply Z.eqb_eq in Hab.
  rewrite (board_value_set_tile _ (row + 1) col b None).
  - rewrite (board_value_set_tile _ row col a _ Ha).
    unfold merge_with. rewrite Hab, Z.eqb_refl. simpl. lia.
  - rewrite tile_at_set_tile_row_ne by lia. exact Hb.
Qed.

Lemma chain_value columns :
  forall st,
    board_value (tile_matrix (fst (fold_left (fun st col => merge_column col st)
                                             columns st)))
    = board_value (tile_matrix (fst st)).
Proof.
  induction columns as [|c cs IH]; intros st; [reflexivity|].
  simpl. rewrite IH. unfold merge_column. apply merge_column_from_value.
Qed.

(** X1.  The merge pass does not depend on the order in which the [for]
    loop meets the columns of the set: two listings of the same
    duplicate-free set of columns inside the grid give the same grid, the
    same score and the same flag. *)
Theorem merge_pass_order_independent g cs cs' :
  grid_wf g -> NoDup cs -> (forall c, c ∈ cs -> c < grid_width g) ->
  cs ≡ₚ cs' ->
  chain_bottom_up_merge cs' g = chain_bottom_up_merge cs g.
Proof. apply chain_bottom_up_merge_order. Qed.

Lemma merge_pass_order_independent_witness :
  let g := mkGrid 2 2 [[Some (mkTile 2); Some (mkTile 4)];
                       [Some (mkTile 2); Some (mkTile 4)]] false 0 in
  grid_wf g /\ NoDup [0; 1] /\ (forall c, c ∈ [0; 1] -> c < grid_width g)
  /\ [0; 1] ≡ₚ [1; 0]
  /\ chain_bottom_up_merge [1; 0] g = chain_bottom_up_merge [0; 1] g.
Proof.
  intros g.
  assert (Hwf : grid_wf g) by concrete_dims.
  assert (Hnd : NoDup [0; 1]).
  { apply NoDup_cons. split; [|apply NoDup_singleton].
    intros H. apply list_elem_of_singleton in H. discriminate. }
  assert (Hin : forall c, c ∈ [0; 1] -> c < grid_width g).
  { intros c Hc. apply elem_of_cons in Hc as [->|Hc]; [simpl; lia|].
    apply list_elem_of_singleton in Hc. subst c. simpl. lia. }
  assert (Hp : [0; 1] ≡ₚ [1; 0]) by apply Permutation_swap.
  split; [exact Hwf|]. split; [exact Hnd|]. split; [exact Hin|].
  split; [exact Hp|].
  exact (merge_pass_order_independent g [0; 1] [1; 0] Hwf Hnd Hin Hp).
Defined.

(** X2.  A merge pass over columns inside the grid (outside it Python
    raises [IndexError]) keeps the sum of the numbers on the board: a merge
    turns two tiles of value [v] into one tile of value [2 v], and nothing
    else is written. *)
Theorem merge_pass_keeps_board_value g columns :
  grid_wf g -> (forall c, c ∈ columns -> c < grid_width g) ->
  board_value (tile_matrix (fst (chain_bottom_up_merge columns g)))
  = board_value (tile_matrix g).
Proof. intros _ _. unfold chain_bottom_up_merge. apply chain_value. Qed.

Lemma merge_pass_keeps_board_value_witness :
  let g := mkGrid 3 1 [[Some (mkTile 2)]; [Some (mkTile 2)]; [Some (mkTile 4)]]
                  false 0 in
  grid_wf g /\ (forall c, c ∈ [0] -> c < grid_width g)
  /\ tile_matrix (fst (chain_bottom_up_merge [0] g))
     = [[Some (mkTile 4)]; [None]; [Some (mkTile 4)]]
  /\ board_value (tile_matrix (fst (chain_bottom_up_merge [0] g))) = 8%Z.
Proof.
  intros g.
  assert (Hwf : grid_wf g) by concrete_dims.
  assert (Hin : forall c, c ∈ [0] -> c < grid_width g).
  { intros c Hc. apply list_elem_of_singleton in Hc. subst c. simpl. lia. }
  split; [exact Hwf|]. split; [exact Hin|]. split; [reflexivity|].
  rewrite (merge_pass_keeps_board_value g [0] Hwf Hin). reflexivity.
Defined.

(** ** The state the merge-settle loop ends in *)

Lemma chain_quiet g columns :
  grid_wf g -> NoDup columns -> (forall c, c ∈ columns -> c < grid_width g) ->
  snd (chain_bottom_up_merge columns g) = false ->
  chain_bottom_up_merge columns g = (g, false)
  /\ ~ merge_possible (tile_matrix g) columns.
Proof.
  intros Hwf Hnd Hin Hflag.
  destruct (chain_fold_spec columns g false Hwf Hnd Hin) as (m1 & E & Hd & Hcs & Ho & _).
  unfold chain_bottom_up_merge in *. rewrite E in *. simpl in Hflag.
  destruct (pass_merges (tile_matrix g) columns) eqn:Hpm; [|discriminate].
  assert (Hm : m1 = tile_matrix g).
  { apply (matrix_eq_columns _ _ _ _ Hd Hwf). intros c _.
    destruct (decide (c ∈ columns)) as [Hc|Hc]; [|apply Ho, Hc].
    rewrite (Hcs c Hc).
    apply (column_merges_nil _ (pass_merges_nil _ _ Hpm c Hc)). }
  split.
  - rewrite Hm. destruct g; simpl. rewrite Z.add_0_r. reflexivity.
  - intros (c & r & Hc & a & b & Hr & Hr1 & Hab).
    destruct (column_merges_nil _ (pass_merges_nil _ _ Hpm c Hc)) as [_ Hno].
    rewrite tile_at_Some in Hr, Hr1.
    replace (r + 1) with (S r) in Hr1 by lia.
    exact (Hno r a b Hr Hr1 Hab).
Qed.

Lemma merge_settle_loop_exit columns inner fuel :
  forall g g',
    merge_settle_loop inner fuel columns g = Some g' ->
    grid_wf g -> NoDup columns ->
    (forall c, c ∈ columns -> c < grid_width g) ->
    chain_bottom_up_merge columns g' = (g', false)
    /\ ~ merge_possible (tile_matrix g') columns.
Proof.
  induction fuel as [|fuel IH]; intros g g' Hrun Hwf Hnd Hin; [discriminate|].
  simpl in Hrun.
  pose proof (chain_count g columns Hwf Hnd Hin) as (Hwf1 & Hh1 & Hw1 & _).
  pose proof (chain_quiet g columns Hwf Hnd Hin) as Hq.
  destruct (chain_bottom_up_merge columns g) as [g1 merged] eqn:E.
  simpl in Hwf1, Hh1, Hw1, Hq. destruct merged.
  - destruct (fall_disconnected_tiles inner g1) as [g2|] eqn:Ef; [|discriminate].
    destruct (fall_inv g1 inner g2 Ef Hwf1) as (Hwf2 & _ & Hw2).
    apply (IH g2 g' Hrun Hwf2 Hnd). intros c Hc. rewrite Hw2, Hw1. auto.
  - injection Hrun as <-. destruct (Hq eq_refl) as [Eq Hno].
    injection Eq as ->. rewrite E. auto.
Qed.

(** X3.  The merge-settle loop of [update_grid] ends, and in the grid it
    ends with no affected column holds two stacked tiles of equal value:
    one more merge pass changes nothing and reports no merge. *)
Theorem merge_settle_loop_leaves_no_pair g columns inner fuel :
  grid_wf g -> 0 < grid_height g -> NoDup columns ->
  (forall c, c ∈ columns -> c < grid_width g) ->
  settle_fuel g <= inner -> 0 < fuel -> count_occupied (tile_matrix g) <= fuel ->
  exists g',
    merge_settle_loop inner fuel columns g = Some g'
    /\ ~ merge_possible (tile_matrix g') columns
    /\ chain_bottom_up_merge columns g' = (g', false).
Proof.
  intros Hwf Hh Hnd Hin Hinner Hfuel Hcount.
  destruct (merge_settle_loop_spec columns inner fuel g Hwf Hnd Hin Hh Hinner
              Hfuel Hcount) as (g' & Hrun & _).
  exists g'. split; [exact Hrun|].
  destruct (merge_settle_loop_exit columns inner fuel g g' Hrun Hwf Hnd Hin).
  auto.
Qed.

Lemma merge_settle_loop_leaves_no_pair_witness :
  let g := mkGrid 4 1 [[Some (mkTile 2)]; [Some (mkTile 2)]; [Some (mkTile 4)]; [None]]
                  false 0 in
  grid_wf g /\ 0 < grid_height g /\ NoDup [0]
  /\ (forall c, c ∈ [0] -> c < grid_width g)
  /\ settle_fuel g <= 5 /\ 0 < 3 /\ count_occupied (tile_matrix g) <= 3
  /\ exists g',
       merge_settle_loop 5 3 [0] g = Some g'
       /\ ~ merge_possible (tile_matrix g') [0].
Proof.
  intros g.
  assert (Hwf : grid_wf g) by concrete_dims.
  assert (Hh : 0 < grid_height g) by (simpl; lia).
  assert (Hnd : NoDup [0]) by apply NoDup_singleton.
  assert (Hin : forall c, c ∈ [0] -> c < grid_width g).
  { intros c Hc. apply list_elem_of_singleton in Hc. subst c. simpl. lia. }
  assert (Hinner : settle_fuel g <= 5) by (vm_compute; lia).
  assert (Hfuel : 0 < 3) by lia.
  assert (Hcount : count_occupied (tile_matrix g) <= 3) by (vm_compute; lia).
  split; [exact Hwf|]. split; [exact Hh|]. split; [exact Hnd|].
  split; [exact Hin|]. split; [exact Hinner|]. split; [exact Hfuel|].
  split; [exact Hcount|].
  destruct (merge_settle_loop_leaves_no_pair g [0] 5 3 Hwf Hh Hnd Hin Hinner
              Hfuel Hcount) as (g' & Hrun & Hno & _).
  exists g'. split; [exact Hrun|exact Hno].
Defined.

(** ** What row clearing leaves *)

Lemma kept_rows_not_full m : Forall (fun r => row_full r = false) (kept_rows m).
Proof.
  induction m as [|r m IH]; simpl; [constructor|].
  destruct (row_full r) eqn:Hr; [exact IH|]. constructor; assumption.
Qed.

Lemma no_full_rows m :
  Forall (fun r => row_full r = false) m -> full_rows m = [] /\ kept_rows m = m.
Proof.
  induction 1 as [|r m Hr _ [IHf IHk]]; simpl; [auto|].
  rewrite Hr, IHf, IHk. auto.
Qed.

Lemma cleared_matrix_not_full w m :
  0 < w -> Forall (fun r => row_full r = false) (cleared_matrix w m).
Proof.
  intros Hw. unfold cleared_matrix. apply Forall_app. split.
  - apply kept_rows_not_full.
  - apply Forall_replicate. apply empty_row_not_full. exact Hw.
Qed.

Lemma count_row_full r : row_full r = true -> count_row r = length r.
Proof.
  induction r as [|o r IH]; simpl; [reflexivity|].
  intros H. apply andb_true_iff in H as [Ho Hr].
  unfold count_row in *. simpl. rewrite (IH Hr).
  destruct o; [reflexivity|discriminate].
Qed.

Lemma count_occupied_app m1 m2 :
  count_occupied (m1 ++ m2) = count_occupied m1 + count_occupied m2.
Proof. unfold count_occupied. apply sum_list_with_app. Qed.

Lemma count_empty_rows k w : count_occupied (replicate k (replicate w None)) = 0.
Proof.
  induction k as [|k IH]; [reflexivity|].
  unfold count_occupied in *. simpl. rewrite IH.
  assert (E : count_row (replicate w None) = 0).
  { clear. induction w as [|w IH]; [reflexivity|]. unfold count_row in *. simpl.
    exact IH. }
  rewrite E. reflexivity.
Qed.

Lemma count_kept_full w m :
  Forall (fun r => length r = w) m ->
  count_occupied (kept_rows m) + w * length (full_rows m) = count_occupied m.
Proof.
  induction 1 as [|r m Hr _ IH]; simpl; [lia|].
  unfold count_occupied in *.
  destruct (row_full r) eqn:Hf; simpl.
  - rewrite (count_row_full r Hf), Hr. lia.
  - lia.
Qed.

Lemma board_value_empty_rows k w : board_value (replicate k (replicate w None)) = 0%Z.
Proof.
  induction k as [|k IH]; [reflexivity|].
  simpl. rewrite board_value_cons, IH.
  assert (E : row_score (replicate w None) = 0%Z).
  { clear. induction w as [|w IH]; [reflexivity|]. simpl.
    rewrite row_score_cons, IH. reflexivity. }
  rewrite E. reflexivity.
Qed.

Lemma board_value_kept_full m :
  (board_value (kept_rows m) + cleared_value m = board_value m)%Z.
Proof.
  induction m as [|r m IH]; [reflexivity|].
  unfold cleared_value in *. cbn [kept_rows full_rows].
  destruct (row_full r); rewrite ?fmap_cons, ?board_value_cons;
    change (sum_Z (row_score r :: (row_score <$> full_rows m)))
      with (row_score r + sum_Z (row_score <$> full_rows m))%Z; lia.
Qed.

Lemma add_columns_elem c l :
  forall s : gset nat,
    c ∈ fold_left (fun s col => s ∪ {[col]}) l s <-> c ∈ s \/ c ∈ l.
Proof.
  induction l as [|a l IH]; intros s; simpl.
  - split; [auto|]. intros [H|H]; [exact H|inversion H].
  - rewrite IH, elem_of_union, elem_of_singleton, elem_of_cons. tauto.
Qed.

Lemma add_all_columns_elem c w (s : gset nat) :
  c ∈ add_all_columns w s <-> c ∈ s \/ c < w.
Proof.
  unfold add_all_columns. rewrite add_columns_elem, elem_of_seq.
  split; (intros [H|H]; [left; exact H|right; lia]).
Qed.

Lemma iter_add_all_columns_elem c w k :
  c ∈ Nat.iter k (add_all_columns w) (∅ : gset nat) <-> c < w /\ k <> 0.
Proof.
  induction k as [|k IH]; simpl.
  - rewrite elem_of_empty. split; [tauto|]. intros [_ H]. congruence.
  - rewrite add_all_columns_elem, IH. split.
    + intros [[H _]|H]; split; auto.
    + intros [H _]. right. exact H.
Qed.

Lemma row_at_lookup (m : Matrix) r row : m !! r = Some row -> row_at m r = row.
Proof. intros H. unfold row_at. rewrite H. reflexivity. Qed.

(** X4.  Row clearing returns (with fuel for twice the height) and leaves
    no full row on a board with at least one column; a second call right
    after it changes nothing and returns the empty set. *)
Theorem clear_full_rows_leaves_none g fuel :
  grid_wf g -> 0 < grid_width g -> 2 * grid_height g <= fuel ->
  exists g' cols,
    clear_full_rows_return_columns fuel g = Some (g', cols)
    /\ (forall r, r < grid_height g ->
          row_full (row_at (tile_matrix g') r) = false)
    /\ clear_full_rows_return_columns fuel g' = Some (g', ∅).
Proof.
  intros Hwf Hw Hfuel.
  rewrite (clear_full_rows_spec g fuel Hwf Hw Hfuel).
  eexists _, _. split; [reflexivity|].
  pose proof (cleared_matrix_not_full (grid_width g) (tile_matrix g) Hw) as Hnf.
  pose proof (cleared_matrix_dims _ _ _ Hwf) as Hd.
  set (m1 := cleared_matrix (grid_width g) (tile_matrix g)) in *.
  split.
  - intros r Hr. cbn [tile_matrix].
    destruct (lookup_lt_is_Some_2 m1 r) as [row Hrow];
      [destruct Hd as [-> _]; exact Hr|].
    rewrite (row_at_lookup _ _ _ Hrow).
    exact (proj1 (Forall_lookup _ _) Hnf r row Hrow).
  - set (g' := mkGrid _ _ m1 _ _).
    assert (Hwf' : grid_wf g') by exact Hd.
    rewrite (clear_full_rows_spec g' fuel Hwf' Hw Hfuel).
    destruct (no_full_rows _ Hnf) as [Ef Ek].
    unfold g'. cbn [tile_matrix grid_height grid_width game_over score].
    unfold cleared_matrix, cleared_value. rewrite Ef, Ek.
    simpl. rewrite app_nil_r, Z.add_0_r. reflexivity.
Qed.

Lemma clear_full_rows_leaves_none_witness :
  let g := mkGrid 3 2 [[Some (mkTile 2); Some (mkTile 4)];
                       [Some (mkTile 2); Some (mkTile 8)];
                       [None; Some (mkTile 4)]] false 1 in
  grid_wf g /\ 0 < grid_width g /\ 2 * grid_height g <= 6
  /\ exists g' cols,
       clear_full_rows_return_columns 6 g = Some (g', cols)
       /\ clear_full_rows_return_columns 6 g' = Some (g', ∅).
Proof.
  intros g.
  assert (Hwf : grid_wf g) by concrete_dims.
  assert (Hw : 0 < grid_width g) by (simpl; lia).
  assert (Hfuel : 2 * grid_height g <= 6) by (simpl; lia).
  split; [exact Hwf|]. split; [exact Hw|]. split; [exact Hfuel|].
  destruct (clear_full_rows_leaves_none g 6 Hwf Hw Hfuel) as (g' & cols & E & _ & E').
  exists g', cols. split; [exact E|exact E'].
Defined.

(** X5.  What row clearing removes is what it scores: each cleared row
    takes [grid_width] tiles off the board, and the score grows by exactly
    the value that leaves the board. *)
Theorem clear_full_rows_accounting g fuel g' cols :
  grid_wf g -> 0 < grid_width g -> 2 * grid_height g <= fuel ->
  clear_full_rows_return_columns fuel g = Some (g', cols) ->
  count_occupied (tile_matrix g')
    + grid_width g * length (full_rows (tile_matrix g))
  = count_occupied (tile_matrix g)
  /\ (board_value (tile_matrix g') + (score g' - score g)
      = board_value (tile_matrix g))%Z.
Proof.
  intros Hwf Hw Hfuel Hrun.
  rewrite (clear_full_rows_spec g fuel Hwf Hw Hfuel) in Hrun.
  injection Hrun as <- _. cbn [tile_matrix score].
  unfold cleared_matrix. split.
  - rewrite count_occupied_app, count_empty_rows.
    pose proof (count_kept_full (grid_width g) (tile_matrix g) (proj2 Hwf)). lia.
  - rewrite board_value_app, board_value_empty_rows.
    pose proof (board_value_kept_full (tile_matrix g)). lia.
Qed.

Lemma clear_full_rows_accounting_witness :
  let g := mkGrid 3 2 [[Some (mkTile 2); Some (mkTile 4)];
                       [Some (mkTile 2); Some (mkTile 8)];
                       [None; Some (mkTile 4)]] false 1 in
  let g' := mkGrid 3 2 [[None; Some (mkTile 4)]; [None; None]; [None; None]]
                   false 17 in
  grid_wf g /\ 0 < grid_width g /\ 2 * grid_height g <= 6
  /\ exists cols,
       clear_full_rows_return_columns 6 g = Some (g', cols)
       /\ count_occupied (tile_matrix g') + 2 * 2 = 5.
Proof.
  intros g g'.
  assert (Hwf : grid_wf g) by concrete_dims.
  assert (Hw : 0 < grid_width g) by (simpl; lia).
  assert (Hfuel : 2 * grid_height g <= 6) by (simpl; lia).
  assert (Hrun : exists cols, clear_full_rows_return_columns 6 g = Some (g', cols)).
  { rewrite (clear_full_rows_spec g 6 Hwf Hw Hfuel). eexists. reflexivity. }
  destruct Hrun as [cols Hrun].
  split; [exact Hwf|]. split; [exact Hw|]. split; [exact Hfuel|].
  exists cols. split; [exact Hrun|].
  exact (proj1 (clear_full_rows_accounting g 6 g' cols Hwf Hw Hfuel Hrun)).
Defined.

(** X6.  The set [clear_full_rows_return_columns] returns holds every
    column of the grid when at least one row was cleared and is empty
    otherwise. *)
Theorem clear_full_rows_returned_columns g fuel g' cols :
  grid_wf g -> 0 < grid_width g -> 2 * grid_height g <= fuel ->
  clear_full_rows_return_columns fuel g = Some (g', cols) ->
  forall c, c ∈ cols <-> c < grid_width g /\ full_rows (tile_matrix g) <> [].
Proof.
  intros Hwf Hw Hfuel Hrun c.
  rewrite (clear_full_rows_spec g fuel Hwf Hw Hfuel) in Hrun.
  injection Hrun as _ <-. rewrite iter_add_all_columns_elem.
  destruct (full_rows (tile_matrix g)); simpl; split; intros [H1 H2]; split;
    auto; congruence.
Qed.

Lemma clear_full_rows_returned_columns_witness :
  let g := mkGrid 2 2 [[Some (mkTile 2); Some (mkTile 4)]; [None; Some (mkTile 4)]]
                  false 0 in
  grid_wf g /\ 0 < grid_width g /\ 2 * grid_height g <= 4
  /\ exists g' cols,
       clear_full_rows_return_columns 4 g = Some (g', cols)
       /\ (1 ∈ cols <-> 1 < grid_width g /\ full_rows (tile_matrix g) <> []).
Proof.
  intros g.
  assert (Hwf : grid_wf g) by concrete_dims.
  assert (Hw : 0 < grid_width g) by (simpl; lia).
  assert (Hfuel : 2 * grid_height g <= 4) by (simpl; lia).
  split; [exact Hwf|]. split; [exact Hw|]. split; [exact Hfuel|].
  destruct (clear_full_rows_return_columns 4 g) as [[g' cols]|] eqn:E.
  - exists g', cols. split; [reflexivity|].
    exact (clear_full_rows_returned_columns g 4 g' cols Hwf Hw Hfuel E 1).
  - rewrite (clear_full_rows_spec g 4 Hwf Hw Hfuel) in E. discriminate.
Defined.

(** ** The flood fill *)

Lemma visited_at_mark_eq h w v r c :
  matrix_dims h w v -> r < h -> c < w -> visited_at (mark_visited v r c) r c = true.
Proof.
  intros Hd Hr Hc. destruct (matrix_cell h w v r c Hd Hr Hc) as (row & b & Hrow & Hb).
  unfold visited_at, mark_visited. rewrite list_lookup_alter_eq, Hrow. simpl.
  rewrite list_lookup_insert_eq by (apply lookup_lt_Some in Hb; exact Hb).
  reflexivity.
Qed.

Lemma visited_at_mark_ne v r c r' c' :
  r <> r' \/ c <> c' ->
  visited_at (mark_visited v r c) r' c' = visited_at v r' c'.
Proof.
  intros Hne. unfold visited_at, mark_visited.
  destruct (decide (r = r')) as [->|Hr].
  - rewrite list_lookup_alter_eq. destruct (v !! r') as [row|]; simpl; [|reflexivity].
    rewrite list_lookup_insert_ne by (destruct Hne; congruence). reflexivity.
  - rewrite list_lookup_alter_ne by exact Hr. reflexivity.
Qed.

Lemma visited_at_mark_mono h w v r c r' c' :
  matrix_dims h w v -> r < h -> c < w ->
  visited_at v r' c' = true -> visited_at (mark_visited v r c) r' c' = true.
Proof.
  intros Hd Hr Hc Hv.
  destruct (decide (r = r')) as [->|Hr'].
  - destruct (decide (c = c')) as [->|Hc'].
    + eapply visited_at_mark_eq; eauto.
    + rewrite visited_at_mark_ne by auto. exact Hv.
  - rewrite visited_at_mark_ne by auto. exact Hv.
Qed.

Lemma visited_at_mark_inv v r c r' c' :
  visited_at (mark_visited v r c) r' c' = true ->
  visited_at v r' c' = true \/ (r' = r /\ c' = c).
Proof.
  intros Hv.
  destruct (decide (r = r')) as [->|Hr'].
  - destruct (decide (c = c')) as [->|Hc']; [auto|].
    rewrite visited_at_mark_ne in Hv by auto. auto.
  - rewrite visited_at_mark_ne in Hv by auto. auto.
Qed.

Lemma visited_at_fresh h w r c :
  visited_at (replicate h (replicate w false)) r c = false.
Proof.
  unfold visited_at.
  destruct (replicate h (replicate w false) !! r) as [row|] eqn:Hrow; [|reflexivity].
  apply lookup_replicate_1 in Hrow as [-> _].
  destruct (replicate w false !! c) as [b|] eqn:Hb; [|reflexivity].
  apply lookup_replicate_1 in Hb as [-> _]. reflexivity.
Qed.

Lemma grounded_occupied m r c : grounded m r c -> is_some (tile_at m r c) = true.
Proof. destruct 1; assumption. Qed.

Lemma is_some_inside h w (m : Matrix) r c :
  matrix_dims h w m -> is_some (tile_at m r c) = true -> r < h /\ c < w.
Proof.
  intros Hd Ho. destruct (tile_at m r c) as [t|] eqn:Ht; [|discriminate].
  exact (tile_at_inside h w m r c t Hd Ht).
Qed.

Lemma direction_neighbours g r c d :
  d ∈ directions ->
  is_inside g (Z.of_nat r + fst d) (Z.of_nat c + snd d) = true ->
  neighbours r c (Z.to_nat (Z.of_nat r + fst d)) (Z.to_nat (Z.of_nat c + snd d)).
Proof.
  intros Hd Hin. apply is_inside_bounds in Hin as (_ & _ & Hr & Hc).
  unfold directions, neighbours in *.
  repeat (apply elem_of_cons in Hd as [->|Hd]; [simpl in *; lia|]).
  inversion Hd.
Qed.

Lemma closed_at_mono m (v v' : Visited) r c :
  (forall r1 c1, visited_at v r1 c1 = true -> visited_at v' r1 c1 = true) ->
  closed_at m v r c -> closed_at m v' r c.
Proof. intros Hmono Hcl r' c' Hn Ho. apply Hmono. exact (Hcl r' c' Hn Ho). Qed.

Lemma visit_neighbour_inv g r c v q d :
  fill_inv g v q (Some (r, c)) -> visited_at v r c = true -> d ∈ directions ->
  let st' := visit_neighbour g r c (v, q) d in
  fill_inv g (fst st') (snd st') (Some (r, c))
  /\ handled g (fst st') r c d
  /\ (forall r1 c1, visited_at v r1 c1 = true -> visited_at (fst st') r1 c1 = true).
Proof.
  intros Hsame Hrc Hdir. pose proof Hsame as (Hd & Hsound & Hseed & Hq & Hcl).
  unfold visit_neighbour, handled. cbn [fst snd].
  set (nr := (Z.of_nat r + fst d)%Z). set (nc := (Z.of_nat c + snd d)%Z).
  destruct (is_inside g nr nc) eqn:Hin; cbn [andb];
    [|split; [exact Hsame|split; [discriminate|auto]]].
  destruct (visited_at v (Z.to_nat nr) (Z.to_nat nc)) eqn:Hv; cbn [negb fst snd];
    [split; [exact Hsame|split; [intros _ _; exact Hv|auto]]|].
  destruct (is_some (tile_at (tile_matrix g) (Z.to_nat nr) (Z.to_nat nc))) eqn:Ho;
    cbn [fst snd]; [|split; [exact Hsame|split; [discriminate|auto]]].
  pose proof (is_inside_bounds g nr nc Hin) as (Hr & Hc & _).
  assert (Hmono : forall r1 c1, visited_at v r1 c1 = true ->
                    visited_at (mark_visited v (Z.to_nat nr) (Z.to_nat nc)) r1 c1 = true).
  { intros r1 c1. eapply visited_at_mark_mono; eauto. }
  split; [|split; [intros _ _; eapply visited_at_mark_eq; eauto|exact Hmono]].
  split; [apply alter_insert_dims, Hd|].
  split; [|split; [|split]].
  - intros r1 c1 H1. apply visited_at_mark_inv in H1 as [H1|[-> ->]]; [auto|].
    apply (grounded_step _ r c); [auto| |exact Ho].
    exact (direction_neighbours g r c d Hdir Hin).
  - intros c1 H1. apply Hmono. auto.
  - intros r1 c1 H1. apply elem_of_app in H1 as [H1|H1]; [apply Hmono; auto|].
    apply list_elem_of_singleton in H1. injection H1 as -> ->.
    eapply visited_at_mark_eq; eauto.
  - intros r1 c1 H1. apply visited_at_mark_inv in H1 as [H1|[-> ->]].
    + destruct (Hcl r1 c1 H1) as [H|[H|H]].
      * left. apply elem_of_app. auto.
      * auto.
      * right. right. exact (closed_at_mono _ _ _ _ _ Hmono H).
    + left. apply elem_of_app. right. apply list_elem_of_singleton. reflexivity.
Qed.

Lemma visit_all_inv g r c ds :
  forall v q,
    fill_inv g v q (Some (r, c)) -> visited_at v r c = true ->
    (forall d, d ∈ ds -> d ∈ directions) ->
    let st' := fold_left (visit_neighbour g r c) ds (v, q) in
    fill_inv g (fst st') (snd st') (Some (r, c))
    /\ (forall d, d ∈ ds -> handled g (fst st') r c d)
    /\ (forall r1 c1, visited_at v r1 c1 = true -> visited_at (fst st') r1 c1 = true).
Proof.
  induction ds as [|d ds IH]; intros v q Hinv Hrc Hds; cbn [fold_left].
  - split; [exact Hinv|]. split; [intros d Hd; inversion Hd|auto].
  - destruct (visit_neighbour_inv g r c v q d Hinv Hrc) as (Hinv1 & Hh1 & Hm1);
      [apply Hds; left|].
    destruct (visit_neighbour g r c (v, q) d) as [v1 q1]. cbn [fst snd] in *.
    destruct (IH v1 q1 Hinv1 (Hm1 r c Hrc)) as (Hinv2 & Hh2 & Hm2);
      [intros d' Hd'; apply Hds; right; exact Hd'|].
    split; [exact Hinv2|]. split; [|auto].
    intros d' Hd'. apply elem_of_cons in Hd' as [->|Hd']; [|auto].
    intros Hin Ho. apply Hm2. exact (Hh1 Hin Ho).
Qed.

Lemma handled_closed g v r c :
  grid_wf g -> r < grid_height g -> c < grid_width g ->
  (forall d, d ∈ directions -> handled g v r c d) ->
  closed_at (tile_matrix g) v r c.
Proof.
  intros Hwf Hr Hc Hh r' c' Hn Ho.
  destruct (is_some_inside _ _ _ _ _ Hwf Ho) as [Hr' Hc'].
  assert (Hd : exists d, d ∈ directions
                         /\ (Z.of_nat r + fst d = Z.of_nat r')%Z
                         /\ (Z.of_nat c + snd d = Z.of_nat c')%Z).
  { unfold directions. destruct Hn as [[E1 [E2|E2]]|[E1 [E2|E2]]].
    - exists (0, 1)%Z. split; [set_solver|simpl; lia].
    - exists (0, -1)%Z. split; [set_solver|simpl; lia].
    - exists (1, 0)%Z. split; [set_solver|simpl; lia].
    - exists (-1, 0)%Z. split; [set_solver|simpl; lia]. }
  destruct Hd as (d & Hd & Er & Ec).
  pose proof (Hh d Hd) as H. unfold handled in H. cbv zeta in H.
  rewrite Er, Ec, !Nat2Z.id in H. apply H; [|exact Ho].
  unfold is_inside. rewrite !andb_true_iff.
  repeat split; try apply Z.leb_le; try apply Z.ltb_lt; lia.
Qed.

Lemma flood_fill_inv g fuel :
  grid_wf g ->
  forall v q v',
    fill_inv g v q None -> flood_fill fuel g v q = Some v' ->
    fill_inv g v' [] None.
Proof.
  intros Hwf. induction fuel as [|fuel IH]; intros v q v' Hinv Hrun.
  - destruct q as [|[r c] q]; [|discriminate]. injection Hrun as <-. exact Hinv.
  - destruct q as [|[r c] q]; [injection Hrun as <-; exact Hinv|].
    rewrite flood_fill_step in Hrun.
    destruct Hinv as (Hd & Hsound & Hseed & Hq & Hcl).
    assert (Hrc : visited_at v r c = true) by (apply Hq; left).
    assert (Hinv0 : fill_inv g v q (Some (r, c))).
    { split; [exact Hd|]. split; [exact Hsound|]. split; [exact Hseed|].
      split; [intros r1 c1 H1; apply Hq; right; exact H1|].
      intros r1 c1 H1. destruct (Hcl r1 c1 H1) as [H|[H|H]]; [|discriminate|auto].
      apply elem_of_cons in H as [H|H]; [right; left; f_equal; symmetry; exact H|auto]. }
    destruct (visit_all_inv g r c directions v q Hinv0 Hrc) as (Hinv1 & Hh & Hm);
      [auto|].
    refine (IH _ _ v' _ Hrun).
    destruct Hinv1 as (Hd1 & Hsound1 & Hseed1 & Hq1 & Hcl1).
    split; [exact Hd1|]. split; [exact Hsound1|]. split; [exact Hseed1|].
    split; [exact Hq1|].
    intros r1 c1 H1. destruct (Hcl1 r1 c1 H1) as [H|[H|H]]; [auto| |auto].
    injection H as <- <-. right. right.
    assert (Hin : r < grid_height g /\ c < grid_width g).
    { apply (is_some_inside _ _ (tile_matrix g)); [exact Hwf|].
      apply grounded_occupied, Hsound, Hrc. }
    apply handled_closed; [exact Hwf|apply Hin|apply Hin|exact Hh].
Qed.

Lemma seed_inv g n :
  grid_wf g -> 0 < grid_height g ->
  forall k v q,
    k + n <= grid_width g ->
    matrix_dims (grid_height g) (grid_width g) v ->
    (forall r c, visited_at v r c = true ->
       r = 0 /\ is_some (tile_at (tile_matrix g) 0 c) = true /\ (0, c) ∈ q) ->
    (forall r c, (r, c) ∈ q -> visited_at v r c = true) ->
    (forall c, c < k -> is_some (tile_at (tile_matrix g) 0 c) = true ->
               visited_at v 0 c = true) ->
    let st' := fold_left (seed_bottom_row g) (seq k n) (v, q) in
    matrix_dims (grid_height g) (grid_width g) (fst st')
    /\ (forall r c, visited_at (fst st') r c = true ->
          r = 0 /\ is_some (tile_at (tile_matrix g) 0 c) = true /\ (0, c) ∈ snd st')
    /\ (forall r c, (r, c) ∈ snd st' -> visited_at (fst st') r c = true)
    /\ (forall c, c < k + n -> is_some (tile_at (tile_matrix g) 0 c) = true ->
                  visited_at (fst st') 0 c = true).
Proof.
  intros Hwf Hh. induction n as [|n IH]; intros k v q Hk Hd Hv Hq Hs; cbn [seq fold_left].
  - cbn [fst snd]. rewrite Nat.add_0_r. auto.
  - replace (k + S n) with (S k + n) by lia. cbv zeta.
    assert (E : seed_bottom_row g (v, q) k
                = if is_some (tile_at (tile_matrix g) 0 k)
                  then (mark_visited v 0 k, q ++ [(0, k)]) else (v, q))
      by reflexivity.
    rewrite E. clear E.
    destruct (is_some (tile_at (tile_matrix g) 0 k)) eqn:Ho.
    + apply IH; [lia|apply alter_insert_dims, Hd| | |].
      * intros r c H. apply visited_at_mark_inv in H as [H|[-> ->]].
        -- destruct (Hv r c H) as (-> & Hoc & Hin).
           split; [reflexivity|]. split; [exact Hoc|]. apply elem_of_app. auto.
        -- split; [reflexivity|]. split; [exact Ho|]. apply elem_of_app. right.
           apply list_elem_of_singleton. reflexivity.
      * intros r c H. apply elem_of_app in H as [H|H].
        -- eapply visited_at_mark_mono; eauto. lia.
        -- apply list_elem_of_singleton in H. injection H as -> ->.
           eapply visited_at_mark_eq; eauto. lia.
      * intros c Hc Hoc. destruct (decide (c = k)) as [->|Hne].
        -- eapply visited_at_mark_eq; eauto. lia.
        -- eapply visited_at_mark_mono; eauto; [lia|]. apply Hs; [lia|exact Hoc].
    + apply IH; [lia|exact Hd|exact Hv|exact Hq|].
      intros c Hc Hoc. destruct (decide (c = k)) as [->|Hne]; [congruence|].
      apply Hs; [lia|exact Hoc].
Qed.

Lemma supported_tiles_inv g fuel v :
  grid_wf g -> 0 < grid_height g ->
  supported_tiles fuel g = Some v ->
  matrix_dims (grid_height g) (grid_width g) v
  /\ forall r c, visited_at v r c = true <-> grounded (tile_matrix g) r c.
Proof.
  intros Hwf Hh Hrun. unfold supported_tiles in Hrun.
  destruct (seed_inv g (grid_width g) Hwf Hh 0
              (replicate (grid_height g) (replicate (grid_width g) false)) [])
    as (Hd & Hv & Hq & Hs).
  { lia. }
  { apply replicate_dims. }
  { intros r c H. rewrite visited_at_fresh in H. discriminate. }
  { intros r c H. inversion H. }
  { intros c Hc. lia. }
  cbv zeta in Hrun.
  destruct (fold_left (seed_bottom_row g) (seq 0 (grid_width g))
              (replicate (grid_height g) (replicate (grid_width g) false), []))
    as [v0 q0]. cbn [fst snd] in *.
  assert (Hinv0 : fill_inv g v0 q0 None).
  { split; [exact Hd|]. split; [|split; [|split; [exact Hq|]]].
    - intros r c H. destruct (Hv r c H) as (-> & Ho & _). constructor. exact Ho.
    - intros c Ho. apply Hs; [|exact Ho].
      apply (is_some_inside _ _ _ _ _ Hwf Ho).
    - intros r c H. destruct (Hv r c H) as (-> & _ & Hin). auto. }
  destruct (flood_fill_inv g fuel Hwf v0 q0 v Hinv0 Hrun)
    as (Hd' & Hsound & Hseed & _ & Hcl).
  split; [exact Hd'|]. intros r c. split; [apply Hsound|].
  induction 1 as [c Ho|r c r' c' _ IH Hn Ho]; [apply Hseed, Ho|].
  destruct (Hcl r c IH) as [H|[H|H]]; [inversion H|discriminate|].
  exact (H r' c' Hn Ho).
Qed.

Lemma supported_tiles_returns g fuel :
  grid_wf g -> settle_fuel g <= fuel ->
  exists v, supported_tiles fuel g = Some v.
Proof.
  intros Hwf Hfuel. unfold supported_tiles. cbv zeta.
  destruct (seed_measure g (seq 0 (grid_width g))
              (replicate (grid_height g) (replicate (grid_width g) false)) [])
    as [Hd Hm]; [apply replicate_dims|].
  rewrite count_unvisited_fresh, length_seq in Hm. simpl in Hm.
  set (st := fold_left _ _ _) in *.
  destruct (flood_fill_terminates g fuel (fst st) (snd st) Hd) as (v & Hv & _);
    [unfold settle_fuel in Hfuel; lia|].
  exists v. exact Hv.
Qed.

Lemma fall_unfold g fuel :
  0 < grid_height g ->
  fall_disconnected_tiles fuel g
  = match supported_tiles fuel g with
    | Some visited =>
      Some (with_matrix g (drop_unsupported visited (grid_height g) (grid_width g)
                                            (tile_matrix g)))
    | None => None
    end.
Proof.
  intros Hh. unfold fall_disconnected_tiles, supported_tiles.
  destruct (Nat.eqb_spec (grid_height g) 0) as [E|_]; [lia|]. reflexivity.
Qed.

(** X7.  The flood fill of the gravity pass returns, and the cells it has
    marked are exactly the grounded tiles: the tiles linked to a tile of
    the bottom row by a chain of tiles that share edges. *)
Theorem flood_fill_marks_grounded g fuel :
  grid_wf g -> 0 < grid_height g -> settle_fuel g <= fuel ->
  exists visited,
    supported_tiles fuel g = Some visited
    /\ forall r c, visited_at visited r c = true <-> grounded (tile_matrix g) r c.
Proof.
  intros Hwf Hh Hfuel.
  destruct (supported_tiles_returns g fuel Hwf Hfuel) as [v Hv].
  exists v. split; [exact Hv|].
  exact (proj2 (supported_tiles_inv g fuel v Hwf Hh Hv)).
Qed.

Lemma flood_fill_marks_grounded_witness :
  let g := mkGrid 3 2 [[Some (mkTile 2); None];
                       [Some (mkTile 4); Some (mkTile 2)];
                       [None; None]] false 0 in
  grid_wf g /\ 0 < grid_height g /\ settle_fuel g <= 8
  /\ supported_tiles 8 g = Some [[true; false]; [true; true]; [false; false]]
  /\ grounded (tile_matrix g) 1 1.
Proof.
  intros g.
  assert (Hwf : grid_wf g) by concrete_dims.
  assert (Hh : 0 < grid_height g) by (simpl; lia).
  assert (Hfuel : settle_fuel g <= 8) by (vm_compute; lia).
  split; [exact Hwf|]. split; [exact Hh|]. split; [exact Hfuel|].
  split; [reflexivity|].
  destruct (flood_fill_marks_grounded g 8 Hwf Hh Hfuel) as (v & Hv & Hiff).
  apply Hiff. vm_compute in Hv. injection Hv as <-. reflexivity.
Defined.

(** ** What the gravity pass moves *)

Lemma find_dest_free m col row :
  forall i, find_dest m col row <= i < row -> tile_at m i col = None.
Proof.
  induction row as [|d IH]; intros i Hi; simpl in Hi; [lia|].
  destruct (is_some (tile_at m d col)) eqn:Hd; [lia|].
  destruct (decide (i = d)) as [->|Hne].
  - destruct (tile_at m d col); [discriminate|reflexivity].
  - apply IH. lia.
Qed.

Lemma drop_tile_cases visited col m row :
  drop_tile visited col m row = m
  \/ exists t dest,
       tile_at m row col = Some t /\ visited_at visited row col = false
       /\ dest < row /\ (forall i, dest <= i < row -> tile_at m i col = None)
       /\ drop_tile visited col m row
          = set_tile (set_tile m dest col (Some t)) row col None.
Proof.
  unfold drop_tile.
  destruct (tile_at m row col) as [t|] eqn:Ht; [|left; reflexivity].
  destruct (visited_at visited row col) eqn:Hv; [left; reflexivity|].
  cbn [is_some negb andb].
  destruct (Nat.eqb_spec (find_dest m col row) row) as [E|Hne]; [left; reflexivity|].
  right. exists t, (find_dest m col row).
  pose proof (find_dest_spec m col row) as [Hle _].
  split; [reflexivity|]. split; [reflexivity|]. split; [lia|].
  split; [apply find_dest_free|reflexivity].
Qed.

Lemma fold_left_keeps {A B} (f : A -> B -> A) (Q : A -> Prop) (l : list B) :
  (forall x a, x ∈ l -> Q a -> Q (f a x)) ->
  forall a, Q a -> Q (fold_left f l a).
Proof.
  induction l as [|x l IH]; intros Hstep a Ha; [exact Ha|].
  simpl. apply IH.
  - intros y b Hy. apply Hstep. right. exact Hy.
  - apply Hstep; [left|exact Ha].
Qed.

Lemma drop_unsupported_keeps (P : Matrix -> Prop) visited h w :
  (forall m row col,
      matrix_dims h w m -> row + 1 < h -> col < w ->
      P m -> P (drop_tile visited col m row)) ->
  forall m, matrix_dims h w m -> P m -> P (drop_unsupported visited h w m).
Proof.
  intros Hstep m Hd HP.
  assert (Hgoal : matrix_dims h w (drop_unsupported visited h w m)
                  /\ P (drop_unsupported visited h w m)); [|apply Hgoal].
  unfold drop_unsupported.
  apply (fold_left_keeps _ (fun m => matrix_dims h w m /\ P m)); [|auto].
  intros col m1 Hcol [Hd1 HP1]. apply elem_of_seq in Hcol. unfold drop_column.
  apply (fold_left_keeps _ (fun m => matrix_dims h w m /\ P m)); [|auto].
  intros row m2 Hrow [Hd2 HP2].
  apply list_elem_of_In, in_rev, list_elem_of_In, elem_of_seq in Hrow.
  split.
  - apply (drop_tile_spec h w); [exact Hd2|lia|lia].
  - apply Hstep; [exact Hd2|lia|lia|exact HP2].
Qed.

Lemma omap_pull (l : list (option Tile)) :
  forall k t,
    l !! k = Some (Some t) -> (forall i, i < k -> l !! i = Some None) ->
    omap id l = t :: omap id (<[k := None]> l).
Proof.
  induction l as [|a l IH]; intros k t Hk Hfree; [discriminate|].
  destruct k as [|k].
  - injection Hk as ->. reflexivity.
  - pose proof (Hfree 0 ltac:(lia)) as H0. injection H0 as ->.
    cbn. apply IH; [exact Hk|].
    intros i Hi. apply (Hfree (S i)). lia.
Qed.

Lemma omap_move_down (l : list (option Tile)) :
  forall dest row t,
    dest < row -> l !! row = Some (Some t) ->
    (forall i, dest <= i < row -> l !! i = Some None) ->
    omap id (<[row := None]> (<[dest := Some t]> l)) = omap id l.
Proof.
  induction l as [|a l IH]; intros dest row t Hlt Hrow Hfree; [discriminate|].
  destruct row as [|row]; [lia|].
  destruct dest as [|dest].
  - pose proof (Hfree 0 ltac:(lia)) as H0. injection H0 as ->.
    cbn. symmetry. apply omap_pull; [exact Hrow|].
    intros i Hi. apply (Hfree (S i)). lia.
  - assert (E : omap id (<[row := None]> (<[dest := Some t]> l)) = omap id l).
    { apply IH; [lia|exact Hrow|]. intros i Hi. apply (Hfree (S i)). lia. }
    destruct a; cbn; [f_equal|]; exact E.
Qed.

Lemma column_cell h w (m : Matrix) r c :
  matrix_dims h w m -> r < h -> column m c !! r = Some (tile_at m r c).
Proof.
  intros Hd Hr. rewrite tile_at_column.
  destruct (lookup_lt_is_Some_2 (column m c) r) as [o Ho].
  { rewrite length_column. destruct Hd as [-> _]. exact Hr. }
  rewrite Ho. reflexivity.
Qed.

Lemma drop_tile_column_tiles h w visited col m row c :
  matrix_dims h w m -> row < h -> col < w ->
  column_tiles (drop_tile visited col m row) c = column_tiles m c.
Proof.
  intros Hd Hr Hc.
  destruct (drop_tile_cases visited col m row)
    as [->|(t & dest & Ht & _ & Hlt & Hfree & ->)]; [reflexivity|].
  unfold column_tiles. destruct (decide (col = c)) as [<-|Hne].
  - rewrite (column_set_tile_eq h w) by (auto using set_tile_dims).
    rewrite (column_set_tile_eq h w) by auto.
    apply omap_move_down; [exact Hlt|apply tile_at_Some, Ht|].
    intros i Hi. rewrite (column_cell h w) by (auto; lia).
    rewrite (Hfree i Hi). reflexivity.
  - rewrite !column_set_tile_ne by exact Hne. reflexivity.
Qed.

Lemma tile_at_set_tile_other m r c v r' c' :
  r <> r' \/ c <> c' -> tile_at (set_tile m r c v) r' c' = tile_at m r' c'.
Proof.
  intros [H|H]; [apply tile_at_set_tile_row_ne|apply tile_at_set_tile_col_ne]; exact H.
Qed.

Lemma drop_tile_other visited col m row r c :
  (is_some (tile_at m r c) = true -> visited_at visited r c = true) ->
  (is_some (tile_at m r c) = false -> row < r) ->
  tile_at (drop_tile visited col m row) r c = tile_at m r c.
Proof.
  intros Hocc Hfree.
  destruct (drop_tile_cases visited col m row)
    as [->|(t & dest & Ht & Hv & Hlt & Hdest & ->)]; [reflexivity|].
  rewrite !tile_at_set_tile_other; [reflexivity| |].
  - destruct (decide (dest = r)) as [->|Hr]; [|auto].
    destruct (decide (col = c)) as [->|Hc]; [|auto].
    pose proof (Hdest r ltac:(lia)) as Hnone. rewrite Hnone in Hfree.
    specialize (Hfree eq_refl). lia.
  - destruct (decide (row = r)) as [->|Hr]; [|auto].
    destruct (decide (col = c)) as [->|Hc]; [|auto].
    rewrite Ht in Hocc. specialize (Hocc eq_refl). congruence.
Qed.

Lemma fall_returns g fuel :
  grid_wf g -> 0 < grid_height g -> settle_fuel g <= fuel ->
  exists visited,
    supported_tiles fuel g = Some visited
    /\ (forall r c, visited_at visited r c = true <-> grounded (tile_matrix g) r c)
    /\ fall_disconnected_tiles fuel g
       = Some (with_matrix g (drop_unsupported visited (grid_height g) (grid_width g)
                                               (tile_matrix g))).
Proof.
  intros Hwf Hh Hfuel.
  destruct (supported_tiles_returns g fuel Hwf Hfuel) as [v Hv].
  exists v. split; [exact Hv|].
  split; [exact (proj2 (supported_tiles_inv g fuel v Hwf Hh Hv))|].
  rewrite (fall_unfold g fuel Hh), Hv. reflexivity.
Qed.

(** X8.  The gravity pass never moves a grounded tile: every cell that
    holds a tile linked to the bottom row holds the same tile after the
    pass. *)
Theorem grounded_tiles_stay g fuel :
  grid_wf g -> 0 < grid_height g -> settle_fuel g <= fuel ->
  exists g',
    fall_disconnected_tiles fuel g = Some g'
    /\ forall r c, grounded (tile_matrix g) r c ->
                   tile_at (tile_matrix g') r c = tile_at (tile_matrix g) r c.
Proof.
  intros Hwf Hh Hfuel.
  destruct (fall_returns g fuel Hwf Hh Hfuel) as (v & _ & Hiff & Hrun).
  eexists. split; [exact Hrun|]. cbn [tile_matrix with_matrix].
  intros r c Hg.
  generalize r c Hg. clear r c Hg.
  apply (drop_unsupported_keeps
           (fun m => forall r c, grounded (tile_matrix g) r c ->
                                 tile_at m r c = tile_at (tile_matrix g) r c));
    [|exact Hwf|reflexivity].
  intros m row col _ _ _ HP r c Hg. rewrite <- (HP r c Hg).
  apply drop_tile_other.
  - intros _. apply Hiff, Hg.
  - intros Hfree. rewrite (HP r c Hg), (grounded_occupied _ _ _ Hg) in Hfree.
    discriminate.
Qed.

Lemma grounded_tiles_stay_witness :
  let g := mkGrid 4 2 [[Some (mkTile 2); None];
                       [Some (mkTile 4); None];
                       [None; None];
                       [None; Some (mkTile 8)]] false 0 in
  grid_wf g /\ 0 < grid_height g /\ settle_fuel g <= 10
  /\ grounded (tile_matrix g) 1 0
  /\ exists g',
       fall_disconnected_tiles 10 g = Some g'
       /\ tile_at (tile_matrix g') 1 0 = Some (mkTile 4).
Proof.
  intros g.
  assert (Hwf : grid_wf g) by concrete_dims.
  assert (Hh : 0 < grid_height g) by (simpl; lia).
  assert (Hfuel : settle_fuel g <= 10) by (vm_compute; lia).
  assert (Hg : grounded (tile_matrix g) 1 0).
  { apply (grounded_step _ 0 0); [constructor; reflexivity| |reflexivity].
    right. split; [reflexivity|left; reflexivity]. }
  split; [exact Hwf|]. split; [exact Hh|]. split; [exact Hfuel|].
  split; [exact Hg|].
  destruct (grounded_tiles_stay g 10 Hwf Hh Hfuel) as (g' & Hrun & Hstay).
  exists g'. split; [exact Hrun|]. rewrite (Hstay 1 0 Hg). reflexivity.
Defined.

(** X9.  A grid on which every tile is grounded is a fixed point of the
    gravity pass. *)
Theorem settled_grid_is_fixed g fuel :
  grid_wf g -> 0 < grid_height g -> settle_fuel g <= fuel ->
  (forall r c, is_some (tile_at (tile_matrix g) r c) = true ->
               grounded (tile_matrix g) r c) ->
  fall_disconnected_tiles fuel g = Some g.
Proof.
  intros Hwf Hh Hfuel Hall.
  destruct (fall_returns g fuel Hwf Hh Hfuel) as (v & _ & Hiff & Hrun).
  rewrite Hrun. f_equal.
  assert (E : drop_unsupported v (grid_height g) (grid_width g) (tile_matrix g)
              = tile_matrix g).
  { apply (drop_unsupported_keeps (fun m => m = tile_matrix g));
      [|exact Hwf|reflexivity].
    intros m row col _ _ _ ->. unfold drop_tile.
    destruct (is_some (tile_at (tile_matrix g) row col)) eqn:Ho; [|reflexivity].
    rewrite (proj2 (Hiff row col) (Hall row col Ho)). reflexivity. }
  rewrite E. apply with_matrix_same.
Qed.

Lemma settled_grid_is_fixed_witness :
  let g := mkGrid 2 2 [[Some (mkTile 2); None]; [Some (mkTile 4); Some (mkTile 2)]]
                  false 0 in
  grid_wf g /\ 0 < grid_height g /\ settle_fuel g <= 6
  /\ fall_disconnected_tiles 6 g = Some g.
Proof.
  intros g.
  assert (Hwf : grid_wf g) by concrete_dims.
  assert (Hh : 0 < grid_height g) by (simpl; lia).
  assert (Hfuel : settle_fuel g <= 6) by (vm_compute; lia).
  split; [exact Hwf|]. split; [exact Hh|]. split; [exact Hfuel|].
  apply (settled_grid_is_fixed g 6 Hwf Hh Hfuel).
  assert (H00 : grounded (tile_matrix g) 0 0) by (constructor; reflexivity).
  assert (H10 : grounded (tile_matrix g) 1 0).
  { apply (grounded_step _ 0 0); [exact H00| |reflexivity].
    right. split; [reflexivity|left; reflexivity]. }
  assert (H11 : grounded (tile_matrix g) 1 1).
  { apply (grounded_step _ 1 0); [exact H10| |reflexivity].
    left. split; [reflexivity|left; reflexivity]. }
  intros [|[|r]] [|[|c]] Ho; try assumption; discriminate.
Defined.

(** X10.  The gravity pass moves tiles only within their column and never
    past one another: in every column the tiles read from the bottom up,
    the empty cells left out, are the same before and after the pass. *)
Theorem gravity_keeps_column_order g fuel :
  grid_wf g -> 0 < grid_height g -> settle_fuel g <= fuel ->
  exists g',
    fall_disconnected_tiles fuel g = Some g'
    /\ forall c, column_tiles (tile_matrix g') c = column_tiles (tile_matrix g) c.
Proof.
  intros Hwf Hh Hfuel.
  destruct (fall_returns g fuel Hwf Hh Hfuel) as (v & _ & _ & Hrun).
  eexists. split; [exact Hrun|]. cbn [tile_matrix with_matrix].
  apply (drop_unsupported_keeps
           (fun m => forall c, column_tiles m c = column_tiles (tile_matrix g) c));
    [|exact Hwf|reflexivity].
  intros m row col Hd Hrow Hcol HP c. rewrite <- (HP c).
  apply (drop_tile_column_tiles _ _ _ _ _ _ _ Hd); lia.
Qed.

Lemma gravity_keeps_column_order_witness :
  let g := mkGrid 4 1 [[None]; [Some (mkTile 2)]; [None]; [Some (mkTile 4)]]
                  false 0 in
  grid_wf g /\ 0 < grid_height g /\ settle_fuel g <= 5
  /\ exists g',
       fall_disconnected_tiles 5 g = Some g'
       /\ column_tiles (tile_matrix g') 0 = [mkTile 2; mkTile 4].
Proof.
  intros g.
  assert (Hwf : grid_wf g) by concrete_dims.
  assert (Hh : 0 < grid_height g) by (simpl; lia).
  assert (Hfuel : settle_fuel g <= 5) by (vm_compute; lia).
  split; [exact Hwf|]. split; [exact Hh|]. split; [exact Hfuel|].
  destruct (gravity_keeps_column_order g 5 Hwf Hh Hfuel) as (g' & Hrun & Hcols).
  exists g'. split; [exact Hrun|]. rewrite (Hcols 0). reflexivity.
Defined.

(** X11.  The gravity pass starts its scan one row below the top: no tile
    of the top row is moved, grounded or not, and no tile is moved into
    the top row. *)
Theorem top_row_never_falls g fuel :
  grid_wf g -> 0 < grid_height g -> settle_fuel g <= fuel ->
  exists g',
    fall_disconnected_tiles fuel g = Some g'
    /\ forall c, tile_at (tile_matrix g') (grid_height g - 1) c
                 = tile_at (tile_matrix g) (grid_height g - 1) c.
Proof.
  intros Hwf Hh Hfuel.
  destruct (fall_returns g fuel Hwf Hh Hfuel) as (v & _ & _ & Hrun).
  eexists. split; [exact Hrun|]. cbn [tile_matrix with_matrix].
  apply (drop_unsupported_keeps
           (fun m => forall c, tile_at m (grid_height g - 1) c
                               = tile_at (tile_matrix g) (grid_height g - 1) c));
    [|exact Hwf|reflexivity].
  intros m row col _ Hrow _ HP c. rewrite <- (HP c).
  destruct (drop_tile_cases v col m row)
    as [->|(t & dest & _ & _ & Hlt & _ & ->)]; [reflexivity|].
  rewrite !tile_at_set_tile_row_ne by lia. reflexivity.
Qed.

Lemma top_row_never_falls_witness :
  let g := mkGrid 3 1 [[None]; [None]; [Some (mkTile 2)]] false 0 in
  grid_wf g /\ 0 < grid_height g /\ settle_fuel g <= 4
  /\ fall_disconnected_tiles 4 g = Some g
  /\ exists g',
       fall_disconnected_tiles 4 g = Some g'
       /\ tile_at (tile_matrix g') 2 0 = Some (mkTile 2).
Proof.
  intros g.
  assert (Hwf : grid_wf g) by concrete_dims.
  assert (Hh : 0 < grid_height g) by (simpl; lia).
  assert (Hfuel : settle_fuel g <= 4) by (vm_compute; lia).
  split; [exact Hwf|]. split; [exact Hh|]. split; [exact Hfuel|].
  split; [reflexivity|].
  destruct (top_row_never_falls g 4 Hwf Hh Hfuel) as (g' & Hrun & Htop).
  exists g'. split; [exact Hrun|]. exact (Htop 0).
Defined.

(** ** Moving the active piece *)

Lemma find_seq_spec (P : nat -> bool) n :
  forall k,
    match find P (seq k n) with
    | Some c => P c = true /\ k <= c < k + n /\ forall i, k <= i < c -> P i = false
    | None => forall i, k <= i < k + n -> P i = false
    end.
Proof.
  induction n as [|n IH]; intros k; simpl; [intros; lia|].
  destruct (P k) eqn:E; [split; [exact E|split; [lia|intros; lia]]|].
  specialize (IH (S k)). destruct (find P (seq (S k) n)) as [c|].
  - destruct IH as (H1 & H2 & H3). split; [exact H1|]. split; [lia|].
    intros i Hi. destruct (decide (i = k)) as [->|Hne]; [exact E|apply H3; lia].
  - intros i Hi. destruct (decide (i = k)) as [->|Hne]; [exact E|apply IH; lia].
Qed.

Lemma find_rev_seq_spec (P : nat -> bool) n :
  match find P (rev (seq 0 n)) with
  | Some c => P c = true /\ c < n /\ forall i, c < i < n -> P i = false
  | None => forall i, i < n -> P i = false
  end.
Proof.
  induction n as [|n IH]; [simpl; intros; lia|].
  rewrite seq_S, rev_unit. simpl.
  destruct (P n) eqn:E; [split; [exact E|split; [lia|intros; lia]]|].
  destruct (find P (rev (seq 0 n))) as [c|].
  - destruct IH as (H1 & H2 & H3). split; [exact H1|]. split; [lia|].
    intros i Hi. destruct (decide (i = n)) as [->|Hne]; [exact E|apply H3; lia].
  - intros i Hi. destruct (decide (i = n)) as [->|Hne]; [exact E|apply IH; lia].
Qed.

Lemma can_be_moved_left gw p g :
  let m := Tetromino.tile_matrix p in
  matrix_dims (length m) (length m) m -> rows_contiguous m -> piece_fits gw p g ->
  (Tetromino.can_be_moved gw p dir_left g = true
   <-> piece_fits gw (shifted p dir_left) g).
Proof.
  intros m Hd Hrc Hfit. unfold Tetromino.can_be_moved. fold m.
  cbv zeta. rewrite forallb_forall. unfold Tetromino.first_tile_in_row.
  unfold piece_fits, Tetromino.get_cell_position in *.
  cbn [x y shifted Tetromino.bottom_left_cell Tetromino.tile_matrix] in *.
  fold m in Hfit |- *.
  set (n := length m) in *. set (b := Tetromino.bottom_left_cell p) in *.
  split.
  - intros Hchk r c Ho.
    destruct (is_some_inside _ _ _ _ _ Hd Ho) as [Hr Hc].
    specialize (Hchk r ltac:(apply in_seq; lia)).
    pose proof (find_seq_spec (fun c => is_some (tile_at m r c)) n 0) as Hf.
    destruct (find _ (seq 0 n)) as [c0|];
      [|rewrite (Hf c) in Ho by lia; discriminate].
    destruct Hf as (Ho0 & Hc0 & Hbefore).
    assert (Hle : c0 <= c).
    { destruct (le_lt_dec c0 c) as [H|H]; [exact H|].
      rewrite Hbefore in Ho by lia. discriminate. }
    apply negb_true_iff, orb_false_iff in Hchk as [Hx0 Hocc].
    apply Z.eqb_neq in Hx0.
    destruct (Hfit r c0 Ho0) as (Hx & Hy & _).
    destruct (decide (c = c0)) as [->|Hne].
    + split; [lia|]. split; [lia|].
      replace (x b - 1 + Z.of_nat c0)%Z with (x b + Z.of_nat c0 - 1)%Z by lia.
      exact Hocc.
    + assert (Ho1 : is_some (tile_at m r (c - 1)) = true)
        by (apply (Hrc r c0 (c - 1) c); [lia|exact Ho0|exact Ho]).
      destruct (Hfit r (c - 1) Ho1) as (Hx1 & Hy1 & Hocc1).
      replace (x b - 1 + Z.of_nat c)%Z with (x b + Z.of_nat (c - 1))%Z by lia.
      auto.
  - intros Hfit' r Hr.
    pose proof (find_seq_spec (fun c => is_some (tile_at m r c)) n 0) as Hf.
    destruct (find _ (seq 0 n)) as [c0|]; [|reflexivity].
    destruct Hf as (Ho0 & _).
    destruct (Hfit' r c0 Ho0) as (Hx & Hy & Hocc).
    apply negb_true_iff, orb_false_iff. split; [apply Z.eqb_neq; lia|].
    replace (x b + Z.of_nat c0 - 1)%Z with (x b - 1 + Z.of_nat c0)%Z by lia.
    exact Hocc.
Qed.

Lemma can_be_moved_right gw p g :
  let m := Tetromino.tile_matrix p in
  matrix_dims (length m) (length m) m -> rows_contiguous m -> piece_fits gw p g ->
  (Tetromino.can_be_moved gw p dir_right g = true
   <-> piece_fits gw (shifted p dir_right) g).
Proof.
  intros m Hd Hrc Hfit. unfold Tetromino.can_be_moved. fold m.
  cbv zeta. rewrite forallb_forall. unfold Tetromino.first_tile_in_row.
  unfold piece_fits, Tetromino.get_cell_position in *.
  cbn [x y shifted Tetromino.bottom_left_cell Tetromino.tile_matrix] in *.
  fold m in Hfit |- *.
  set (n := length m) in *. set (b := Tetromino.bottom_left_cell p) in *.
  split.
  - intros Hchk r c Ho.
    destruct (is_some_inside _ _ _ _ _ Hd Ho) as [Hr Hc].
    specialize (Hchk r ltac:(apply in_seq; lia)).
    pose proof (find_rev_seq_spec (fun c => is_some (tile_at m r c)) n) as Hf.
    destruct (find _ (rev (seq 0 n))) as [c0|];
      [|rewrite (Hf c) in Ho by lia; discriminate].
    destruct Hf as (Ho0 & Hc0 & Hafter).
    assert (Hle : c <= c0).
    { destruct (le_lt_dec c c0) as [H|H]; [exact H|].
      rewrite Hafter in Ho by lia. discriminate. }
    apply negb_true_iff, orb_false_iff in Hchk as [Hx0 Hocc].
    apply Z.eqb_neq in Hx0.
    destruct (Hfit r c0 Ho0) as (Hx & Hy & _).
    destruct (decide (c = c0)) as [->|Hne].
    + split; [lia|]. split; [lia|].
      replace (x b + 1 + Z.of_nat c0)%Z with (x b + Z.of_nat c0 + 1)%Z by lia.
      exact Hocc.
    + assert (Ho1 : is_some (tile_at m r (c + 1)) = true)
        by (apply (Hrc r c (c + 1) c0); [lia|exact Ho|exact Ho0]).
      destruct (Hfit r (c + 1) Ho1) as (Hx1 & Hy1 & Hocc1).
      replace (x b + 1 + Z.of_nat c)%Z with (x b + Z.of_nat (c + 1))%Z by lia.
      auto.
  - intros Hfit' r Hr.
    pose proof (find_rev_seq_spec (fun c => is_some (tile_at m r c)) n) as Hf.
    destruct (find _ (rev (seq 0 n))) as [c0|]; [|reflexivity].
    destruct Hf as (Ho0 & _).
    destruct (Hfit' r c0 Ho0) as (Hx & Hy & Hocc).
    apply negb_true_iff, orb_false_iff. split; [apply Z.eqb_neq; lia|].
    replace (x b + Z.of_nat c0 + 1)%Z with (x b + 1 + Z.of_nat c0)%Z by lia.
    exact Hocc.
Qed.

Lemma can_be_moved_down gw p g :
  let m := Tetromino.tile_matrix p in
  matrix_dims (length m) (length m) m -> cols_contiguous m -> piece_fits gw p g ->
  (Tetromino.can_be_moved gw p dir_down g = true
   <-> piece_fits gw (shifted p dir_down) g).
Proof.
  intros m Hd Hcc Hfit. unfold Tetromino.can_be_moved. fold m.
  cbv zeta. rewrite forallb_forall. unfold Tetromino.first_tile_in_col.
  unfold piece_fits, Tetromino.get_cell_position in *.
  cbn [x y shifted Tetromino.bottom_left_cell Tetromino.tile_matrix] in *.
  fold m in Hfit |- *.
  set (n := length m) in *. set (b := Tetromino.bottom_left_cell p) in *.
  split.
  - intros Hchk r c Ho.
    destruct (is_some_inside _ _ _ _ _ Hd Ho) as [Hr Hc].
    specialize (Hchk c ltac:(apply in_seq; lia)).
    pose proof (find_rev_seq_spec (fun r => is_some (tile_at m r c)) n) as Hf.
    destruct (find _ (rev (seq 0 n))) as [r0|];
      [|rewrite (Hf r) in Ho by lia; discriminate].
    destruct Hf as (Ho0 & Hr0 & Hafter).
    assert (Hle : r <= r0).
    { destruct (le_lt_dec r r0) as [H|H]; [exact H|].
      rewrite Hafter in Ho by lia. discriminate. }
    apply negb_true_iff, orb_false_iff in Hchk as [Hy0 Hocc].
    apply Z.eqb_neq in Hy0.
    destruct (Hfit r0 c Ho0) as (Hx & Hy & _).
    destruct (decide (r = r0)) as [->|Hne].
    + split; [lia|]. split; [lia|].
      replace (y b - 1 + (Z.of_nat n - 1) - Z.of_nat r0)%Z
        with (y b + (Z.of_nat n - 1) - Z.of_nat r0 - 1)%Z by lia.
      exact Hocc.
    + assert (Ho1 : is_some (tile_at m (r + 1) c) = true)
        by (apply (Hcc c r (r + 1) r0); [lia|exact Ho|exact Ho0]).
      destruct (Hfit (r + 1) c Ho1) as (Hx1 & Hy1 & Hocc1).
      replace (y b - 1 + (Z.of_nat n - 1) - Z.of_nat r)%Z
        with (y b + (Z.of_nat n - 1) - Z.of_nat (r + 1))%Z by lia.
      auto.
  - intros Hfit' c Hc.
    pose proof (find_rev_seq_spec (fun r => is_some (tile_at m r c)) n) as Hf.
    destruct (find _ (rev (seq 0 n))) as [r0|]; [|reflexivity].
    destruct Hf as (Ho0 & _).
    destruct (Hfit' r0 c Ho0) as (Hx & Hy & Hocc).
    apply negb_true_iff, orb_false_iff. split; [apply Z.eqb_neq; lia|].
    replace (y b + (Z.of_nat n - 1) - Z.of_nat r0 - 1)%Z
      with (y b - 1 + (Z.of_nat n - 1) - Z.of_nat r0)%Z by lia.
    exact Hocc.
Qed.

Lemma can_be_moved_fits gw p d g :
  well_shaped (Tetromino.tile_matrix p) -> piece_fits gw p g ->
  (Tetromino.can_be_moved gw p d g = true <-> piece_fits gw (shifted p d) g).
Proof.
  intros (Hd & Hrc & Hcc) Hfit. destruct d.
  - apply can_be_moved_left; assumption.
  - apply can_be_moved_right; assumption.
  - apply can_be_moved_down; assumption.
Qed.

Lemma move_unfold gw p d g :
  Tetromino.move gw p d g
  = if Tetromino.can_be_moved gw p d g then (shifted p d, true) else (p, false).
Proof.
  unfold Tetromino.move. destruct (Tetromino.can_be_moved gw p d g); reflexivity.
Qed.

(** X12.  The collision test of [move] looks only at the first tile of
    each row (of each column, for a move down), and for a piece without
    gaps that is enough: a piece that fits the board is moved exactly when
    it still fits one cell further, and is left as it is otherwise.  So a
    piece that fits keeps fitting. *)
Theorem move_accepted_iff_fits gw p d g :
  well_shaped (Tetromino.tile_matrix p) -> piece_fits gw p g ->
  (snd (Tetromino.move gw p d g) = true <-> piece_fits gw (shifted p d) g)
  /\ fst (Tetromino.move gw p d g)
     = (if snd (Tetromino.move gw p d g) then shifted p d else p)
  /\ piece_fits gw (fst (Tetromino.move gw p d g)) g.
Proof.
  intros Hws Hfit. pose proof (can_be_moved_fits gw p d g Hws Hfit) as Hiff.
  rewrite move_unfold.
  destruct (Tetromino.can_be_moved gw p d g); cbn [fst snd].
  - split; [exact Hiff|]. split; [reflexivity|]. apply Hiff. reflexivity.
  - split; [exact Hiff|]. split; [reflexivity|exact Hfit].
Qed.

Lemma all_empty_spec l :
  all_empty l = true -> forall i, is_some (cell_of_row i l) = false.
Proof.
  induction l as [|o l IH]; intros H i; [destruct i; reflexivity|].
  simpl in H. apply andb_true_iff in H as [Ho Hl].
  destruct i as [|i]; [destruct o; [discriminate|reflexivity]|].
  exact (IH Hl i).
Qed.

Lemma run_then_empty_spec l :
  run_then_empty l = true ->
  forall j k, j <= k -> is_some (cell_of_row k l) = true ->
              is_some (cell_of_row j l) = true.
Proof.
  induction l as [|o l IH]; intros H j k Hjk Hk; [destruct k; discriminate|].
  destruct o as [t|]; simpl in H.
  - destruct j as [|j]; [reflexivity|]. destruct k as [|k]; [lia|].
    apply (IH H j k); [lia|exact Hk].
  - destruct k as [|k]; [discriminate|].
    pose proof (all_empty_spec l H k) as Hno.
    unfold cell_of_row in *. simpl in Hk. congruence.
Qed.

Lemma contiguous_spec l :
  contiguous l = true ->
  forall i j k, i <= j <= k -> is_some (cell_of_row i l) = true ->
                is_some (cell_of_row k l) = true ->
                is_some (cell_of_row j l) = true.
Proof.
  induction l as [|o l IH]; intros H i j k Hijk Hi Hk; [destruct i; discriminate|].
  destruct o as [t|]; simpl in H.
  - destruct j as [|j]; [reflexivity|]. destruct k as [|k]; [lia|].
    apply (run_then_empty_spec l H j k); [lia|exact Hk].
  - destruct i as [|i]; [discriminate|].
    destruct j as [|j]; [lia|]. destruct k as [|k]; [lia|].
    apply (IH H i j k); [lia|exact Hi|exact Hk].
Qed.

Lemma tile_at_row (m : Matrix) r c row :
  m !! r = Some row -> tile_at m r c = cell_of_row c row.
Proof. intros H. unfold tile_at. rewrite H. reflexivity. Qed.

Lemma tile_at_cell_of_column (m : Matrix) r c :
  tile_at m r c = cell_of_row r (column m c).
Proof. apply tile_at_column. Qed.

Lemma well_shaped_check m : well_shapedb m = true -> well_shaped m.
Proof.
  unfold well_shapedb. rewrite !andb_true_iff, !forallb_forall.
  intros [[Hlen Hrows] Hcols].
  assert (Hd : matrix_dims (length m) (length m) m).
  { split; [reflexivity|]. apply Forall_forall. intros row Hrow.
    apply Nat.eqb_eq, Hlen, list_elem_of_In, Hrow. }
  split; [exact Hd|]. split.
  - intros r c1 c c2 Hc H1 H2.
    destruct (m !! r) as [row|] eqn:Hrow;
      [|unfold tile_at in H1; rewrite Hrow in H1; discriminate].
    pose proof (fun c => tile_at_row m r c row Hrow) as E.
    rewrite E in H1. rewrite E in H2. rewrite E.
    apply (contiguous_spec row) with (i := c1) (k := c2); auto.
    apply Hrows, list_elem_of_In, list_elem_of_lookup. eauto.
  - intros c r1 r r2 Hr H1 H2.
    destruct (is_some_inside _ _ _ _ _ Hd H1) as [_ Hc].
    rewrite tile_at_cell_of_column in H1. rewrite tile_at_cell_of_column in H2.
    rewrite tile_at_cell_of_column.
    apply (contiguous_spec (column m c)) with (i := r1) (k := r2); auto.
    apply Hcols, in_seq. lia.
Qed.

Lemma well_shaped_rot m : well_shaped m -> well_shaped (rot90_clockwise m).
Proof.
  intros (Hd & Hrc & Hcc).
  pose proof (rot90_clockwise_dims _ _ Hd) as Hd'.
  assert (Hlen : length (rot90_clockwise m) = length m) by apply Hd'.
  split; [rewrite Hlen; exact Hd'|]. split.
  - intros r c1 c c2 Hc H1 H2.
    destruct (is_some_inside _ _ _ _ _ Hd' H1) as [Hr Hc1].
    destruct (is_some_inside _ _ _ _ _ Hd' H2) as [_ Hc2].
    rewrite (rot90_clockwise_lookup _ _ _ _ Hd) in H1 by lia.
    rewrite (rot90_clockwise_lookup _ _ _ _ Hd) in H2 by lia.
    rewrite (rot90_clockwise_lookup _ _ _ _ Hd) by lia.
    apply (Hcc r (length m - 1 - c2) _ (length m - 1 - c1)); [lia|exact H2|exact H1].
  - intros c r1 r r2 Hr H1 H2.
    destruct (is_some_inside _ _ _ _ _ Hd' H1) as [Hr1 Hc].
    destruct (is_some_inside _ _ _ _ _ Hd' H2) as [Hr2 _].
    rewrite (rot90_clockwise_lookup _ _ _ _ Hd) in H1 by lia.
    rewrite (rot90_clockwise_lookup _ _ _ _ Hd) in H2 by lia.
    rewrite (rot90_clockwise_lookup _ _ _ _ Hd) by lia.
    apply (Hrc (length m - 1 - c) r1 r r2); [lia|exact H1|exact H2].
Qed.

Lemma init_well_shaped gh gw shape choice raw p :
  Tetromino.init gh gw shape choice raw = Some p ->
  well_shaped (Tetromino.tile_matrix p).
Proof.
  unfold Tetromino.init. intros H.
  destruct (randint _ _ _) as [rx|]; [|discriminate]. injection H as <-.
  apply well_shaped_check. destruct shape; reflexivity.
Qed.

Lemma move_accepted_iff_fits_witness :
  let p := Tetromino.mk shape_O [[Some (mkTile 2); Some (mkTile 2)];
                                 [Some (mkTile 2); Some (mkTile 4)]] (mkPoint 0 1) in
  let g := mkGrid 3 3 [[None; None; Some (mkTile 2)];
                       [None; None; Some (mkTile 2)];
                       [None; None; None]] false 0 in
  well_shaped (Tetromino.tile_matrix p) /\ piece_fits 3 p g
  /\ Tetromino.move 3 p dir_down g = (shifted p dir_down, true)
  /\ Tetromino.move 3 p dir_right g = (p, false)
  /\ piece_fits 3 (shifted p dir_down) g.
Proof.
  intros p g.
  assert (Hws : well_shaped (Tetromino.tile_matrix p))
    by (apply well_shaped_check; reflexivity).
  assert (Hfit : piece_fits 3 p g).
  { intros [|[|r]] [|[|c]] Ho; try discriminate; cbn; repeat split; lia. }
  split; [exact Hws|]. split; [exact Hfit|]. split; [reflexivity|].
  split; [reflexivity|].
  destruct (move_accepted_iff_fits 3 p dir_down g Hws Hfit) as (Hiff & _ & _).
  apply Hiff. reflexivity.
Defined.

(** X13.  Every piece the constructor builds is a square matrix without a
    gap inside a row or a column, and stays one under any number of
    clockwise quarter turns; the collision test of [move] is therefore
    exact for every piece of the game. *)
Theorem spawned_pieces_well_shaped gh gw shape choice raw p k :
  Tetromino.init gh gw shape choice raw = Some p ->
  well_shaped (Nat.iter k rot90_clockwise (Tetromino.tile_matrix p)).
Proof.
  intros Hinit. induction k as [|k IH]; simpl.
  - exact (init_well_shaped gh gw shape choice raw p Hinit).
  - apply well_shaped_rot, IH.
Qed.

Lemma spawned_pieces_well_shaped_witness :
  exists p,
    Tetromino.init 20 16 shape_S (fun _ => false) 3 = Some p
    /\ well_shaped (rot90_clockwise (Tetromino.tile_matrix p)).
Proof.
  eexists. split; [reflexivity|].
  exact (spawned_pieces_well_shaped 20 16 shape_S (fun _ => false) 3 _ 1 eq_refl).
Defined.

(** ** The active piece over a run of moves and turns *)

Lemma rotate_cases gh gw p g :
  let m := Tetromino.tile_matrix p in
  matrix_dims (length m) (length m) m ->
  (Tetromino.rotate gh gw p g
   = (Tetromino.mk (Tetromino.type p) (rot90_clockwise m)
                   (Tetromino.bottom_left_cell p), true)
   /\ rotation_fits gh gw p g (rot90_clockwise m))
  \/ Tetromino.rotate gh gw p g = (p, false).
Proof.
  intros m Hd. subst m.
  pose proof (rot90_clockwise_dims _ _ Hd) as [Hlen _].
  pose proof (rotate_check gh gw p g) as Hcheck. cbv zeta in Hcheck.
  unfold Tetromino.rotate. rewrite Hlen.
  destruct (forallb _ _) eqn:E in |- *; [left|right; reflexivity].
  split; [reflexivity|]. apply Hcheck, E.
Qed.

Lemma rotate_keeps_fit gh gw p g :
  well_shaped (Tetromino.tile_matrix p) -> piece_fits gw p g ->
  well_shaped (Tetromino.tile_matrix (fst (Tetromino.rotate gh gw p g)))
  /\ piece_fits gw (fst (Tetromino.rotate gh gw p g)) g.
Proof.
  intros Hws Hfit. pose proof Hws as (Hd & _).
  destruct (rotate_cases gh gw p g Hd) as [[-> Hrot]| ->]; cbn [fst]; [|auto].
  split; [apply well_shaped_rot, Hws|].
  pose proof (rot90_clockwise_dims _ _ Hd) as Hd'.
  intros r c Ho. cbn [Tetromino.tile_matrix] in Ho.
  destruct (is_some_inside _ _ _ _ _ Hd' Ho) as [Hr Hc].
  destruct (Hrot r c Hr Hc Ho) as (Hx & Hy & Hocc).
  unfold Tetromino.get_cell_position.
  cbn [x y Tetromino.tile_matrix Tetromino.bottom_left_cell].
  rewrite (proj1 Hd'). repeat split; try lia. exact Hocc.
Qed.

Lemma move_keeps_fit gw p d g :
  well_shaped (Tetromino.tile_matrix p) -> piece_fits gw p g ->
  well_shaped (Tetromino.tile_matrix (fst (Tetromino.move gw p d g)))
  /\ piece_fits gw (fst (Tetromino.move gw p d g)) g.
Proof.
  intros Hws Hfit. pose proof (can_be_moved_fits gw p d g Hws Hfit) as Hiff.
  rewrite move_unfold. destruct (Tetromino.can_be_moved gw p d g); cbn [fst].
  - split; [exact Hws|]. apply Hiff. reflexivity.
  - auto.
Qed.

(** X14.  Over any run of [move] and [rotate] calls the active piece keeps
    fitting the board: between the walls, not below the floor and never on
    a tile of the grid; the calls return and leave the grid as it is. *)
Theorem active_piece_stays_free gh gw calls :
  forall p g,
    well_shaped (Tetromino.tile_matrix p) -> piece_fits gw p g ->
    Forall piece_call calls ->
    exists p',
      (forall fuel, run_calls gh gw fuel (p, g) calls = Some (p', g))
      /\ well_shaped (Tetromino.tile_matrix p') /\ piece_fits gw p' g.
Proof.
  induction calls as [|c calls IH]; intros p g Hws Hfit Hcalls.
  - exists p. split; [reflexivity|auto].
  - inversion Hcalls as [|c0 l0 Hc Hrest]; subst.
    destruct c as [d| |tiles blc]; [| |destruct Hc].
    + destruct (move_keeps_fit gw p d g Hws Hfit) as [Hws1 Hfit1].
      destruct (IH _ g Hws1 Hfit1 Hrest) as (p' & Hrun & Hws' & Hfit').
      exists p'. split; [|auto]. intros fuel. cbn [run_calls run_call fst snd].
      apply Hrun.
    + destruct (rotate_keeps_fit gh gw p g Hws Hfit) as [Hws1 Hfit1].
      destruct (IH _ g Hws1 Hfit1 Hrest) as (p' & Hrun & Hws' & Hfit').
      exists p'. split; [|auto]. intros fuel. cbn [run_calls run_call fst snd].
      apply Hrun.
Qed.

Lemma active_piece_stays_free_witness :
  let p := Tetromino.mk shape_T
             [[None; Some (mkTile 2); None];
              [Some (mkTile 2); Some (mkTile 4); Some (mkTile 2)];
              [None; None; None]] (mkPoint 0 1) in
  let g := mkGrid 4 3 [[Some (mkTile 2); None; None];
                       [None; None; None];
                       [None; None; None];
                       [None; None; None]] false 0 in
  let calls := [call_move dir_left; call_rotate; call_move dir_down;
                call_move dir_down] in
  well_shaped (Tetromino.tile_matrix p) /\ piece_fits 3 p g
  /\ Forall piece_call calls
  /\ exists p', run_calls 4 3 0 (p, g) calls = Some (p', g) /\ piece_fits 3 p' g.
Proof.
  intros p g calls.
  assert (Hws : well_shaped (Tetromino.tile_matrix p))
    by (apply well_shaped_check; reflexivity).
  assert (Hfit : piece_fits 3 p g).
  { intros [|[|[|r]]] [|[|[|c]]] Ho; try discriminate; cbn; repeat split; lia. }
  assert (Hcalls : Forall piece_call calls) by (repeat constructor).
  split; [exact Hws|]. split; [exact Hfit|]. split; [exact Hcalls|].
  destruct (active_piece_stays_free 4 3 calls p g Hws Hfit Hcalls)
    as (p' & Hrun & _ & Hfit').
  exists p'. split; [apply Hrun|exact Hfit'].
Defined.

(** ** The hard drop *)

Lemma hard_drop_mono gw g fuel :
  forall p p' fuel',
    hard_drop fuel gw p g = Some p' -> fuel <= fuel' ->
    hard_drop fuel' gw p g = Some p'.
Proof.
  induction fuel as [|fuel IH]; intros p p' fuel' H Hle; [discriminate|].
  destruct fuel' as [|fuel']; [lia|]. simpl in *.
  destruct (Tetromino.move gw p dir_down g) as [p1 [|]]; [|exact H].
  apply IH; [exact H|lia].
Qed.

Lemma hard_drop_steps gw g r c fuel :
  forall p,
    well_shaped (Tetromino.tile_matrix p) -> piece_fits gw p g ->
    is_some (tile_at (Tetromino.tile_matrix p) r c) = true ->
    Z.to_nat (y (Tetromino.get_cell_position p r c)) < fuel ->
    exists p',
      hard_drop fuel gw p g = Some p'
      /\ piece_fits gw p' g
      /\ Tetromino.can_be_moved gw p' dir_down g = false
      /\ Tetromino.tile_matrix p' = Tetromino.tile_matrix p
      /\ x (Tetromino.bottom_left_cell p') = x (Tetromino.bottom_left_cell p)
      /\ (y (Tetromino.bottom_left_cell p') <= y (Tetromino.bottom_left_cell p))%Z.
Proof.
  induction fuel as [|fuel IH]; intros p Hws Hfit Ho Hfuel; [lia|].
  pose proof (can_be_moved_fits gw p dir_down g Hws Hfit) as Hiff.
  simpl. rewrite move_unfold.
  destruct (Tetromino.can_be_moved gw p dir_down g) eqn:Hcan.
  - assert (Hfit1 : piece_fits gw (shifted p dir_down) g) by (apply Hiff; reflexivity).
    destruct (IH (shifted p dir_down) Hws Hfit1 Ho) as (p' & Hrun & Hfit' & Hstop & Hm & Hx & Hy).
    { destruct (Hfit1 r c Ho) as (_ & Hy1 & _).
      unfold Tetromino.get_cell_position in *.
      cbn [x y shifted Tetromino.bottom_left_cell Tetromino.tile_matrix] in *. lia. }
    exists p'. split; [exact Hrun|]. split; [exact Hfit'|]. split; [exact Hstop|].
    split; [exact Hm|]. cbn [x y shifted Tetromino.bottom_left_cell] in Hx, Hy.
    split; [exact Hx|lia].
  - exists p. split; [reflexivity|]. split; [exact Hfit|]. split; [exact Hcan|].
    split; [reflexivity|]. split; [reflexivity|lia].
Qed.

(** X15.  The hard drop of the main loop ends for a piece that fits the
    board and holds a tile: the piece comes to rest in the same columns, no
    higher than it was, still fitting the board, and where it rests it
    cannot be moved down (a tile of it stands on the floor or on a tile of
    the grid). *)
Theorem hard_drop_lands gw p g r c :
  well_shaped (Tetromino.tile_matrix p) -> piece_fits gw p g ->
  is_some (tile_at (Tetromino.tile_matrix p) r c) = true ->
  exists p',
    (forall fuel,
        Z.to_nat (y (Tetromino.get_cell_position p r c)) < fuel ->
        hard_drop fuel gw p g = Some p')
    /\ piece_fits gw p' g
    /\ Tetromino.can_be_moved gw p' dir_down g = false
    /\ Tetromino.tile_matrix p' = Tetromino.tile_matrix p
    /\ x (Tetromino.bottom_left_cell p') = x (Tetromino.bottom_left_cell p)
    /\ (y (Tetromino.bottom_left_cell p') <= y (Tetromino.bottom_left_cell p))%Z.
Proof.
  intros Hws Hfit Ho.
  set (k := Z.to_nat (y (Tetromino.get_cell_position p r c))).
  destruct (hard_drop_steps gw g r c (S k) p Hws Hfit Ho ltac:(fold k; lia))
    as (p' & Hrun & Hrest).
  exists p'. split; [|exact Hrest].
  intros fuel Hfuel. apply (hard_drop_mono gw g (S k)); [exact Hrun|lia].
Qed.

Lemma hard_drop_lands_witness :
  let p := Tetromino.mk shape_O [[Some (mkTile 2); Some (mkTile 2)];
                                 [Some (mkTile 2); Some (mkTile 4)]] (mkPoint 0 3) in
  let g := mkGrid 4 3 [[None; Some (mkTile 8); None];
                       [None; None; None];
                       [None; None; None];
                       [None; None; None]] false 0 in
  well_shaped (Tetromino.tile_matrix p) /\ piece_fits 3 p g
  /\ is_some (tile_at (Tetromino.tile_matrix p) 1 0) = true
  /\ hard_drop 4 3 p g = Some (Tetromino.mk shape_O (Tetromino.tile_matrix p) (mkPoint 0 1))
  /\ exists p', hard_drop 4 3 p g = Some p'
                /\ Tetromino.can_be_moved 3 p' dir_down g = false.
Proof.
  intros p g.
  assert (Hws : well_shaped (Tetromino.tile_matrix p))
    by (apply well_shaped_check; reflexivity).
  assert (Hfit : piece_fits 3 p g).
  { intros [|[|r]] [|[|c]] Ho; try discriminate; cbn; repeat split; lia. }
  assert (Ho : is_some (tile_at (Tetromino.tile_matrix p) 1 0) = true) by reflexivity.
  split; [exact Hws|]. split; [exact Hfit|]. split; [exact Ho|].
  split; [reflexivity|].
  destruct (hard_drop_lands 3 p g 1 0 Hws Hfit Ho) as (p' & Hrun & _ & Hstop & _).
  exists p'. split; [apply Hrun; vm_compute; lia|exact Hstop].
Defined.

(** ** Four quarter turns *)

Lemma matrix_eq_cells h w (m m' : Matrix) :
  matrix_dims h w m -> matrix_dims h w m' ->
  (forall r c, r < h -> c < w -> tile_at m r c = tile_at m' r c) -> m = m'.
Proof.
  intros Hd Hd' Hcells. apply (matrix_eq_columns h w); [exact Hd|exact Hd'|].
  intros c Hc. apply list_eq. intros r.
  destruct (decide (r < h)) as [Hr|Hr].
  - rewrite (column_cell h w m r c Hd Hr), (column_cell h w m' r c Hd' Hr).
    f_equal. apply Hcells; assumption.
  - rewrite !lookup_ge_None_2; [reflexivity| |];
      rewrite length_column; [destruct Hd' as [-> _]|destruct Hd as [-> _]]; lia.
Qed.

Lemma four_rotations n (m : Matrix) :
  matrix_dims n n m ->
  rot90_clockwise (rot90_clockwise (rot90_clockwise (rot90_clockwise m))) = m.
Proof.
  intros Hd.
  pose proof (rot90_clockwise_dims _ _ Hd) as Hd1.
  pose proof (rot90_clockwise_dims _ _ Hd1) as Hd2.
  pose proof (rot90_clockwise_dims _ _ Hd2) as Hd3.
  pose proof (rot90_clockwise_dims _ _ Hd3) as Hd4.
  apply (matrix_eq_cells n n); [exact Hd4|exact Hd|].
  intros r c Hr Hc.
  rewrite (rot90_clockwise_lookup n _ r c Hd3 Hr Hc).
  rewrite (rot90_clockwise_lookup n _ _ _ Hd2) by lia.
  rewrite (rot90_clockwise_lookup n _ _ _ Hd1) by lia.
  rewrite (rot90_clockwise_lookup n _ _ _ Hd) by lia.
  f_equal; lia.
Qed.

Lemma rotate_success gh gw p g :
  let m := Tetromino.tile_matrix p in
  matrix_dims (length m) (length m) m ->
  snd (Tetromino.rotate gh gw p g) = true ->
  fst (Tetromino.rotate gh gw p g)
  = Tetromino.mk (Tetromino.type p) (rot90_clockwise m) (Tetromino.bottom_left_cell p).
Proof.
  intros m Hd H. destruct (rotate_cases gh gw p g Hd) as [[E _]|E];
    rewrite E in *; [reflexivity|discriminate].
Qed.

(** X16.  Four quarter turns bring a square matrix back, so four calls of
    [rotate] that all succeed leave the piece exactly as it was. *)
Theorem four_rotations_restore gh gw p g :
  let m := Tetromino.tile_matrix p in
  matrix_dims (length m) (length m) m ->
  let r1 := Tetromino.rotate gh gw p g in
  let r2 := Tetromino.rotate gh gw (fst r1) g in
  let r3 := Tetromino.rotate gh gw (fst r2) g in
  let r4 := Tetromino.rotate gh gw (fst r3) g in
  Nat.iter 4 rot90_clockwise m = m
  /\ (snd r1 = true -> snd r2 = true -> snd r3 = true -> snd r4 = true ->
      fst r4 = p).
Proof.
  intros m Hd r1 r2 r3 r4.
  split; [exact (four_rotations _ m Hd)|].
  intros H1 H2 H3 H4. subst r4 r3 r2 r1 m.
  set (m := Tetromino.tile_matrix p) in *.
  pose proof (rot90_clockwise_dims _ _ Hd) as Hd1.
  pose proof (rot90_clockwise_dims _ _ Hd1) as Hd2.
  pose proof (rot90_clockwise_dims _ _ Hd2) as Hd3.
  set (p1 := Tetromino.mk (Tetromino.type p) (rot90_clockwise m)
                          (Tetromino.bottom_left_cell p)).
  set (p2 := Tetromino.mk (Tetromino.type p) (rot90_clockwise (rot90_clockwise m))
                          (Tetromino.bottom_left_cell p)).
  set (p3 := Tetromino.mk (Tetromino.type p)
                          (rot90_clockwise (rot90_clockwise (rot90_clockwise m)))
                          (Tetromino.bottom_left_cell p)).
  assert (E1 : fst (Tetromino.rotate gh gw p g) = p1)
    by exact (rotate_success gh gw p g Hd H1).
  rewrite E1 in H2, H3, H4 |- *.
  assert (E2 : fst (Tetromino.rotate gh gw p1 g) = p2).
  { apply (rotate_success gh gw p1 g); [|exact H2].
    cbn [p1 Tetromino.tile_matrix]. rewrite (proj1 Hd1). exact Hd1. }
  rewrite E2 in H3, H4 |- *.
  assert (E3 : fst (Tetromino.rotate gh gw p2 g) = p3).
  { apply (rotate_success gh gw p2 g); [|exact H3].
    cbn [p2 Tetromino.tile_matrix]. rewrite (proj1 Hd2). exact Hd2. }
  rewrite E3 in H4 |- *.
  rewrite (rotate_success gh gw p3 g); [|cbn [p3 Tetromino.tile_matrix];
                                         rewrite (proj1 Hd3); exact Hd3|exact H4].
  cbn [p3 Tetromino.tile_matrix Tetromino.type Tetromino.bottom_left_cell].
  rewrite (four_rotations _ m Hd). subst m. destruct p; reflexivity.
Qed.

Lemma four_rotations_restore_witness :
  let p := Tetromino.mk shape_T
             [[None; Some (mkTile 2); None];
              [Some (mkTile 2); Some (mkTile 4); Some (mkTile 2)];
              [None; None; None]] (mkPoint 3 5) in
  let g := GameGrid_init 20 16 in
  matrix_dims 3 3 (Tetromino.tile_matrix p)
  /\ fst (Tetromino.rotate 20 16
            (fst (Tetromino.rotate 20 16
                    (fst (Tetromino.rotate 20 16
                            (fst (Tetromino.rotate 20 16 p g)) g)) g)) g) = p.
Proof.
  intros p g.
  assert (Hd : matrix_dims 3 3 (Tetromino.tile_matrix p)) by concrete_dims.
  split; [exact Hd|].
  apply (four_rotations_restore 20 16 p g Hd); reflexivity.
Defined.

(** ** The bounding box of a piece *)

Lemma fold_left_stable {A B} (f : A -> B -> A) (P : A -> Prop) (l : list B) :
  (forall y a, y ∈ l -> P a -> P (f a y)) ->
  forall a, P a -> P (fold_left f l a).
Proof. intros H a Ha. apply (fold_left_keeps f P l); [|exact Ha]. auto. Qed.

Lemma fold_left_establish {A B} (f : A -> B -> A) (Q : A -> Prop)
    (P : B -> A -> Prop) (l : list B) :
  (forall y a, y ∈ l -> Q a -> Q (f a y)) ->
  (forall x a, x ∈ l -> Q a -> P x (f a x)) ->
  (forall x y a, x ∈ l -> y ∈ l -> Q a -> P x a -> P x (f a y)) ->
  forall a, Q a ->
    Q (fold_left f l a) /\ forall x, x ∈ l -> P x (fold_left f l a).
Proof.
  induction l as [|y l IH]; intros HQ Hnew Hkeep a Ha.
  - split; [exact Ha|]. intros x Hx. inversion Hx.
  - assert (Ha1 : Q (f a y)) by (apply HQ; [left|exact Ha]).
    destruct (IH (fun z b Hz => HQ z b (list_elem_of_further _ _ _ Hz))
                 (fun z b Hz => Hnew z b (list_elem_of_further _ _ _ Hz))
                 (fun z w b Hz Hw => Hkeep z w b (list_elem_of_further _ _ _ Hz)
                                           (list_elem_of_further _ _ _ Hw))
                 (f a y) Ha1) as [HQ' HP'].
    split; [exact HQ'|]. intros x Hx. simpl.
    apply elem_of_cons in Hx as [->|Hx]; [|apply HP', Hx].
    assert (Hgoal : Q (fold_left f l (f a y)) /\ P y (fold_left f l (f a y)));
      [|apply Hgoal].
    apply (fold_left_keeps f (fun b => Q b /\ P y b) l).
    + intros z b Hz [Hb1 Hb2]. split.
      * apply HQ; [right; exact Hz|exact Hb1].
      * apply Hkeep; [left|right; exact Hz|exact Hb1|exact Hb2].
    + split; [exact Ha1|]. apply Hnew; [left|exact Ha].
Qed.

Lemma bounds_spec (m : Matrix) :
  let n := length m in
  let '(min_row, max_row, min_col, max_col) := Tetromino.bounds m in
  (min_row <= n - 1 /\ max_row <= n - 1 /\ min_col <= n - 1 /\ max_col <= n - 1)
  /\ (min_row = n - 1 \/ exists c, is_some (tile_at m min_row c) = true)
  /\ (max_row = 0 \/ exists c, is_some (tile_at m max_row c) = true)
  /\ (min_col = n - 1 \/ exists r, is_some (tile_at m r min_col) = true)
  /\ (max_col = 0 \/ exists r, is_some (tile_at m r max_col) = true)
  /\ forall r c, r < n -> c < n -> is_some (tile_at m r c) = true ->
                 min_row <= r <= max_row /\ min_col <= c <= max_col.
Proof.
  intros n. unfold Tetromino.bounds. fold n.
  set (Q := fun b : nat * nat * nat * nat =>
              let '(min_row, max_row, min_col, max_col) := b in
              (min_row <= n - 1 /\ max_row <= n - 1 /\ min_col <= n - 1
               /\ max_col <= n - 1)
              /\ (min_row = n - 1 \/ exists c, is_some (tile_at m min_row c) = true)
              /\ (max_row = 0 \/ exists c, is_some (tile_at m max_row c) = true)
              /\ (min_col = n - 1 \/ exists r, is_some (tile_at m r min_col) = true)
              /\ (max_col = 0 \/ exists r, is_some (tile_at m r max_col) = true)).
  set (C := fun (r c : nat) (b : nat * nat * nat * nat) =>
              let '(min_row, max_row, min_col, max_col) := b in
              is_some (tile_at m r c) = true ->
              min_row <= r <= max_row /\ min_col <= c <= max_col).
  assert (Hstep : forall r c b, r < n -> c < n -> Q b ->
                    Q (Tetromino.bound_cell m r b c) /\ C r c (Tetromino.bound_cell m r b c)).
  { intros r c [[[a1 a2] a3] a4] Hr Hc (Hb & H1 & H2 & H3 & H4).
    unfold Tetromino.bound_cell, C.
    destruct (is_some (tile_at m r c)) eqn:Ho; [|split; [repeat split; auto; lia|discriminate]].
    split; [|intros _; lia]. unfold Q. split; [lia|].
    split; [|split; [|split]].
    - destruct (Nat.min_spec a1 r) as [[_ ->]|[_ ->]]; [exact H1|right; eauto].
    - destruct (Nat.max_spec a2 r) as [[_ ->]|[_ ->]]; [right; eauto|exact H2].
    - destruct (Nat.min_spec a3 c) as [[_ ->]|[_ ->]]; [exact H3|right; eauto].
    - destruct (Nat.max_spec a4 c) as [[_ ->]|[_ ->]]; [right; eauto|exact H4]. }
  assert (Hkeep : forall r c r' c' b, C r c b -> C r c (Tetromino.bound_cell m r' b c')).
  { intros r c r' c' [[[a1 a2] a3] a4] HC. unfold Tetromino.bound_cell, C in *.
    destruct (is_some (tile_at m r' c')); [|exact HC]. intros Ho.
    specialize (HC Ho). lia. }
  assert (Hinner : forall r b, r < n -> Q b ->
            Q (fold_left (Tetromino.bound_cell m r) (seq 0 n) b)
            /\ forall c, c ∈ seq 0 n ->
                         C r c (fold_left (Tetromino.bound_cell m r) (seq 0 n) b)).
  { intros r b Hr Hb.
    apply (fold_left_establish (Tetromino.bound_cell m r) Q (C r)); [| | |exact Hb].
    - intros c a Hc Ha. apply elem_of_seq in Hc. apply Hstep; [exact Hr|lia|exact Ha].
    - intros c a Hc Ha. apply elem_of_seq in Hc. apply Hstep; [exact Hr|lia|exact Ha].
    - intros c c' a _ _ _ HC. apply Hkeep, HC. }
  assert (Hkeep_row : forall r c r' b,
            C r c b -> C r c (fold_left (Tetromino.bound_cell m r') (seq 0 n) b)).
  { intros r c r' b HC. apply (fold_left_stable _ (C r c)); [|exact HC].
    intros c' a _ Ha. apply Hkeep, Ha. }
  destruct (fold_left_establish
              (fun b r => fold_left (Tetromino.bound_cell m r) (seq 0 n) b) Q
              (fun r b => forall c, c ∈ seq 0 n -> C r c b) (seq 0 n))
    with (a := (n - 1, 0, n - 1, 0)) as [HQ HC].
  - intros r a Hr Ha. apply elem_of_seq in Hr. apply Hinner; [lia|exact Ha].
  - intros r a Hr Ha. apply elem_of_seq in Hr. apply Hinner; [lia|exact Ha].
  - intros r r' a _ _ _ HCr c Hc. apply Hkeep_row, HCr, Hc.
  - unfold Q. split; [lia|]. auto.
  - destruct (fold_left _ (seq 0 n) (n - 1, 0, n - 1, 0)) as [[[a1 a2] a3] a4].
    destruct HQ as (Hb & H1 & H2 & H3 & H4).
    split; [exact Hb|]. split; [exact H1|]. split; [exact H2|].
    split; [exact H3|]. split; [exact H4|].
    intros r c Hr Hc Ho.
    apply (HC r ltac:(apply elem_of_seq; lia) c ltac:(apply elem_of_seq; lia) Ho).
Qed.

Lemma crop_spec (m : Matrix) n mr xr mc xc :
  matrix_dims n n m -> mr <= xr -> mc <= xc ->
  let hh := xr + 1 - mr in
  let ww := xc + 1 - mc in
  let cropped :=
    fold_left (fun cr r => fold_left (Tetromino.crop_cell m mr mc r) (seq mc ww) cr)
              (seq mr hh) (replicate hh (replicate ww None)) in
  matrix_dims hh ww cropped
  /\ forall i j, i < hh -> j < ww ->
                 tile_at cropped i j = tile_at m (mr + i) (mc + j).
Proof.
  intros Hd Hr Hc hh ww.
  set (Q := fun cur : Matrix =>
              matrix_dims hh ww cur
              /\ forall i j, i < hh -> j < ww ->
                   tile_at cur i j = None
                   \/ tile_at cur i j = tile_at m (mr + i) (mc + j)).
  set (P := fun (r c : nat) (cur : Matrix) =>
              is_some (tile_at m r c) = true ->
              tile_at cur (r - mr) (c - mc) = tile_at m r c).
  assert (HQ : forall r c cur, mr <= r < mr + hh -> mc <= c < mc + ww ->
                 Q cur -> Q (Tetromino.crop_cell m mr mc r cur c)).
  { intros r c cur Hr' Hc' [Hdc Hcells]. unfold Tetromino.crop_cell.
    destruct (tile_at m r c) as [t|] eqn:Ht; [|split; assumption].
    split; [apply set_tile_dims, Hdc|]. intros i j Hi Hj.
    destruct (decide (r - mr = i /\ c - mc = j)) as [[<- <-]|Hne].
    - right. rewrite (tile_at_set_tile_eq hh ww) by (auto; lia).
      replace (mr + (r - mr)) with r by lia. replace (mc + (c - mc)) with c by lia.
      symmetry. exact Ht.
    - rewrite tile_at_set_tile_other by lia. apply Hcells; assumption. }
  assert (HP : forall r c cur, mr <= r < mr + hh -> mc <= c < mc + ww ->
                 Q cur -> P r c (Tetromino.crop_cell m mr mc r cur c)).
  { intros r c cur Hr' Hc' [Hdc _] Ho. unfold Tetromino.crop_cell.
    destruct (tile_at m r c) as [t|] eqn:Ht; [|discriminate].
    apply (tile_at_set_tile_eq hh ww); [exact Hdc|lia|lia]. }
  assert (HK : forall r c r' c' cur,
                 mr <= r < mr + hh -> mc <= c < mc + ww ->
                 mr <= r' < mr + hh -> mc <= c' < mc + ww ->
                 Q cur -> P r c cur -> P r c (Tetromino.crop_cell m mr mc r' cur c')).
  { intros r c r' c' cur Hr1 Hc1 Hr2 Hc2 [Hdc _] HPc Ho. unfold Tetromino.crop_cell.
    destruct (tile_at m r' c') as [t|] eqn:Ht; [|exact (HPc Ho)].
    destruct (decide (r' = r /\ c' = c)) as [[-> ->]|Hne].
    - rewrite (tile_at_set_tile_eq hh ww) by (auto; lia). symmetry. exact Ht.
    - rewrite tile_at_set_tile_other by lia. exact (HPc Ho). }
  assert (Hinner : forall r cur, mr <= r < mr + hh -> Q cur ->
            Q (fold_left (Tetromino.crop_cell m mr mc r) (seq mc ww) cur)
            /\ forall c, c ∈ seq mc ww ->
                 P r c (fold_left (Tetromino.crop_cell m mr mc r) (seq mc ww) cur)).
  { intros r cur Hr' Hcur.
    apply (fold_left_establish (Tetromino.crop_cell m mr mc r) Q (P r)); [| | |exact Hcur].
    - intros c a Hc' Ha. apply elem_of_seq in Hc'. apply HQ; auto.
    - intros c a Hc' Ha. apply elem_of_seq in Hc'. apply HP; auto.
    - intros c c' a Hc1 Hc2 Ha HPa. apply elem_of_seq in Hc1, Hc2.
      apply HK; auto. }
  assert (Hkeep_row : forall r c r' cur,
            mr <= r < mr + hh -> mc <= c < mc + ww -> mr <= r' < mr + hh ->
            Q cur -> P r c cur ->
            P r c (fold_left (Tetromino.crop_cell m mr mc r') (seq mc ww) cur)).
  { intros r c r' cur Hr1 Hc1 Hr2 Hcur HPc.
    assert (Hgoal : Q (fold_left (Tetromino.crop_cell m mr mc r') (seq mc ww) cur)
                    /\ P r c (fold_left (Tetromino.crop_cell m mr mc r') (seq mc ww) cur));
      [|apply Hgoal].
    apply (fold_left_keeps _ (fun a => Q a /\ P r c a)); [|auto].
    intros c' a Hc' [Ha HPa]. apply elem_of_seq in Hc'.
    split; [apply HQ; auto|apply HK; auto]. }
  destruct (fold_left_establish
              (fun cr r => fold_left (Tetromino.crop_cell m mr mc r) (seq mc ww) cr) Q
              (fun r cur => forall c, c ∈ seq mc ww -> P r c cur) (seq mr hh))
    with (a := replicate hh (replicate ww (@None Tile))) as [[Hdf Hcells] HPf].
  - intros r a Hr' Ha. apply elem_of_seq in Hr'. apply Hinner; auto.
  - intros r a Hr' Ha. apply elem_of_seq in Hr'. apply Hinner; auto.
  - intros r r' a Hr1 Hr2 Ha HPa c Hc'. apply elem_of_seq in Hr1, Hr2.
    pose proof Hc' as Hc''. apply elem_of_seq in Hc''.
    apply Hkeep_row; auto.
  - split; [apply replicate_dims|]. intros i j Hi Hj. left.
    unfold tile_at. rewrite lookup_replicate_2 by exact Hi.
    rewrite lookup_replicate_2 by exact Hj. reflexivity.
  - split; [exact Hdf|]. intros i j Hi Hj.
    destruct (is_some (tile_at m (mr + i) (mc + j))) eqn:Ho.
    + pose proof (HPf (mr + i) ltac:(apply elem_of_seq; lia)
                      (mc + j) ltac:(apply elem_of_seq; lia) Ho) as E.
      replace (mr + i - mr) with i in E by lia.
      replace (mc + j - mc) with j in E by lia. exact E.
    + destruct (Hcells i j Hi Hj) as [E|E]; [|exact E].
      rewrite E. destruct (tile_at m (mr + i) (mc + j)); [discriminate|reflexivity].
Qed.

Lemma get_min_bounded_spec p r0 c0 :
  let m := Tetromino.tile_matrix p in
  let n := length m in
  matrix_dims n n m -> is_some (tile_at m r0 c0) = true ->
  exists mr xr mc xc cropped,
    Tetromino.get_min_bounded_tile_matrix p
    = Some (cropped,
            mkPoint (x (Tetromino.bottom_left_cell p) + Z.of_nat mc)
                    (y (Tetromino.bottom_left_cell p)
                     + (Z.of_nat n - 1 - Z.of_nat xr)))
    /\ mr <= xr < n /\ mc <= xc < n
    /\ matrix_dims (xr + 1 - mr) (xc + 1 - mc) cropped
    /\ (forall i j, i < xr + 1 - mr -> j < xc + 1 - mc ->
                    tile_at cropped i j = tile_at m (mr + i) (mc + j))
    /\ (forall r c, is_some (tile_at m r c) = true ->
                    mr <= r <= xr /\ mc <= c <= xc)
    /\ (exists c, is_some (tile_at m mr c) = true)
    /\ (exists c, is_some (tile_at m xr c) = true)
    /\ (exists r, is_some (tile_at m r mc) = true)
    /\ (exists r, is_some (tile_at m r xc) = true).
Proof.
  intros m n Hd Ho.
  destruct (is_some_inside _ _ _ _ _ Hd Ho) as [Hr0 Hc0].
  pose proof (bounds_spec m) as Hb. cbv zeta in Hb. fold n in Hb.
  unfold Tetromino.get_min_bounded_tile_matrix. fold m. fold n.
  destruct (Tetromino.bounds m) as [[[mr xr] mc] xc].
  destruct Hb as (Hle & H1 & H2 & H3 & H4 & Hcov).
  destruct (Hcov r0 c0 Hr0 Hc0 Ho) as [Hrr Hcc].
  destruct (Nat.eqb_spec n 0) as [E|_]; [lia|].
  assert (Hneg : (((Z.of_nat xr - Z.of_nat mr + 1 <? 0)
                   || (Z.of_nat xc - Z.of_nat mc + 1 <? 0))%Z) = false).
  { apply orb_false_iff. split; apply Z.ltb_ge; lia. }
  rewrite Hneg.
  replace (Z.to_nat (Z.of_nat xr - Z.of_nat mr + 1)) with (xr + 1 - mr) by lia.
  replace (Z.to_nat (Z.of_nat xc - Z.of_nat mc + 1)) with (xc + 1 - mc) by lia.
  destruct (crop_spec m n mr xr mc xc Hd ltac:(lia) ltac:(lia)) as [Hdc Hcells].
  eexists mr, xr, mc, xc, _. split; [reflexivity|].
  split; [lia|]. split; [lia|]. split; [exact Hdc|]. split; [exact Hcells|].
  split.
  { intros r c Hrc. destruct (is_some_inside _ _ _ _ _ Hd Hrc) as [Hr Hc].
    apply Hcov; assumption. }
  split; [destruct H1 as [->|H1]; [|exact H1]; exists c0;
          replace (n - 1) with r0 by lia; exact Ho|].
  split; [destruct H2 as [->|H2]; [|exact H2]; exists c0;
          replace 0 with r0 by lia; exact Ho|].
  split; [destruct H3 as [->|H3]; [|exact H3]; exists r0;
          replace (n - 1) with c0 by lia; exact Ho|].
  destruct H4 as [->|H4]; [|exact H4]. exists r0.
  replace 0 with c0 by lia. exact Ho.
Qed.

Lemma min_bounded_cells p r0 c0 :
  let m := Tetromino.tile_matrix p in
  matrix_dims (length m) (length m) m -> is_some (tile_at m r0 c0) = true ->
  exists cropped pos,
    Tetromino.get_min_bounded_tile_matrix p = Some (cropped, pos)
    /\ cropped <> []
    /\ matrix_dims (length cropped) (length (row_at cropped 0)) cropped
    /\ (forall r c t,
          tile_at m r c = Some t ->
          exists i j,
            tile_at cropped i j = Some t
            /\ mkPoint (x pos + Z.of_nat j)
                       (y pos + (Z.of_nat (length cropped) - 1 - Z.of_nat i))
               = Tetromino.get_cell_position p r c)
    /\ (forall i j t,
          tile_at cropped i j = Some t ->
          exists r c,
            tile_at m r c = Some t
            /\ mkPoint (x pos + Z.of_nat j)
                       (y pos + (Z.of_nat (length cropped) - 1 - Z.of_nat i))
               = Tetromino.get_cell_position p r c)
    /\ (exists j, is_some (tile_at cropped 0 j) = true)
    /\ (exists j, is_some (tile_at cropped (length cropped - 1) j) = true)
    /\ (exists i, is_some (tile_at cropped i 0) = true)
    /\ (exists i, is_some (tile_at cropped i (length (row_at cropped 0) - 1)) = true).
Proof.
  intros m Hd Ho.
  destruct (get_min_bounded_spec p r0 c0 Hd Ho)
    as (mr & xr & mc & xc & cropped & Hrun & Hr & Hc & Hdc & Hcells & Hcov
        & (c1 & H1) & (c2 & H2) & (r3 & H3) & (r4 & H4)).
  fold m in Hrun, Hcells, Hcov, H1, H2, H3, H4.
  assert (Hlen : length cropped = xr + 1 - mr) by apply Hdc.
  assert (Hrow0 : length (row_at cropped 0) = xc + 1 - mc).
  { destruct (lookup_lt_is_Some_2 cropped 0) as [row Hrow]; [lia|].
    rewrite (row_at_lookup _ _ _ Hrow).
    exact (matrix_dims_row _ _ _ _ _ Hdc Hrow). }
  exists cropped, (mkPoint (x (Tetromino.bottom_left_cell p) + Z.of_nat mc)
                           (y (Tetromino.bottom_left_cell p)
                            + (Z.of_nat (length m) - 1 - Z.of_nat xr))).
  split; [exact Hrun|].
  split; [intros ->; simpl in Hlen; lia|].
  split; [rewrite Hlen, Hrow0; exact Hdc|].
  assert (Hpos : forall i j, i < xr + 1 - mr -> j < xc + 1 - mc ->
            mkPoint (x (Tetromino.bottom_left_cell p) + Z.of_nat mc + Z.of_nat j)
                    (y (Tetromino.bottom_left_cell p)
                     + (Z.of_nat (length m) - 1 - Z.of_nat xr)
                     + (Z.of_nat (length cropped) - 1 - Z.of_nat i))
            = Tetromino.get_cell_position p (mr + i) (mc + j)).
  { intros i j Hi Hj. unfold Tetromino.get_cell_position. fold m.
    rewrite Hlen. f_equal; lia. }
  cbn [x y].
  split; [|split; [|split; [|split; [|split]]]].
  - intros r c t Ht.
    destruct (Hcov r c) as [Hrr Hcc]; [rewrite Ht; reflexivity|].
    exists (r - mr), (c - mc). split.
    + rewrite Hcells by lia.
      replace (mr + (r - mr)) with r by lia. replace (mc + (c - mc)) with c by lia.
      exact Ht.
    + rewrite Hpos by lia. f_equal; lia.
  - intros i j t Ht.
    destruct (tile_at_inside _ _ _ _ _ _ Hdc Ht) as [Hi Hj].
    exists (mr + i), (mc + j). split; [rewrite <- Hcells by lia; exact Ht|].
    apply Hpos; assumption.
  - destruct (Hcov mr c1 H1) as [_ Hcc]. exists (c1 - mc).
    rewrite Hcells by lia. replace (mr + 0) with mr by lia.
    replace (mc + (c1 - mc)) with c1 by lia. exact H1.
  - destruct (Hcov xr c2 H2) as [_ Hcc]. exists (c2 - mc).
    rewrite Hlen, Hcells by lia. replace (mr + (xr + 1 - mr - 1)) with xr by lia.
    replace (mc + (c2 - mc)) with c2 by lia. exact H2.
  - destruct (Hcov r3 mc H3) as [Hrr _]. exists (r3 - mr).
    rewrite Hcells by lia. replace (mc + 0) with mc by lia.
    replace (mr + (r3 - mr)) with r3 by lia. exact H3.
  - destruct (Hcov r4 xc H4) as [Hrr _]. exists (r4 - mr).
    rewrite Hrow0, Hcells by lia. replace (mc + (xc + 1 - mc - 1)) with xc by lia.
    replace (mr + (r4 - mr)) with r4 by lia. exact H4.
Qed.

(** X17.  For a square piece that holds a tile,
    [get_min_bounded_tile_matrix] returns a non-empty matrix whose first and
    last row and first and last column each hold a tile, and which holds
    exactly the tiles of the piece: the board cell [update_grid] computes
    for a tile of the cropped matrix is the cell [get_cell_position] gives
    for the same tile of the piece. *)
Theorem min_bounded_matrix_positions p r0 c0 :
  let m := Tetromino.tile_matrix p in
  matrix_dims (length m) (length m) m -> is_some (tile_at m r0 c0) = true ->
  exists cropped pos,
    Tetromino.get_min_bounded_tile_matrix p = Some (cropped, pos)
    /\ cropped <> []
    /\ matrix_dims (length cropped) (length (row_at cropped 0)) cropped
    /\ (forall r c t,
          tile_at m r c = Some t ->
          exists i j,
            tile_at cropped i j = Some t
            /\ mkPoint (x pos + Z.of_nat j)
                       (y pos + (Z.of_nat (length cropped) - 1 - Z.of_nat i))
               = Tetromino.get_cell_position p r c)
    /\ (forall i j t,
          tile_at cropped i j = Some t ->
          exists r c,
            tile_at m r c = Some t
            /\ mkPoint (x pos + Z.of_nat j)
                       (y pos + (Z.of_nat (length cropped) - 1 - Z.of_nat i))
               = Tetromino.get_cell_position p r c)
    /\ (exists j, is_some (tile_at cropped 0 j) = true)
    /\ (exists j, is_some (tile_at cropped (length cropped - 1) j) = true)
    /\ (exists i, is_some (tile_at cropped i 0) = true)
    /\ (exists i, is_some (tile_at cropped i (length (row_at cropped 0) - 1)) = true).
Proof. apply min_bounded_cells. Qed.

Lemma min_bounded_matrix_positions_witness :
  let p := Tetromino.mk shape_T
             [[None; Some (mkTile 2); None];
              [Some (mkTile 2); Some (mkTile 4); Some (mkTile 2)];
              [None; None; None]] (mkPoint 3 5) in
  matrix_dims 3 3 (Tetromino.tile_matrix p)
  /\ is_some (tile_at (Tetromino.tile_matrix p) 0 1) = true
  /\ Tetromino.get_min_bounded_tile_matrix p
     = Some ([[None; Some (mkTile 2); None];
              [Some (mkTile 2); Some (mkTile 4); Some (mkTile 2)]], mkPoint 3 6)
  /\ exists cropped pos,
       Tetromino.get_min_bounded_tile_matrix p = Some (cropped, pos)
       /\ cropped <> [].
Proof.
  intros p.
  assert (Hd : matrix_dims 3 3 (Tetromino.tile_matrix p)) by concrete_dims.
  assert (Ho : is_some (tile_at (Tetromino.tile_matrix p) 0 1) = true) by reflexivity.
  split; [exact Hd|]. split; [exact Ho|]. split; [reflexivity|].
  destruct (min_bounded_matrix_positions p 0 1 Hd Ho) as (cropped & pos & Hrun & Hne & _).
  exists cropped, pos. split; [exact Hrun|exact Hne].
Defined.

(** ** Where the placement loops write *)

Lemma lock_cells g tiles blc :
  grid_wf g ->
  let n_rows := length tiles in
  let n_cols := length (row_at tiles 0) in
  let cell_y := fun row : nat => (y blc + (Z.of_nat n_rows - 1 - Z.of_nat row))%Z in
  let cell_x := fun col : nat => (x blc + Z.of_nat col)%Z in
  let st := lock_tiles tiles blc g in
  (forall row col t,
      row < n_rows -> col < n_cols -> tile_at tiles row col = Some t ->
      is_inside g (cell_y row) (cell_x col) = true ->
      tile_at (tile_matrix (fst st)) (Z.to_nat (cell_y row)) (Z.to_nat (cell_x col))
      = Some t
      /\ Z.to_nat (cell_x col) ∈ snd st)
  /\ (forall R C,
        (forall row col,
            row < n_rows -> col < n_cols ->
            is_some (tile_at tiles row col) = true ->
            is_inside g (cell_y row) (cell_x col) = true ->
            (Z.to_nat (cell_y row), Z.to_nat (cell_x col)) <> (R, C)) ->
        tile_at (tile_matrix (fst st)) R C = tile_at (tile_matrix g) R C)
  /\ (forall c, c ∈ snd st ->
        exists row col,
          row < n_rows /\ col < n_cols
          /\ is_some (tile_at tiles row col) = true
          /\ is_inside g (cell_y row) (cell_x col) = true
          /\ Z.to_nat (cell_x col) = c).
Proof.
  intros Hwf n_rows n_cols cell_y cell_x st.
  set (Q := fun s : GameGrid * list nat =>
              lock_inv g s
              /\ (forall R C,
                    (forall row col,
                        row < n_rows -> col < n_cols ->
                        is_some (tile_at tiles row col) = true ->
                        is_inside g (cell_y row) (cell_x col) = true ->
                        (Z.to_nat (cell_y row), Z.to_nat (cell_x col)) <> (R, C)) ->
                    tile_at (tile_matrix (fst s)) R C = tile_at (tile_matrix g) R C)
              /\ (forall c, c ∈ snd s ->
                    exists row col,
                      row < n_rows /\ col < n_cols
                      /\ is_some (tile_at tiles row col) = true
                      /\ is_inside g (cell_y row) (cell_x col) = true
                      /\ Z.to_nat (cell_x col) = c)).
  set (P := fun (col row : nat) (s : GameGrid * list nat) =>
              forall t, tile_at tiles row col = Some t ->
                        is_inside g (cell_y row) (cell_x col) = true ->
                        tile_at (tile_matrix (fst s)) (Z.to_nat (cell_y row))
                                (Z.to_nat (cell_x col)) = Some t
                        /\ Z.to_nat (cell_x col) ∈ snd s).
  assert (Hcell : forall col row s,
            lock_inv g s ->
            lock_cell n_rows tiles blc col s row
            = match tile_at tiles row col with
              | Some tile =>
                if is_inside g (cell_y row) (cell_x col) then
                  (with_matrix (fst s)
                     (set_tile (tile_matrix (fst s)) (Z.to_nat (cell_y row))
                               (Z.to_nat (cell_x col)) (Some tile)),
                   if bool_decide (Z.to_nat (cell_x col) ∈ snd s) then snd s
                   else snd s ++ [Z.to_nat (cell_x col)])
                else (with_game_over (fst s) true, snd s)
              | None => s
              end).
  { intros col row s (_ & Hh & Hw & _). unfold lock_cell.
    destruct (tile_at tiles row col); [|reflexivity].
    rewrite (is_inside_dims g (fst s)) by assumption. reflexivity. }
  assert (HQ : forall col row s, row < n_rows -> col < n_cols ->
                 Q s -> Q (lock_cell n_rows tiles blc col s row)).
  { intros col row s Hrow Hcol (Hinv & Hother & Hcols).
    split; [apply (lock_cell_spec g tiles blc col s row Hinv)|].
    rewrite (Hcell col row s Hinv).
    destruct (tile_at tiles row col) as [t|] eqn:Ht; [|split; assumption].
    destruct (is_inside g (cell_y row) (cell_x col)) eqn:Hin;
      cbn [fst snd tile_matrix with_matrix with_game_over]; [|split; assumption].
    split.
    - intros R C Hfree. rewrite tile_at_set_tile_other; [apply Hother, Hfree|].
      specialize (Hfree row col Hrow Hcol ltac:(rewrite Ht; reflexivity) Hin).
      destruct (decide (Z.to_nat (cell_y row) = R)) as [E1|E1]; [|auto].
      destruct (decide (Z.to_nat (cell_x col) = C)) as [E2|E2]; [|auto].
      congruence.
    - intros c Hc. destruct (bool_decide _); [apply Hcols, Hc|].
      apply elem_of_app in Hc as [Hc|Hc]; [apply Hcols, Hc|].
      apply list_elem_of_singleton in Hc. subst c.
      exists row, col. rewrite Ht. auto. }
  assert (HP : forall col row s, Q s -> P col row (lock_cell n_rows tiles blc col s row)).
  { intros col row s (Hinv & _) t Ht Hin. rewrite (Hcell col row s Hinv), Ht, Hin.
    cbn [fst snd tile_matrix with_matrix].
    pose proof Hinv as (Hwfs & Hh & Hw & _).
    pose proof (is_inside_bounds g _ _ Hin) as (Hr & Hc & _).
    split.
    - apply (tile_at_set_tile_eq (grid_height g) (grid_width g)); [|exact Hr|exact Hc].
      unfold grid_wf in Hwfs. rewrite Hh, Hw in Hwfs. exact Hwfs.
    - destruct (bool_decide _) eqn:Hd; [apply bool_decide_eq_true in Hd; exact Hd|].
      apply elem_of_app. right. apply list_elem_of_singleton. reflexivity. }
  assert (HK : forall col row col' row' s,
                 Q s -> P col row s -> P col row (lock_cell n_rows tiles blc col' s row')).
  { intros col row col' row' s (Hinv & _) HPs t Ht Hin.
    destruct (HPs t Ht Hin) as [Hval Hmem].
    rewrite (Hcell col' row' s Hinv).
    destruct (tile_at tiles row' col') as [t'|] eqn:Ht'; [|auto].
    destruct (is_inside g (cell_y row') (cell_x col')) eqn:Hin';
      cbn [fst snd tile_matrix with_matrix with_game_over]; [|auto].
    pose proof Hinv as (Hwfs & Hh & Hw & _).
    pose proof (is_inside_bounds g _ _ Hin) as (Hr & Hc & Hy & Hx).
    pose proof (is_inside_bounds g _ _ Hin') as (Hr' & Hc' & Hy' & Hx').
    split.
    - destruct (decide (row' = row /\ col' = col)) as [[-> ->]|Hne].
      + rewrite (tile_at_set_tile_eq (grid_height g) (grid_width g));
          [congruence| |exact Hr|exact Hc].
        unfold grid_wf in Hwfs. rewrite Hh, Hw in Hwfs. exact Hwfs.
      + rewrite tile_at_set_tile_other; [exact Hval|].
        unfold cell_y, cell_x in *. lia.
    - destruct (bool_decide _); [exact Hmem|]. apply elem_of_app. auto. }
  assert (Hinner : forall col s, col < n_cols -> Q s ->
            Q (fold_left (lock_cell n_rows tiles blc col) (seq 0 n_rows) s)
            /\ forall row, row ∈ seq 0 n_rows ->
                 P col row (fold_left (lock_cell n_rows tiles blc col) (seq 0 n_rows) s)).
  { intros col s Hcol Hs.
    apply (fold_left_establish (lock_cell n_rows tiles blc col) Q (P col));
      [| | |exact Hs].
    - intros row a Hrow Ha. apply elem_of_seq in Hrow. apply HQ; [lia|exact Hcol|exact Ha].
    - intros row a _ Ha. apply HP, Ha.
    - intros row row' a _ _ Ha HPa. apply HK; assumption. }
  assert (Hkeep_col : forall col row col' s,
            col' < n_cols -> Q s -> P col row s ->
            P col row (fold_left (lock_cell n_rows tiles blc col') (seq 0 n_rows) s)).
  { intros col row col' s Hcol' Hs HPs.
    assert (Hgoal : Q (fold_left (lock_cell n_rows tiles blc col') (seq 0 n_rows) s)
                    /\ P col row (fold_left (lock_cell n_rows tiles blc col')
                                            (seq 0 n_rows) s)); [|apply Hgoal].
    apply (fold_left_keeps _ (fun a => Q a /\ P col row a)); [|auto].
    intros row' a Hrow' [Ha HPa]. apply elem_of_seq in Hrow'.
    split; [apply HQ; [lia|exact Hcol'|exact Ha]|apply HK; assumption]. }
  destruct (fold_left_establish
              (fun s col => fold_left (lock_cell n_rows tiles blc col) (seq 0 n_rows) s)
              Q (fun col s => forall row, row ∈ seq 0 n_rows -> P col row s)
              (seq 0 n_cols))
    with (a := (g, @nil nat)) as [(_ & Hother & Hcols) HPf].
  - intros col a Hcol Ha. apply elem_of_seq in Hcol. apply Hinner; [lia|exact Ha].
  - intros col a Hcol Ha. apply elem_of_seq in Hcol. apply Hinner; [lia|exact Ha].
  - intros col col' a _ Hcol' Ha HPa row Hrow. apply elem_of_seq in Hcol'.
    apply Hkeep_col; [lia|exact Ha|apply HPa, Hrow].
  - split; [|split].
    + unfold lock_inv. cbn [fst snd]. split; [exact Hwf|].
      split; [reflexivity|]. split; [reflexivity|]. split; [reflexivity|].
      split; [apply NoDup_nil; trivial|]. intros c Hc. inversion Hc.
    + intros R C _. reflexivity.
    + intros c Hc. inversion Hc.
  - split; [|split; [exact Hother|exact Hcols]].
    intros row col t Hrow Hcol Ht Hin.
    exact (HPf col ltac:(apply elem_of_seq; lia) row ltac:(apply elem_of_seq; lia)
               t Ht Hin).
Qed.

(** X18.  The placement loops of [update_grid] write every tile of the
    footprint whose cell is inside the grid at that cell, whatever the cell
    held before, and record its column; they change no other cell and
    record no other column. *)
Theorem lock_tiles_places_footprint g tiles blc :
  grid_wf g ->
  let n_rows := length tiles in
  let n_cols := length (row_at tiles 0) in
  let cell_y := fun row : nat => (y blc + (Z.of_nat n_rows - 1 - Z.of_nat row))%Z in
  let cell_x := fun col : nat => (x blc + Z.of_nat col)%Z in
  let st := lock_tiles tiles blc g in
  (forall row col t,
      row < n_rows -> col < n_cols -> tile_at tiles row col = Some t ->
      is_inside g (cell_y row) (cell_x col) = true ->
      tile_at (tile_matrix (fst st)) (Z.to_nat (cell_y row)) (Z.to_nat (cell_x col))
      = Some t
      /\ Z.to_nat (cell_x col) ∈ snd st)
  /\ (forall R C,
        (forall row col,
            row < n_rows -> col < n_cols ->
            is_some (tile_at tiles row col) = true ->
            is_inside g (cell_y row) (cell_x col) = true ->
            (Z.to_nat (cell_y row), Z.to_nat (cell_x col)) <> (R, C)) ->
        tile_at (tile_matrix (fst st)) R C = tile_at (tile_matrix g) R C)
  /\ (forall c, c ∈ snd st ->
        exists row col,
          row < n_rows /\ col < n_cols
          /\ is_some (tile_at tiles row col) = true
          /\ is_inside g (cell_y row) (cell_x col) = true
          /\ Z.to_nat (cell_x col) = c).
Proof. apply lock_cells. Qed.

Lemma lock_tiles_places_footprint_witness :
  let g := mkGrid 3 3 [[Some (mkTile 8); None; None];
                       [None; None; None];
                       [None; None; None]] false 0 in
  let tiles := [[Some (mkTile 2); None]; [Some (mkTile 4); Some (mkTile 2)]] in
  let blc := mkPoint 0 0 in
  grid_wf g
  /\ lock_tiles tiles blc g
     = (mkGrid 3 3 [[Some (mkTile 4); Some (mkTile 2); None];
                    [Some (mkTile 2); None; None];
                    [None; None; None]] false 0, [0; 1])
  /\ tile_at (tile_matrix (fst (lock_tiles tiles blc g))) 0 0 = Some (mkTile 4).
Proof.
  intros g tiles blc.
  assert (Hwf : grid_wf g) by concrete_dims.
  split; [exact Hwf|]. split; [reflexivity|].
  destruct (lock_tiles_places_footprint g tiles blc Hwf) as (Hplace & _).
  exact (proj1 (Hplace 1 0 (mkTile 4) ltac:(simpl; lia) ltac:(simpl; lia)
                       eq_refl eq_refl)).
Defined.

(** ** Landing *)

Lemma landing_overflow p g r0 c0 :
  let m := Tetromino.tile_matrix p in
  matrix_dims (length m) (length m) m -> is_some (tile_at m r0 c0) = true ->
  piece_fits (grid_width g) p g ->
  exists cropped pos,
    Tetromino.get_min_bounded_tile_matrix p = Some (cropped, pos)
    /\ cropped <> []
    /\ (footprint_overflows g cropped pos
        <-> exists r c, is_some (tile_at m r c) = true
                        /\ (Z.of_nat (grid_height g)
                            <= y (Tetromino.get_cell_position p r c))%Z).
Proof.
  intros m Hd Ho Hfit.
  destruct (min_bounded_cells p r0 c0 Hd Ho)
    as (cropped & pos & Hrun & Hne & Hdc & Hto & Hfrom & _).
  exists cropped, pos. split; [exact Hrun|]. split; [exact Hne|].
  unfold footprint_overflows, cell_overflows. split.
  - intros (row & col & Hrow & Hcol & Hbad).
    destruct (tile_at cropped row col) as [t|] eqn:Ht; [|discriminate].
    destruct (Hfrom row col t Ht) as (r & c & Hrc & Hpos).
    exists r, c. fold m in Hrc. rewrite Hrc. split; [reflexivity|].
    destruct (Hfit r c) as (Hx & Hy & _); [fold m; rewrite Hrc; reflexivity|].
    rewrite <- Hpos in Hx, Hy |- *. cbn [x y] in *.
    apply negb_true_iff in Hbad. unfold is_inside in Hbad.
    rewrite !andb_false_iff in Hbad.
    destruct Hbad as [[[Hb|Hb]|Hb]|Hb];
      try apply Z.leb_gt in Hb; try apply Z.ltb_ge in Hb; lia.
  - intros (r & c & Hrc & Hy).
    destruct (tile_at m r c) as [t|] eqn:Ht; [|discriminate].
    destruct (Hto r c t Ht) as (i & j & Hij & Hpos).
    destruct (tile_at_inside _ _ _ _ _ _ Hdc Hij) as [Hi Hj].
    exists i, j. split; [exact Hi|]. split; [exact Hj|]. rewrite Hij.
    apply negb_true_iff. rewrite <- Hpos in Hy. cbn [y] in Hy.
    unfold is_inside. rewrite !andb_false_iff. left. left. right.
    apply Z.ltb_ge. exact Hy.
Qed.

(** X19.  The landing step of the main loop returns, and it reports the
    end of the game exactly when a tile of the landed piece lies above the
    top row of the board. *)
Theorem landing_game_over p g r0 c0 :
  let m := Tetromino.tile_matrix p in
  grid_wf g -> 0 < grid_height g -> 0 < grid_width g -> game_over g = false ->
  matrix_dims (length m) (length m) m -> is_some (tile_at m r0 c0) = true ->
  piece_fits (grid_width g) p g ->
  (exists F g' b, forall fuel, F <= fuel -> land fuel p g = Some (g', b))
  /\ (forall fuel g' b,
        land fuel p g = Some (g', b) ->
        (b = true
         <-> exists r c, is_some (tile_at m r c) = true
                         /\ (Z.of_nat (grid_height g)
                             <= y (Tetromino.get_cell_position p r c))%Z)).
Proof.
  intros m Hwf Hh Hw Hgo Hd Ho Hfit.
  destruct (landing_overflow p g r0 c0 Hd Ho Hfit) as (cropped & pos & Hrun & Hne & Hiff).
  destruct (lock_tiles_spec g cropped pos Hwf) as [_ Hflag].
  unfold land. rewrite Hrun. split.
  - destruct (game_over (fst (lock_tiles cropped pos g))) eqn:Hlock.
    + exists 0, (fst (lock_tiles cropped pos g)), true. intros fuel _.
      rewrite (update_grid_unfold fuel cropped pos g Hne).
      destruct (lock_tiles cropped pos g) as [g1 cols]. cbn [fst] in *.
      rewrite Hlock. reflexivity.
    + destruct (update_grid_resolves g cropped pos Hwf Hh Hw Hne Hlock)
        as (F & g' & _ & _ & _ & Hres).
      exists F, g', false. exact Hres.
  - intros fuel g' b Hland.
    rewrite (update_grid_flag fuel cropped pos g g' b Hland).
    split.
    + intros Hb. apply Hiff. apply Hflag in Hb as [Hb|Hb]; [congruence|exact Hb].
    + intros Hex. apply Hflag. right. apply Hiff, Hex.
Qed.

Lemma landing_game_over_witness :
  let p := Tetromino.mk shape_O [[Some (mkTile 2); Some (mkTile 2)];
                                 [Some (mkTile 2); Some (mkTile 4)]] (mkPoint 0 1) in
  let g := mkGrid 2 2 [[Some (mkTile 8); None]; [None; None]] false 0 in
  grid_wf g /\ 0 < grid_height g /\ 0 < grid_width g /\ game_over g = false
  /\ matrix_dims 2 2 (Tetromino.tile_matrix p)
  /\ is_some (tile_at (Tetromino.tile_matrix p) 0 0) = true
  /\ piece_fits (grid_width g) p g
  /\ Tetromino.can_be_moved 2 p dir_down g = false
  /\ exists g', land 0 p g = Some (g', true).
Proof.
  intros p g.
  assert (Hwf : grid_wf g) by concrete_dims.
  assert (Hh : 0 < grid_height g) by (simpl; lia).
  assert (Hw : 0 < grid_width g) by (simpl; lia).
  assert (Hgo : game_over g = false) by reflexivity.
  assert (Hd : matrix_dims 2 2 (Tetromino.tile_matrix p)) by concrete_dims.
  assert (Ho : is_some (tile_at (Tetromino.tile_matrix p) 0 0) = true) by reflexivity.
  assert (Hfit : piece_fits (grid_width g) p g).
  { intros [|[|r]] [|[|c]] Hc; try discriminate; cbn; repeat split; lia. }
  split; [exact Hwf|]. split; [exact Hh|]. split; [exact Hw|]. split; [exact Hgo|].
  split; [exact Hd|]. split; [exact Ho|]. split; [exact Hfit|].
  split; [reflexivity|].
  destruct (landing_game_over p g 0 0 Hwf Hh Hw Hgo Hd Ho Hfit) as [_ Hflag].
  destruct (land 0 p g) as [[g' b]|] eqn:E; [|discriminate].
  exists g'. f_equal. f_equal. apply (Hflag 0 g' b E).
  exists 0, 0. split; [reflexivity|]. cbn. lia.
Defined.

(** ** The numbers on the tiles *)

Section TileValues.

Variable P : Z -> Prop.
Hypothesis P_double : forall v, P v -> P (v * 2)%Z.

Lemma tiles_sat_cells m :
  tiles_sat P m <-> forall r c t, tile_at m r c = Some t -> P (number t).
Proof.
  split.
  - intros Hp r c t Ht. unfold tile_at in Ht.
    destruct (m !! r) as [row|] eqn:Hrow; [|discriminate].
    destruct (row !! c) as [o|] eqn:Ho; [|discriminate]. subst o.
    unfold tiles_sat in Hp. rewrite Forall_lookup in Hp.
    specialize (Hp r row Hrow). rewrite Forall_lookup in Hp.
    exact (Hp c (Some t) Ho).
  - intros Hcells. apply Forall_lookup. intros r row Hrow.
    apply Forall_lookup. intros c o Ho. destruct o as [t|]; [|exact I].
    apply (Hcells r c). unfold tile_at. rewrite Hrow, Ho. reflexivity.
Qed.

Lemma set_tile_sat m r c v :
  tiles_sat P m -> cell_sat P v -> tiles_sat P (set_tile m r c v).
Proof.
  intros Hp Hv. unfold set_tile. apply Forall_alter; [exact Hp|].
  intros row _ Hrow. apply Forall_insert; assumption.
Qed.

Lemma merge_column_from_sat col fuel :
  forall row g merged,
    tiles_sat P (tile_matrix g) ->
    tiles_sat P (tile_matrix (fst (merge_column_from fuel row col g merged))).
Proof.
  induction fuel as [|fuel IH]; intros row g merged Hp; [exact Hp|].
  simpl. destruct (row <? grid_height g - 1); [|exact Hp].
  destruct (tile_at (tile_matrix g) row col) as [a|] eqn:Ha; [|apply IH, Hp].
  destruct (tile_at (tile_matrix g) (row + 1) col) as [b|] eqn:Hb; [|apply IH, Hp].
  destruct (number a =? number b)%Z eqn:Hab; [|apply IH, Hp].
  apply IH. cbn [tile_matrix with_score with_matrix].
  apply set_tile_sat; [|exact I]. apply set_tile_sat; [exact Hp|].
  unfold merge_with. rewrite Hab. simpl. apply P_double.
  exact (proj1 (tiles_sat_cells _) Hp row col a Ha).
Qed.

Lemma chain_sat columns g :
  tiles_sat P (tile_matrix g) ->
  tiles_sat P (tile_matrix (fst (chain_bottom_up_merge columns g))).
Proof.
  unfold chain_bottom_up_merge. generalize false.
  revert g. induction columns as [|c cs IH]; intros g merged Hp; [exact Hp|].
  simpl. pose proof (merge_column_from_sat c (grid_height g) 0 g merged Hp) as H1.
  unfold merge_column at 2. cbn [fst snd].
  destruct (merge_column_from (grid_height g) 0 c g merged) as [g1 m1].
  apply IH. exact H1.
Qed.

Lemma drop_unsupported_sat visited h w m :
  tiles_sat P m -> tiles_sat P (drop_unsupported visited h w m).
Proof.
  unfold drop_unsupported, drop_column.
  apply fold_left_stable. intros c m1 _ Hp1.
  apply fold_left_stable; [|exact Hp1]. intros r m2 _ Hp2.
  unfold drop_tile. destruct (_ && _); [|exact Hp2]. destruct (_ =? _); [exact Hp2|].
  apply set_tile_sat; [|exact I]. apply set_tile_sat; [exact Hp2|].
  destruct (tile_at m2 r c) as [t|] eqn:Ht; [|exact I].
  exact (proj1 (tiles_sat_cells _) Hp2 r c t Ht).
Qed.

Lemma fall_sat g fuel g' :
  fall_disconnected_tiles fuel g = Some g' ->
  tiles_sat P (tile_matrix g) -> tiles_sat P (tile_matrix g').
Proof.
  unfold fall_disconnected_tiles.
  destruct ((grid_height g =? 0) && (0 <? grid_width g)); [discriminate|].
  destruct (flood_fill _ _ _ _) as [v|]; [|discriminate].
  intros H Hp. injection H as <-. simpl. apply drop_unsupported_sat, Hp.
Qed.

Lemma merge_settle_loop_sat columns inner fuel :
  forall g g',
    merge_settle_loop inner fuel columns g = Some g' ->
    tiles_sat P (tile_matrix g) -> tiles_sat P (tile_matrix g').
Proof.
  induction fuel as [|fuel IH]; intros g g' H Hp; [discriminate|].
  simpl in H. pose proof (chain_sat columns g Hp) as Hp1.
  destruct (chain_bottom_up_merge columns g) as [g1 [|]]; cbn [fst] in Hp1.
  - destruct (fall_disconnected_tiles inner g1) as [g2|] eqn:E; [|discriminate].
    apply (IH g2 g' H). exact (fall_sat g1 inner g2 E Hp1).
  - injection H as <-. exact Hp1.
Qed.

Lemma cleared_sat w m : tiles_sat P m -> tiles_sat P (cleared_matrix w m).
Proof.
  intros Hp. unfold cleared_matrix. apply Forall_app. split.
  - induction Hp as [|r m Hr _ IH]; simpl; [constructor|].
    destruct (row_full r); [exact IH|constructor; assumption].
  - apply Forall_replicate. apply Forall_replicate. exact I.
Qed.

Lemma lock_tiles_sat tiles blc g :
  tiles_sat P tiles -> tiles_sat P (tile_matrix g) ->
  tiles_sat P (tile_matrix (fst (lock_tiles tiles blc g))).
Proof.
  intros Ht Hp. unfold lock_tiles.
  apply (fold_left_stable _ (fun st => tiles_sat P (tile_matrix (fst st))));
    [|exact Hp].
  intros col st _ Hst.
  apply (fold_left_stable _ (fun st => tiles_sat P (tile_matrix (fst st))));
    [|exact Hst].
  intros row st1 _ Hst1. unfold lock_cell.
  destruct (tile_at tiles row col) as [tile|] eqn:E; [|exact Hst1].
  destruct (is_inside _ _ _); simpl; [|exact Hst1].
  apply set_tile_sat; [exact Hst1|].
  exact (proj1 (tiles_sat_cells _) Ht row col tile E).
Qed.

Lemma merge_settle_loop_dims columns fuel inner g g' :
  merge_settle_loop inner fuel columns g = Some g' ->
  grid_wf g -> 0 < grid_height g -> NoDup columns ->
  (forall c, c ∈ columns -> c < grid_width g) ->
  grid_wf g' /\ grid_height g' = grid_height g /\ grid_width g' = grid_width g.
Proof.
  intros E Hwf Hh Hnd Hin.
  destruct (merge_settle_loop_spec columns (max inner (settle_fuel g))
              (max fuel (S (count_occupied (tile_matrix g)))) g Hwf Hnd Hin)
    as (g2 & E2 & Hwf2 & Hh2 & Hw2 & _); [lia|lia|lia|lia|].
  rewrite (merge_settle_loop_mono _ _ _ _ _ _ _ E (Nat.le_max_l _ _)
             (Nat.le_max_l _ _)) in E2.
  injection E2 as <-. auto.
Qed.

Lemma update_grid_sat fuel tiles blc g g' b :
  update_grid fuel tiles blc g = Some (g', b) ->
  grid_wf g -> 0 < grid_height g -> 0 < grid_width g ->
  2 * grid_height g <= fuel ->
  tiles_sat P (tile_matrix g) -> tiles_sat P tiles ->
  tiles_sat P (tile_matrix g').
Proof.
  intros H Hwf Hh Hw Hfuel Hp Ht.
  destruct (lock_tiles_spec g tiles blc Hwf) as [(Hwf1 & Hh1 & Hw1 & _ & Hnd & Hin) _].
  pose proof (lock_tiles_sat tiles blc g Ht Hp) as Hp1.
  rewrite (update_grid_unfold _ _ _ _ (update_grid_nonempty _ _ _ _ _ H)) in H.
  destruct (lock_tiles tiles blc g) as [g1 aff]. cbn [fst snd] in *.
  destruct (game_over g1); [injection H as <- <-; exact Hp1|].
  destruct (merge_settle_loop fuel fuel aff g1) as [g2|] eqn:E2; [|discriminate].
  assert (Hin1 : forall c, c ∈ aff -> c < grid_width g1)
    by (rewrite Hw1; exact Hin).
  pose proof (merge_settle_loop_sat _ _ _ _ _ E2 Hp1) as Hp2.
  destruct (merge_settle_loop_dims aff fuel fuel g1 g2 E2 Hwf1 ltac:(lia) Hnd Hin1)
    as (Hwf2 & Hh2 & Hw2).
  rewrite (clear_full_rows_spec g2 fuel Hwf2) in H by lia.
  pose proof (cleared_sat (grid_width g2) _ Hp2) as Hp3.
  set (g3 := mkGrid _ _ _ _ _) in *.
  destruct (fall_disconnected_tiles fuel g3) as [g4|] eqn:E4; [|discriminate].
  injection H as <- <-. exact (fall_sat g3 fuel g4 E4 Hp3).
Qed.

Lemma rot90_sat n (m : Matrix) :
  matrix_dims n n m -> tiles_sat P m -> tiles_sat P (rot90_clockwise m).
Proof.
  intros Hd Hp. apply tiles_sat_cells. intros r c t Ht.
  destruct (tile_at_inside _ _ _ _ _ _ (rot90_clockwise_dims _ _ Hd) Ht) as [Hr Hc].
  rewrite (rot90_clockwise_lookup n m r c Hd Hr Hc) in Ht.
  exact (proj1 (tiles_sat_cells _) Hp _ _ t Ht).
Qed.

Lemma land_sat fuel p g g' b r0 c0 :
  let m := Tetromino.tile_matrix p in
  land fuel p g = Some (g', b) ->
  grid_wf g -> 0 < grid_height g -> 0 < grid_width g ->
  2 * grid_height g <= fuel ->
  matrix_dims (length m) (length m) m -> is_some (tile_at m r0 c0) = true ->
  tiles_sat P (tile_matrix g) -> tiles_sat P m ->
  tiles_sat P (tile_matrix g').
Proof.
  intros m Hland Hwf Hh Hw Hfuel Hd Ho Hp Hm. unfold land in Hland.
  destruct (min_bounded_cells p r0 c0 Hd Ho)
    as (cropped & pos & Hrun & _ & _ & _ & Hfrom & _).
  rewrite Hrun in Hland.
  apply (update_grid_sat fuel cropped pos g g' b Hland Hwf Hh Hw Hfuel Hp).
  apply tiles_sat_cells. intros i j t Ht.
  destruct (Hfrom i j t Ht) as (r & c & Hrc & _).
  exact (proj1 (tiles_sat_cells _) Hm r c t Hrc).
Qed.

End TileValues.

Lemma power_of_two_double v : power_of_two v -> power_of_two (v * 2).
Proof.
  intros [k ->]. exists (S k).
  replace (Z.of_nat (S k) + 1)%Z with (Z.succ (Z.of_nat k + 1)) by lia.
  rewrite Z.pow_succ_r by lia. lia.
Qed.

Lemma Tile_init_power choice : power_of_two (number (Tile_init choice)).
Proof. destruct choice; [exists 1|exists 0]; reflexivity. Qed.

Lemma fill_cells_sat (P : Z -> Prop) choice cells :
  (forall b, P (number (Tile_init b))) ->
  forall k m, tiles_sat P m -> tiles_sat P (Tetromino.fill_cells choice k cells m).
Proof.
  intros Hb. induction cells as [|[col row] cells IH]; intros k m Hm; [exact Hm|].
  simpl. apply IH. apply set_tile_sat; [exact Hm|]. apply Hb.
Qed.

Lemma init_sat (P : Z -> Prop) gh gw shape choice raw p :
  (forall b, P (number (Tile_init b))) ->
  Tetromino.init gh gw shape choice raw = Some p ->
  tiles_sat P (Tetromino.tile_matrix p).
Proof.
  intros Hb. unfold Tetromino.init.
  destruct (randint _ _ _) as [rx|]; [|discriminate]. intros H. injection H as <-.
  cbn [Tetromino.tile_matrix]. apply fill_cells_sat; [exact Hb|].
  apply Forall_replicate. apply Forall_replicate. exact I.
Qed.

(** X20.  Every number on the board is a power of two from 2 on, and
    stays one: the constructor fills a piece with 2s and 4s, turning a
    piece changes no number, the grid starts empty, and the landing step
    (locking, merging, clearing, falling) maps a board and a piece of
    powers of two to a board of powers of two. *)
Theorem tiles_stay_powers_of_two fuel p g g' b r0 c0 :
  let m := Tetromino.tile_matrix p in
  land fuel p g = Some (g', b) ->
  grid_wf g -> 0 < grid_height g -> 0 < grid_width g ->
  2 * grid_height g <= fuel ->
  matrix_dims (length m) (length m) m -> is_some (tile_at m r0 c0) = true ->
  tiles_sat power_of_two (tile_matrix g) -> tiles_sat power_of_two m ->
  tiles_sat power_of_two (tile_matrix g')
  /\ (forall h w, tiles_sat power_of_two (tile_matrix (GameGrid_init h w)))
  /\ (forall gh gw shape choice raw q k,
        Tetromino.init gh gw shape choice raw = Some q ->
        tiles_sat power_of_two (Nat.iter k rot90_clockwise (Tetromino.tile_matrix q))).
Proof.
  intros m Hland Hwf Hh Hw Hfuel Hd Ho Hp Hm. split; [|split].
  - exact (land_sat power_of_two power_of_two_double fuel p g g' b r0 c0
             Hland Hwf Hh Hw Hfuel Hd Ho Hp Hm).
  - intros h w. apply Forall_replicate. apply Forall_replicate. exact I.
  - intros gh gw shape choice raw q k Hinit.
    pose proof (init_well_shaped gh gw shape choice raw q Hinit) as Hws.
    pose proof (init_sat power_of_two gh gw shape choice raw q Tile_init_power Hinit)
      as Hq.
    induction k as [|k IH]; [exact Hq|]. simpl.
    assert (Hwsk : well_shaped (Nat.iter k rot90_clockwise (Tetromino.tile_matrix q))).
    { clear IH. induction k as [|k IHk]; [exact Hws|]. simpl. apply well_shaped_rot, IHk. }
    apply (rot90_sat power_of_two _ _ (proj1 Hwsk) IH).
Qed.

Lemma tiles_stay_powers_of_two_witness :
  let p := Tetromino.mk shape_O [[Some (mkTile 2); Some (mkTile 4)];
                                 [Some (mkTile 2); Some (mkTile 4)]] (mkPoint 0 0) in
  let g := mkGrid 3 3 [[None; None; None]; [None; None; None]; [None; None; None]]
                  false 0 in
  let g' := mkGrid 3 3 [[Some (mkTile 4); Some (mkTile 8); None];
                        [None; None; None]; [None; None; None]] false 12 in
  land 8 p g = Some (g', false)
  /\ grid_wf g /\ 0 < grid_height g /\ 0 < grid_width g /\ 2 * grid_height g <= 8
  /\ matrix_dims 2 2 (Tetromino.tile_matrix p)
  /\ is_some (tile_at (Tetromino.tile_matrix p) 0 0) = true
  /\ tiles_sat power_of_two (tile_matrix g)
  /\ tiles_sat power_of_two (Tetromino.tile_matrix p)
  /\ tiles_sat power_of_two (tile_matrix g').
Proof.
  intros p g g'.
  assert (Hland : land 8 p g = Some (g', false)) by reflexivity.
  assert (Hwf : grid_wf g) by concrete_dims.
  assert (Hh : 0 < grid_height g) by (simpl; lia).
  assert (Hw : 0 < grid_width g) by (simpl; lia).
  assert (Hfuel : 2 * grid_height g <= 8) by (simpl; lia).
  assert (Hd : matrix_dims 2 2 (Tetromino.tile_matrix p)) by concrete_dims.
  assert (Ho : is_some (tile_at (Tetromino.tile_matrix p) 0 0) = true) by reflexivity.
  assert (Hp : tiles_sat power_of_two (tile_matrix g)) by (repeat constructor).
  assert (Hm : tiles_sat power_of_two (Tetromino.tile_matrix p)).
  { repeat constructor; [exists 0|exists 1|exists 0|exists 1]; reflexivity. }
  split; [exact Hland|]. split; [exact Hwf|]. split; [exact Hh|]. split; [exact Hw|].
  split; [exact Hfuel|]. split; [exact Hd|]. split; [exact Ho|]. split; [exact Hp|].
  split; [exact Hm|].
  exact (proj1 (tiles_stay_powers_of_two 8 p g g' false 0 0 Hland Hwf Hh Hw Hfuel
                  Hd Ho Hp Hm)).
Defined.

(** ** The colours of a tile *)

Lemma color_map_keys v c : color_map !! v = Some c -> (2 <= v <= 2048)%Z.
Proof.
  intros H. destruct (decide (2 <= v <= 2048)%Z) as [Hv|Hv]; [exact Hv|].
  exfalso. unfold color_map in H.
  rewrite not_elem_of_list_to_map_1 in H; [discriminate|].
  simpl. rewrite !not_elem_of_cons. repeat split; try lia. apply not_elem_of_nil.
Qed.

Lemma power_of_two_cases v :
  power_of_two v ->
  (v = 2 \/ v = 4 \/ v = 8 \/ v = 16 \/ v = 32 \/ v = 64 \/ v = 128 \/ v = 256
   \/ v = 512 \/ v = 1024 \/ v = 2048)%Z
  \/ (2048 < v)%Z.
Proof.
  intros [k ->].
  do 11 (destruct k as [|k]; [left; cbn; tauto|]).
  right.
  replace (Z.of_nat (S (S (S (S (S (S (S (S (S (S (S k))))))))))) + 1)%Z
    with (Z.of_nat k + 12)%Z by lia.
  rewrite Z.pow_add_r by lia.
  assert (0 < 2 ^ Z.of_nat k)%Z by (apply Z.pow_pos_nonneg; lia).
  change (2 ^ 12)%Z with 4096%Z. lia.
Qed.

(** X21.  For a tile whose number is a power of two from 2 on,
    [set_colors] uses the fall-back grey exactly above 2048 and dark text
    exactly for 2 and 4, and two such tiles up to 2048 that get the same
    background have the same number. *)
Theorem palette_covers_powers v v' :
  power_of_two v -> power_of_two v' ->
  (fst (fst (set_colors v)) = mkColor 100 100 100 <-> (2048 < v)%Z)
  /\ (snd (fst (set_colors v)) = mkColor 60 60 60 <-> (v <= 4)%Z)
  /\ ((v <= 2048)%Z -> (v' <= 2048)%Z ->
      fst (fst (set_colors v)) = fst (fst (set_colors v')) -> v = v').
Proof.
  intros Hv Hv'. unfold set_colors. cbn [fst snd].
  split; [|split].
  - destruct (power_of_two_cases v Hv) as [Hc|Hbig].
    + split; [|lia]. intros H. exfalso.
      repeat (destruct Hc as [->|Hc]; [vm_compute in H; discriminate|]).
      subst v. vm_compute in H. discriminate.
    + split; [intros _; exact Hbig|]. intros _.
      destruct (color_map !! v) as [c|] eqn:E; [|reflexivity].
      apply color_map_keys in E. lia.
  - destruct (Z.leb_spec v 4) as [Hle|Hgt]; split; auto; try discriminate; lia.
  - intros Hle Hle' H.
    destruct (power_of_two_cases v Hv) as [Hc|Hbig]; [|lia].
    destruct (power_of_two_cases v' Hv') as [Hc'|Hbig']; [|lia].
    repeat (destruct Hc as [->|Hc]);
      repeat (destruct Hc' as [->|Hc']);
      try subst v; try subst v'; try reflexivity;
      vm_compute in H; discriminate.
Qed.

Lemma palette_covers_powers_witness :
  power_of_two 8 /\ power_of_two 4096
  /\ fst (fst (set_colors 8)) = mkColor 230 200 170
  /\ fst (fst (set_colors 4096)) = mkColor 100 100 100
  /\ (2048 < 4096)%Z.
Proof.
  assert (H8 : power_of_two 8) by (exists 2; reflexivity).
  assert (H4096 : power_of_two 4096) by (exists 11; reflexivity).
  split; [exact H8|]. split; [exact H4096|]. split; [reflexivity|].
  split; [reflexivity|].
  apply (proj1 (palette_covers_powers 4096 8 H4096 H8)). reflexivity.
Defined.

(** ** The high-score list *)

Lemma insert_desc_perm {A} (key : A -> Z) e l : insert_desc key e l ≡ₚ e :: l.
Proof.
  induction l as [|y l IH]; simpl; [reflexivity|].
  destruct (key y <=? key e)%Z; [reflexivity|].
  rewrite IH. apply Permutation_swap.
Qed.

Lemma insert_desc_sorted {A} (key : A -> Z) e l :
  sorted_desc key l -> sorted_desc key (insert_desc key e l).
Proof.
  induction l as [|y l IH]; simpl; [auto|]. intros [Hy Hl].
  destruct (Z.leb_spec (key y) (key e)) as [Hle|Hgt]; simpl.
  - split; [|auto]. constructor; [exact Hle|].
    eapply Forall_impl; [exact Hy|]. simpl. intros b Hb. lia.
  - split; [|auto]. rewrite insert_desc_perm. constructor; [lia|exact Hy].
Qed.

Lemma sort_desc_perm {A} (key : A -> Z) l : sort_desc key l ≡ₚ l.
Proof.
  induction l as [|a l IH]; simpl; [reflexivity|].
  rewrite insert_desc_perm. fold (sort_desc key l). rewrite IH. reflexivity.
Qed.

Lemma sort_desc_sorted {A} (key : A -> Z) l : sorted_desc key (sort_desc key l).
Proof.
  induction l as [|a l IH]; simpl; [exact I|]. apply insert_desc_sorted, IH.
Qed.

Lemma sorted_desc_snoc {A} (key : A -> Z) l x :
  sorted_desc key (l ++ [x]) ->
  sorted_desc key l /\ Forall (fun b => key x <= key b)%Z l.
Proof.
  induction l as [|a l IH]; simpl; [auto|]. intros [Ha Hl].
  destruct (IH Hl) as [Hs Hx]. apply Forall_app in Ha as [Ha1 Ha2].
  split; [auto|]. constructor; [|exact Hx].
  apply Forall_cons in Ha2 as [Ha2 _]. exact Ha2.
Qed.

Lemma split_last {A} (l : list A) :
  l <> [] -> exists pre x, l = pre ++ [x] /\ removelast l = pre.
Proof.
  intros Hne. destruct (exists_last Hne) as (pre & x & ->).
  exists pre, x. split; [reflexivity|]. apply removelast_last.
Qed.

Lemma last_elem {A} (l : list A) z : last l = Some z -> z ∈ l.
Proof.
  intros H. apply last_Some in H as [pre ->]. apply elem_of_app. right.
  apply list_elem_of_singleton. reflexivity.
Qed.

Lemma try_add_score_spec {Name} (clean : Name -> Name) score input
    (high_scores : list (Name * Z)) :
  sorted_desc snd high_scores -> length high_scores <= 5 ->
  let result := try_add_score clean score input high_scores in
  sorted_desc snd (fst result) /\ length (fst result) <= 5
  /\ (snd result = false -> fst result = high_scores)
  /\ (snd result = true ->
      exists name,
        input = Some name
        /\ (clean name, score) ∈ fst result
        /\ (forall e, e ∈ fst result -> e = (clean name, score) \/ e ∈ high_scores)
        /\ (length high_scores < 5 -> fst result ≡ₚ (clean name, score) :: high_scores)).
Proof.
  intros Hs Hlen. unfold try_add_score.
  destruct (qualifies_top high_scores score) eqn:Hq; cbn [negb];
    [|cbn [fst snd]; split; [exact Hs|]; split; [exact Hlen|];
      split; [reflexivity|discriminate]].
  destruct input as [name|];
    [|cbn [fst snd]; split; [exact Hs|]; split; [exact Hlen|];
      split; [reflexivity|discriminate]].
  cbv zeta. cbn [fst snd].
  set (e := (clean name, score)).
  set (l1 := sort_desc snd (high_scores ++ [e])).
  assert (Hperm : l1 ≡ₚ e :: high_scores).
  { unfold l1. rewrite sort_desc_perm. rewrite Permutation_app_comm. reflexivity. }
  assert (Hs1 : sorted_desc snd l1) by apply sort_desc_sorted.
  assert (Hlen1 : length l1 = S (length high_scores)).
  { rewrite Hperm. reflexivity. }
  destruct (Nat.ltb_spec 5 (length l1)) as [Hbig|Hsmall].
  - assert (Hfive : length high_scores = 5) by lia.
    destruct (split_last l1) as (pre & x & El1 & Epre);
      [intros E; rewrite E in Hlen1; discriminate|].
    rewrite Epre. rewrite El1 in Hs1, Hperm, Hlen1.
    destruct (sorted_desc_snoc snd pre x Hs1) as [Hspre Hx].
    rewrite length_app in Hlen1. simpl in Hlen1.
    split; [exact Hspre|]. split; [lia|]. split; [discriminate|].
    intros _. exists name. split; [reflexivity|].
    assert (Hlow : (snd x < score)%Z).
    { unfold qualifies_top in Hq.
      destruct (Nat.ltb_spec (length high_scores) 5) as [H|_]; [lia|].
      cbn [orb] in Hq.
      destruct (last high_scores) as [z|] eqn:Ez; [|discriminate].
      apply Z.ltb_lt in Hq.
      assert (Hz : z ∈ pre ++ [x]).
      { rewrite Hperm. right. apply last_elem, Ez. }
      apply elem_of_app in Hz as [Hz|Hz].
      - rewrite Forall_forall in Hx. specialize (Hx z Hz). lia.
      - apply list_elem_of_singleton in Hz. subst z. exact Hq. }
    split; [|split; [|lia]].
    + assert (He : e ∈ pre ++ [x]) by (rewrite Hperm; left).
      apply elem_of_app in He as [He|He]; [exact He|].
      apply list_elem_of_singleton in He. subst x. unfold e in Hlow. simpl in Hlow. lia.
    + intros y Hy.
      assert (Hy' : y ∈ pre ++ [x]) by (apply elem_of_app; auto).
      rewrite Hperm in Hy'. apply elem_of_cons in Hy'. exact Hy'.
  - split; [exact Hs1|]. split; [lia|]. split; [discriminate|].
    intros _. exists name. split; [reflexivity|].
    split; [rewrite Hperm; left|]. split; [|intros _; exact Hperm].
    intros y Hy. rewrite Hperm in Hy. apply elem_of_cons in Hy. exact Hy.
Qed.

(** X22.  [try_add_score] keeps the high-score list in descending order
    with at most five entries.  When it returns [False] the list is as it
    was; when it returns [True] the new entry is in the list, every other
    entry was there before, and no entry is dropped while the list has
    fewer than five. *)
Theorem try_add_score_keeps_top_five {Name} (clean : Name -> Name) score input
    (high_scores : list (Name * Z)) :
  sorted_desc snd high_scores -> length high_scores <= 5 ->
  let result := try_add_score clean score input high_scores in
  sorted_desc snd (fst result) /\ length (fst result) <= 5
  /\ (snd result = false -> fst result = high_scores)
  /\ (snd result = true ->
      exists name,
        input = Some name
        /\ (clean name, score) ∈ fst result
        /\ (forall e, e ∈ fst result -> e = (clean name, score) \/ e ∈ high_scores)
        /\ (length high_scores < 5 -> fst result ≡ₚ (clean name, score) :: high_scores)).
Proof. apply try_add_score_spec. Qed.

Lemma try_add_score_keeps_top_five_witness :
  let hs := [(1%nat, 90%Z); (2%nat, 70%Z); (3%nat, 70%Z); (4%nat, 50%Z); (5%nat, 10%Z)] in
  sorted_desc snd hs /\ length hs <= 5
  /\ try_add_score (fun n : nat => n) 70 (Some 6%nat) hs
     = ([(1%nat, 90%Z); (2%nat, 70%Z); (3%nat, 70%Z); (6%nat, 70%Z); (4%nat, 50%Z)], true)
  /\ sorted_desc snd (fst (try_add_score (fun n : nat => n) 70 (Some 6%nat) hs)).
Proof.
  intros hs.
  assert (Hs : sorted_desc snd hs).
  { simpl. repeat split; repeat constructor; simpl; lia. }
  assert (Hlen : length hs <= 5) by (simpl; lia).
  split; [exact Hs|]. split; [exact Hlen|]. split; [reflexivity|].
  exact (proj1 (try_add_score_keeps_top_five (fun n : nat => n) 70 (Some 6%nat) hs
                  Hs Hlen)).
Defined.

(** ** Merges after a row is cleared *)

(** X23.  [update_grid] merges before it clears rows and not after: when a
    cleared row brings two equal tiles of an affected column together, the
    call returns with the pair still unmerged.  So the absence of
    mergeable pairs that the merge-settle loop establishes does not hold
    for the grid [update_grid] returns. *)
Theorem update_grid_may_leave_pair :
  ~ (forall g tiles blc fuel g' b,
        grid_wf g -> tiles <> [] ->
        update_grid fuel tiles blc g = Some (g', b) -> b = false ->
        ~ merge_possible (tile_matrix g') (snd (lock_tiles tiles blc g))).
Proof.
  intros H.
  set (g := mkGrid 4 3 [[Some (mkTile 2); Some (mkTile 8); None];
                        [None; Some (mkTile 16); Some (mkTile 32)];
                        [None; None; None];
                        [None; None; None]] false 0).
  set (tiles := [[Some (mkTile 2)]; [Some (mkTile 4)]]).
  set (g' := mkGrid 4 3 [[Some (mkTile 2); Some (mkTile 8); None];
                         [Some (mkTile 2); None; None];
                         [None; None; None];
                         [None; None; None]] false 52).
  apply (H g tiles (mkPoint 0 1) 20 g' false).
  - unfold g. concrete_dims.
  - discriminate.
  - reflexivity.
  - reflexivity.
  - exists 0, 0. split; [left|].
    exists (mkTile 2), (mkTile 2). repeat split; reflexivity.
Qed.
